(** * anki_forvo_dl: the bulk-add orchestrator of [BulkAdd.py]

    A shallow embedding of the batch download dialog ([BulkAdd]) and of its
    worker thread ([Thread]), followed by the properties of the
    specification that were checked against it. *)

From Stdlib Require Import ZArith Lia.
From stdpp Require Import base option list strings gmap sets sorting.
From Equations Require Import Equations.

Local Open Scope Z_scope.

(** ** Exceptions

    The exception classes that the per-card code raises itself
    ([Exceptions.py]) and the built-in ones its expressions can raise.
    [OtherException] stands for whatever a collaborator (urllib, json, the
    media store, the collection) throws; all of them derive from Python's
    [Exception]. *)

Inductive Exception : Type :=
| FieldNotFoundException (field : string)
| NoResultsException
| DownloadCancelledException
| AttributeError
| IndexError
| OtherException (msg : string).

#[global] Instance Exception_eq_dec : EqDecision Exception.
Proof. solve_decision. Defined.

(** ** Forvo candidates and the vote ranking *)

Module Forvo.

(** [Forvo.Pronunciation]: the attributes that [BulkAdd.py] reads. *)
Record Pronunciation : Type := mkPronunciation {
  user : string;
  votes : Z;
  audio : string
}.

#[global] Instance Pronunciation_eq_dec : EqDecision Pronunciation.
Proof. solve_decision. Defined.

(** [results.sort(key=lambda result: result.votes)]: Python's list sort is
    ascending and stable.  A stable sort has one possible output, which the
    insertion sort below computes: an element is placed in front of the
    first element, among those that followed it, whose key is not smaller. *)
Fixpoint insert_by_votes (p : Pronunciation) (l : list Pronunciation)
  : list Pronunciation :=
  match l with
  | [] => [p]
  | q :: l' =>
      if votes p <=? votes q then p :: q :: l'
      else q :: insert_by_votes p l'
  end.

Fixpoint sort_by_votes (l : list Pronunciation) : list Pronunciation :=
  match l with
  | [] => []
  | p :: l' => insert_by_votes p (sort_by_votes l')
  end.

(** [results[len(results) - 1]]: on the empty list the index is [-1], which
    Python rejects with [IndexError]. *)
Definition top_of (results : list Pronunciation) : Exception + Pronunciation :=
  match last results with
  | Some p => inr p
  | None => inl IndexError
  end.

(** Lines 381-383 of [Thread.run]: sort by votes, take the last one. *)
Definition select_top (results : list Pronunciation)
  : Exception + Pronunciation :=
  top_of (sort_by_votes results).

(** The candidate that a scan from the right keeps: the first maximum met,
    which is the last maximum of the list. *)
Fixpoint last_max (l : list Pronunciation) : option Pronunciation :=
  match l with
  | [] => None
  | p :: l' =>
      match last_max l' with
      | None => Some p
      | Some q => if votes p <=? votes q then Some q else Some p
      end
  end.

Definition by_votes (p q : Pronunciation) : Prop := votes p ≤ votes q.

End Forvo.

(** ** The scoped configuration store *)

Module Config.

(** Modelled from the spec: [Config.py] is not among the sources.  Section
    4.1 describes it as a key/value store with exact-scope lookup and an
    upsert where the last write wins.  The two global options that the
    worker reads are created by [ensure_options] when the add-on loads, so
    they are plain fields here; a scoped getter answers [None] when the
    (name, scope) pair has no entry, and the [.value] of a [ConfigObject]
    is what a [Some] carries. *)
Record Config : Type := mkConfig {
  skipExistingBulkAdd : bool;
  appendAudio : bool;
  note_type_specific : gmap (string * Z) string;
  deck_specific : gmap (string * Z) string
}.

Definition get_note_type_specific_config_object
    (c : Config) (name : string) (note_type : Z) : option string :=
  note_type_specific c !! (name, note_type).

Definition get_deck_specific_config_object
    (c : Config) (name : string) (deck : Z) : option string :=
  deck_specific c !! (name, deck).

Definition set_note_type_specific_config_object
    (c : Config) (name value : string) (note_type : Z) : Config :=
  {| skipExistingBulkAdd := skipExistingBulkAdd c;
     appendAudio := appendAudio c;
     note_type_specific := <[(name, note_type) := value]> (note_type_specific c);
     deck_specific := deck_specific c |}.

Definition set_deck_specific_config_object
    (c : Config) (name value : string) (deck : Z) : Config :=
  {| skipExistingBulkAdd := skipExistingBulkAdd c;
     appendAudio := appendAudio c;
     note_type_specific := note_type_specific c;
     deck_specific := <[(name, deck) := value]> (deck_specific c) |}.

End Config.

(** ** Cards, notes and the collaborators of the worker *)

(** An [anki.cards.Card] object.  [card_id] is [card.id], the card of the
    collection that the object was loaded from; [nid], [did] and
    [note_type_id] are what the code reads from the card: its note, its deck
    ([card.did]) and its note type ([card.note_type()["id"]]).  The class
    defines no [__eq__], so [card in l] compares objects: [object_id] tells
    the objects apart, and two values of this type are equal when they are
    the same object. *)
Record Card : Type := mkCard {
  card_id : Z;
  nid : Z;
  did : Z;
  note_type_id : Z;
  object_id : Z
}.

#[global] Instance Card_eq_dec : EqDecision Card.
Proof. solve_decision. Defined.

(** A note: its fields in order, each a name with its content. *)
Definition Note : Type := list (string * string).

(** [name in note] *)
Definition note_has (n : Note) (name : string) : bool :=
  bool_decide (name ∈ n.*1).

(** [note[name]], for a name that [note_has]. *)
Fixpoint note_get (n : Note) (name : string) : string :=
  match n with
  | [] => ""
  | (k, v) :: n' => if String.eqb k name then v else note_get n' name
  end.

(** [note[name] = value] *)
Fixpoint note_set (n : Note) (name value : string) : Note :=
  match n with
  | [] => []
  | (k, v) :: n' =>
      if String.eqb k name then (k, value) :: n'
      else (k, v) :: note_set n' name value
  end.

(** [note.fields[0]] *)
Definition first_field (n : Note) : string :=
  match n with
  | [] => ""
  | (_, v) :: _ => v
  end.

(** [Util.FailedDownload(card, reason)] *)
Record FailedDownload : Type := mkFailedDownload {
  card : Card;
  reason : Exception
}.

#[global] Instance FailedDownload_eq_dec : EqDecision FailedDownload.
Proof. solve_decision. Defined.

(** What the remote services, the media store and the collection answer.
    Each function is the outcome of one call of the source: a value, or the
    exception that the call raises. *)
Record World : Type := mkWorld {
  temp_dir : string;
  (** lines 353-355: the jisho.org request and the [reading] of its first
      entry *)
  jisho_reading : string → Exception + string;
  (** lines 360-364: the JapanesePod101 request for (kanji, kana), the write
      of the payload to [dl_path], and the md5 digest of that file *)
  japanesePod101 : string → string → Exception + string;
  (** [mw.col.media.add_file(dl_path)] *)
  media_add_file : string → Exception + string;
  (** [card.note().flush()], for the note [nid] with its current content *)
  note_flush : Z → Note → Exception + unit;
  (** [Forvo(query, language, mw, config)] *)
  Forvo_init : string → string → Exception + unit;
  (** [results.load_search_query().get_pronunciations().pronunciations] *)
  get_pronunciations : string → string → Exception + list Forvo.Pronunciation;
  (** [top.download_pronunciation()]: the name stored in [top.audio] *)
  download_pronunciation : Forvo.Pronunciation → Exception + string;
  (** lines 400-401: open the dated log file and append the traceback of
      the exception that was raised for the card *)
  error_log_write : Card → Exception → Exception + unit
}.

(** The md5 digest of the placeholder that JapanesePod101 serves when it has
    no audio (line 364). *)
Definition no_content_md5 : string := "7e2c2f954ef6051373ba916f000168dc".

(** The lines sent through the [log] signal. *)
Inductive LogLine : Type :=
| LogNextCard (query language : string)
| LogTryingJapanesePod101
| LogAppended
| LogPlaced
| LogSavedNote
| LogSelected (user : string) (votes : Z)
| LogDownloaded
| LogError (first_field : string) (e : Exception).

(** ** The worker thread *)

Module Thread.

(** The instance attributes set by [__init__], with the signals the
    instance has emitted so far.  [is_cancelled] starts as the class
    attribute [False]; [handle_cancel_click] assigns it on the instance. *)
Record Thread : Type := mkThread {
  cards : list Card;
  cnt : Z;
  _status : bool;
  is_cancelled : bool;
  skipped_cards : Z;
  failed : list FailedDownload;
  change_value : list Z;
  log : list LogLine
}.

(** What outlives an instance: the class attribute [Thread.done_cards]
    (line 285, a list created once, when the class is), the configuration
    object, the notes of the collection, the failure log file and the
    number of calls of [Forvo.cleanup]. *)
Record Process : Type := mkProcess {
  done_cards : list Card;
  config : Config.Config;
  notes : Z → Note;
  error_log : list Exception;
  cleanups : nat
}.

Record Machine : Type := mkMachine {
  th : Thread;
  ps : Process
}.

(** [Thread.__init__]: no attribute of the class is assigned. *)
Definition __init__ (cs : list Card) : Thread :=
  {| cards := cs; cnt := 0; _status := true; is_cancelled := false;
     skipped_cards := 0; failed := []; change_value := []; log := [] |}.

(** *** Updates of single attributes *)

Definition with_th (f : Thread → Thread) (m : Machine) : Machine :=
  {| th := f (th m); ps := ps m |}.

Definition with_ps (f : Process → Process) (m : Machine) : Machine :=
  {| th := th m; ps := f (ps m) |}.

Definition set_cnt (v : Z) (t : Thread) : Thread :=
  {| cards := cards t; cnt := v; _status := _status t;
     is_cancelled := is_cancelled t; skipped_cards := skipped_cards t;
     failed := failed t; change_value := change_value t; log := log t |}.

Definition set_status (v : bool) (t : Thread) : Thread :=
  {| cards := cards t; cnt := cnt t; _status := v;
     is_cancelled := is_cancelled t; skipped_cards := skipped_cards t;
     failed := failed t; change_value := change_value t; log := log t |}.

Definition set_is_cancelled (v : bool) (t : Thread) : Thread :=
  {| cards := cards t; cnt := cnt t; _status := _status t;
     is_cancelled := v; skipped_cards := skipped_cards t;
     failed := failed t; change_value := change_value t; log := log t |}.

Definition set_skipped_cards (v : Z) (t : Thread) : Thread :=
  {| cards := cards t; cnt := cnt t; _status := _status t;
     is_cancelled := is_cancelled t; skipped_cards := v;
     failed := failed t; change_value := change_value t; log := log t |}.

Definition set_failed (v : list FailedDownload) (t : Thread) : Thread :=
  {| cards := cards t; cnt := cnt t; _status := _status t;
     is_cancelled := is_cancelled t; skipped_cards := skipped_cards t;
     failed := v; change_value := change_value t; log := log t |}.

Definition emit_change_value (v : Z) (t : Thread) : Thread :=
  {| cards := cards t; cnt := cnt t; _status := _status t;
     is_cancelled := is_cancelled t; skipped_cards := skipped_cards t;
     failed := failed t; change_value := change_value t ++ [v];
     log := log t |}.

Definition emit_log (l : LogLine) (t : Thread) : Thread :=
  {| cards := cards t; cnt := cnt t; _status := _status t;
     is_cancelled := is_cancelled t; skipped_cards := skipped_cards t;
     failed := failed t; change_value := change_value t;
     log := log t ++ [l] |}.

Definition set_done_cards (v : list Card) (p : Process) : Process :=
  {| done_cards := v; config := config p; notes := notes p;
     error_log := error_log p; cleanups := cleanups p |}.

Definition set_config (v : Config.Config) (p : Process) : Process :=
  {| done_cards := done_cards p; config := v; notes := notes p;
     error_log := error_log p; cleanups := cleanups p |}.

Definition set_note (n : Z) (v : Note) (p : Process) : Process :=
  {| done_cards := done_cards p; config := config p;
     notes := λ k, if Z.eqb k n then v else notes p k;
     error_log := error_log p; cleanups := cleanups p |}.

Definition write_error_log (e : Exception) (p : Process) : Process :=
  {| done_cards := done_cards p; config := config p; notes := notes p;
     error_log := error_log p ++ [e]; cleanups := cleanups p |}.

(** [Forvo.cleanup()] *)
Definition cleanup (p : Process) : Process :=
  {| done_cards := done_cards p; config := config p; notes := notes p;
     error_log := error_log p; cleanups := S (cleanups p) |}.

(** *** Statements that may raise

    A statement maps the machine to the machine it leaves behind and to
    either its value or the exception it raised.  Effects that happened
    before a [raise] stay. *)

Definition M (A : Type) : Type := Machine → (Exception + A) * Machine.

Definition ret {A} (a : A) : M A := λ s, (inr a, s).

Definition raise {A} (e : Exception) : M A := λ s, (inl e, s).

Definition bind {A B} (m : M A) (k : A → M B) : M B :=
  λ s, match m s with
       | (inl e, s') => (inl e, s')
       | (inr a, s') => k a s'
       end.

(** [try: m  except Exception as e: h e] *)
Definition try_except {A} (m : M A) (h : Exception → M A) : M A :=
  λ s, match m s with
       | (inl e, s') => h e s'
       | (inr a, s') => (inr a, s')
       end.

(** the answer of a collaborator *)
Definition call {A} (r : Exception + A) : M A := λ s, (r, s).

Definition gets {A} (f : Machine → A) : M A := λ s, (inr (f s), s).

Definition modify (f : Machine → Machine) : M unit := λ s, (inr tt, f s).

(** [o.value] where [o] may be [None] *)
Definition value {A} (o : option A) : M A :=
  match o with
  | Some v => ret v
  | None => raise AttributeError
  end.

Notation "'let*' x ':=' m 'in' k" := (bind m (λ x, k))
  (at level 10, x binder, m at level 100, k at level 200).
Notation "m '>>' k" := (bind m (λ _, k))
  (at level 100, k at level 200, right associativity).

Definition say (l : LogLine) : M unit := modify (with_th (emit_log l)).

(** How the body of the [try] of line 317 is left when nothing is
    raised: through its end, or through the [continue] of line 337. *)
Inductive Exit : Type := FellThrough | Continue.

Section Run.

Variable w : World.

(** Lines 367-372 and 387-392: put the sound tag in the audio field. *)
Definition write_sound (c : Card) (audio_field name : string) : M unit :=
  let* append := gets (λ s, Config.appendAudio (config (ps s))) in
  let* note := gets (λ s, notes (ps s) (nid c)) in
  let tag := "[sound:" +:+ name +:+ "]" in
  if append : bool then
    modify (with_ps (set_note (nid c)
              (note_set note audio_field (note_get note audio_field +:+ tag)))) >>
    say LogAppended
  else
    modify (with_ps (set_note (nid c) (note_set note audio_field tag))) >>
    say LogPlaced.

(** [card.note().flush()] followed by its log line. *)
Definition flush (c : Card) : M unit :=
  let* note := gets (λ s, notes (ps s) (nid c)) in
  call (note_flush w (nid c) note) >>
  say LogSavedNote.

(** Lines 346-378: the JapanesePod101 path. *)
Definition japanesePod (c : Card) (query language audio_field : string)
  : M unit :=
  if String.eqb language "ja" then
    say LogTryingJapanesePod101 >>
    let* kana := call (jisho_reading w query) in
    let dl_path :=
      temp_dir w +:+ "/pronunciation_ja_" +:+ query +:+ ".mp3" in
    try_except
      (let* digest := call (japanesePod101 w query kana) in
       if String.eqb digest no_content_md5 then raise NoResultsException
       else
         let* media_name := call (media_add_file w dl_path) in
         write_sound c audio_field media_name >>
         flush c)
      (λ _, raise NoResultsException)
  else raise NoResultsException.

(** Lines 380-395: the Forvo path. *)
Definition forvo (c : Card) (query language audio_field : string)
  : M unit :=
  let* results := call (get_pronunciations w query language) in
  let* top := call (Forvo.select_top results) in
  say (LogSelected (Forvo.user top) (Forvo.votes top)) >>
  let* audio := call (download_pronunciation w top) in
  say LogDownloaded >>
  write_sound c audio_field audio >>
  flush c.

(** Lines 345-395: the inner [try] with its handler. *)
Definition acquire (c : Card) (query language audio_field : string)
  : M unit :=
  try_except (japanesePod c query language audio_field)
             (λ _, forvo c query language audio_field).

(** Lines 320-332: the fields and the language of the card. *)
Definition resolve (c : Card) : M (string * string * string) :=
  let* query_field :=
    gets (λ s, Config.get_note_type_specific_config_object
                 (config (ps s)) "searchField" (note_type_id c)) in
  let* query_field := value query_field in
  let* audio_field :=
    gets (λ s, Config.get_note_type_specific_config_object
                 (config (ps s)) "audioField" (note_type_id c)) in
  let* audio_field := value audio_field in
  let* note := gets (λ s, notes (ps s) (nid c)) in
  if negb (note_has note query_field) then
    raise (FieldNotFoundException query_field)
  else if negb (note_has note audio_field) then
    raise (FieldNotFoundException audio_field)
  else
    let query := note_get note query_field in
    let* language :=
      gets (λ s, Config.get_deck_specific_config_object
                   (config (ps s)) "language" (did c)) in
    let* language := value language in
    say (LogNextCard query language) >>
    ret (query, language, audio_field).

(** Lines 318-395: the body of the [try] of line 317. *)
Definition try_body (skip_existing : bool) (c : Card) : M Exit :=
  let* '(query, language, audio_field) := resolve c in
  let* note := gets (λ s, notes (ps s) (nid c)) in
  if skip_existing &&
     bool_decide (0 < String.length (note_get note audio_field))%nat
  then
    modify (with_th (λ t, set_skipped_cards (skipped_cards t + 1) t)) >>
    ret Continue
  else
    call (Forvo_init w query language) >>
    acquire c query language audio_field >>
    ret FellThrough.

(** Lines 396-401: the handler of the [try] of line 317.  It is not
    inside a [try] itself: what the write to the log file raises leaves the
    loop. *)
Definition handler (c : Card) (e : Exception) : M unit :=
  modify (with_th (λ t, set_failed (failed t ++ [mkFailedDownload c e]) t)) >>
  let* note := gets (λ s, notes (ps s) (nid c)) in
  say (LogError (first_field note) e) >>
  call (error_log_write w c e) >>
  modify (with_ps (write_error_log e)).

(** Lines 404-407: what follows the [try] statement. *)
Definition tail (c : Card) (s : Machine) : Machine :=
  let s1 := with_ps (λ p, set_done_cards (done_cards p ++ [c]) p) s in
  let s2 := with_th (λ t, set_cnt (cnt t + 1) t) s1 in
  with_th (λ t, emit_change_value (cnt t) t) s2.

(** Lines 317-407: one pass through the loop body for a card.  The value
    is an exception when the handler raised one: the lines after the [try]
    statement are not reached then. *)
Definition loop_body (skip_existing : bool) (c : Card) : M unit :=
  let* exit :=
    try_except (try_body skip_existing c)
               (λ e, handler c e >> ret FellThrough) in
  match exit with
  | Continue => ret tt
  | FellThrough => modify (tail c)
  end.

(** The machine after that pass. *)
Definition iteration (skip_existing : bool) (c : Card) (s : Machine)
  : Machine :=
  (loop_body skip_existing c s).2.

End Run.

(** *** The thread as a machine

    [run] executes on its own thread while the dialog handles clicks, so
    the loop is cut at the points where it reads what a click writes.
    [Wait] is the thread inside [self.cond.wait(self.mutex)], which
    returns when another thread calls [wakeAll] and not before (no timeout
    is passed). *)
Inductive PC : Type :=
| NotStarted
| Entry                (* line 306 *)
| Top (i : nat)        (* line 312, for the card of index [i] *)
| StatusCheck (i : nat)  (* line 315 *)
| Wait (i : nat)       (* line 316 *)
| Body (i : nat)       (* lines 317-407 *)
| Returned
| Raised (e : Exception).  (* [run] was left by an exception *)

#[global] Instance PC_eq_dec : EqDecision PC.
Proof. solve_decision. Defined.

Record Running : Type := mkRunning {
  machine : Machine;
  pc : PC;
  skip_existing : bool   (* the local variable of line 306 *)
}.

Definition at_pc (p : PC) (r : Running) : Running :=
  {| machine := machine r; pc := p; skip_existing := skip_existing r |}.

Definition on_machine (f : Machine → Machine) (r : Running) : Running :=
  {| machine := f (machine r); pc := pc r; skip_existing := skip_existing r |}.

(** [QThread.start()] *)
Definition start (r : Running) : Running :=
  match pc r with
  | NotStarted => at_pc Entry r
  | _ => r
  end.

(** One step of [run]. *)
Definition step (w : World) (r : Running) : Running :=
  match pc r with
  | NotStarted => r
  | Entry =>
      {| machine := machine r; pc := Top 0;
         skip_existing := Config.skipExistingBulkAdd (config (ps (machine r))) |}
  | Top i =>
      match cards (th (machine r)) !! i with
      | None => at_pc Returned (on_machine (with_ps cleanup) r)   (* line 411 *)
      | Some _ =>
          if is_cancelled (th (machine r))
          then at_pc Returned (on_machine (with_ps cleanup) r)    (* lines 313-314 *)
          else at_pc (StatusCheck i) r
      end
  | StatusCheck i =>
      if negb (_status (th (machine r))) then at_pc (Wait i) r
      else at_pc (Body i) r
  | Wait i => r
  | Body i =>
      match cards (th (machine r)) !! i with
      | None => at_pc Returned r
      | Some c =>
          match (loop_body w (skip_existing r) c (machine r)).1 with
          | inr _ =>
              at_pc (Top (S i))
                (on_machine (iteration w (skip_existing r) c) r)
          | inl e =>
              at_pc (Raised e)
                (on_machine (iteration w (skip_existing r) c) r)
          end
      end
  | Returned => r
  | Raised _ => r
  end.

(** [self.cond.wakeAll()] *)
Definition wakeAll (r : Running) : Running :=
  match pc r with
  | Wait i => at_pc (Body i) r
  | _ => r
  end.

(** Lines 413-416. *)
Definition toggle_status (r : Running) : Running :=
  let r' := on_machine (with_th (λ t, set_status (negb (_status t)) t)) r in
  if _status (th (machine r')) then wakeAll r' else r'.

(** The log file takes every write. *)
Definition log_file_writable (w : World) : Prop :=
  ∀ c e, error_log_write w c e = inr tt.

(** [n] steps of [run] with no click in between. *)
Fixpoint steps (w : World) (n : nat) (r : Running) : Running :=
  match n with
  | O => r
  | S n' => steps w n' (step w r)
  end.

(** *** Observations on a pass through the loop body *)

(** What the providers and the field writes leave alone: a statement of the
    [try] body touches the notes and the log, and nothing that the loop or
    the dialog reads to decide what to do next. *)
Definition same_control (s s' : Machine) : Prop :=
  cards (th s') = cards (th s)
  ∧ cnt (th s') = cnt (th s)
  ∧ _status (th s') = _status (th s)
  ∧ is_cancelled (th s') = is_cancelled (th s)
  ∧ skipped_cards (th s') = skipped_cards (th s)
  ∧ failed (th s') = failed (th s)
  ∧ change_value (th s') = change_value (th s)
  ∧ done_cards (ps s') = done_cards (ps s)
  ∧ config (ps s') = config (ps s)
  ∧ error_log (ps s') = error_log (ps s)
  ∧ cleanups (ps s') = cleanups (ps s).

Definition quiet {A} (m : M A) : Prop := ∀ s, same_control s (m s).2.

(** The statement [m] neither reads nor writes the pause flag: run with
    the flag set to [b], it does what it does otherwise. *)
Definition ignores_status {A} (m : M A) : Prop :=
  ∀ b s, m (with_th (set_status b) s)
         = ((m s).1, with_th (set_status b) (m s).2).

(** How a card left the loop body. *)
Inductive Outcome : Type :=
| Succeeded
| Skipped
| Failed (e : Exception).

Definition outcome (w : World) (skip : bool) (c : Card) (s : Machine) : Outcome :=
  match (try_body w skip c s).1 with
  | inl e => Failed e
  | inr Continue => Skipped
  | inr FellThrough => Succeeded
  end.

(** The thread is somewhere in the iteration for the card of index [k]. *)
Definition within_iteration (k : nat) (p : PC) : Prop :=
  p = Top k ∨ p = StatusCheck k ∨ p = Wait k ∨ p = Body k.

(** What can be said of a thread after Cancel was clicked while [r0] was in
    iteration [k]: it is still in that iteration and no card was finished
    since, or it has left it, the card of index [k] being the only one that
    may have been finished. *)
Definition after_cancel (r0 : Running) (k : nat) (r : Running) : Prop :=
  is_cancelled (th (machine r)) = true
  ∧ cards (th (machine r)) = cards (th (machine r0))
  ∧ ((within_iteration k (pc r)
      ∧ done_cards (ps (machine r)) = done_cards (ps (machine r0)))
     ∨ ((pc r = Top (S k) ∨ pc r = Returned ∨ ∃ e, pc r = Raised e)
        ∧ ∃ l, done_cards (ps (machine r)) = done_cards (ps (machine r0)) ++ l
               ∧ (l = [] ∨ ∃ c, cards (th (machine r0)) !! k = Some c ∧ l = [c]))).

End Thread.

(** ** The dialog *)

Module BulkAdd.

Import Thread.

(** What [review_downloads] shows. *)
Inductive Report : Type :=
| FailedDownloadsDialog (failed : list FailedDownload) (skipped : Z)
| AllFinished (skipped : Z).

(** Lines 133-135: the cards that are not in [done_cards], each as a
    cancelled download. *)
Definition cancelled_downloads (cs done : list Card) : list FailedDownload :=
  (λ c, mkFailedDownload c DownloadCancelledException)
    <$> filter (λ c, c ∉ done) cs.

(** Lines 125-146, run when the thread emits [finished]. *)
Definition review_downloads (s : Machine) : Machine * Report :=
  if bool_decide (0 < length (failed (th s)))%nat then
    (s, FailedDownloadsDialog (failed (th s)) (skipped_cards (th s)))
  else if is_cancelled (th s) then
    let s' := with_th (λ t, set_failed
                 (failed t ++ cancelled_downloads (cards t) (done_cards (ps s))) t) s in
    (s', FailedDownloadsDialog (failed (th s')) (skipped_cards (th s')))
  else
    (s, AllFinished (skipped_cards (th s))).

(** Lines 154-157. *)
Definition handle_cancel_click (r : Running) : Running :=
  on_machine (with_th (λ t, set_status true (set_is_cancelled true t))) r.

(** Lines 149-152 (the caption of the button is not modelled). *)
Definition slot_pause_button (r : Running) : Running := toggle_status r.

(** What happens next: the thread runs one step, or the user clicks. *)
Inductive Action : Type := Work | CancelClick | PauseClick.

Definition act (w : World) (a : Action) (r : Running) : Running :=
  match a with
  | Work => step w r
  | CancelClick => handle_cancel_click r
  | PauseClick => slot_pause_button r
  end.

(** A schedule, from left to right. *)
Definition exec (w : World) (sched : list Action) (r : Running) : Running :=
  foldl (λ r a, act w a r) r sched.

(** The dialog right after [start_downloads]: a fresh thread, started. *)
Definition started (cs : list Card) (p : Process) : Running :=
  start {| machine := {| th := __init__ cs; ps := p |};
           pc := NotStarted; skip_existing := false |}.

(** The card [id] of the collection is among the cards that the threads
    of the process have finished. *)
Definition completed (id : Z) (p : Process) : Prop :=
  ∃ c, c ∈ done_cards p ∧ card_id c = id.

(** The review lists the card [id] of the collection as a cancelled
    download. *)
Definition classified_cancelled (id : Z) (s : Machine) : Prop :=
  ∃ fd, fd ∈ failed (th (review_downloads s).1)
        ∧ card_id (card fd) = id
        ∧ reason fd = DownloadCancelledException.

(** *** Resolving the missing settings

    [FieldSelector] and [LanguageSelector] are dialogs: [show()] returns at
    once and the handler connected to [finished] runs when the user closes
    the dialog.  The user is a function that tells, for each dialog shown
    and its position in the sequence of dialogs, what was selected;
    [None] is a dialog closed without a selection. *)

Inductive Request : Type :=
| FieldSelector (note_type : Z) (field_type : string)
| LanguageSelector (deck_id : Z).

#[global] Instance Request_eq_dec : EqDecision Request.
Proof. solve_decision. Defined.

Inductive UIEvent : Type :=
| Shown (d : Request)
| ShowInfo (msg : string)
| AskUser
| Closed
| StartDownloads
| Uncaught (e : Exception).

#[global] Instance UIEvent_eq_dec : EqDecision UIEvent.
Proof. solve_decision. Defined.

Record User : Type := mkUser {
  selects : nat → Request → option string;
  accepts_disclaimer : bool
}.

(** The configuration and what the user has seen so far. *)
Record Flow : Type := mkFlow {
  cfg : Config.Config;
  events : list UIEvent
}.

Definition happens (e : UIEvent) (st : Flow) : Flow :=
  {| cfg := cfg st; events := events st ++ [e] |}.

Definition configure (f : Config.Config → Config.Config) (st : Flow) : Flow :=
  {| cfg := f (cfg st); events := events st |}.

(** The dialogs shown so far, in order. *)
Definition asked (evs : list UIEvent) : list Request :=
  omap (λ e, match e with Shown d => Some d | _ => None end) evs.

(** [list(set([key(card) for card in unique_cards if get(key(card)) is None]))]:
    the distinct keys without an entry.  The order in which Python lists a
    set is not specified; [elements] fixes one. *)
Definition missing_keys (key : Card → Z) (get : Z → option string)
    (unique_cards : list Card) : list Z :=
  elements (list_to_set
    (key <$> filter (λ c, get (key c) = None) unique_cards) : gset Z).

(** Lines 263-272. *)
Definition start_downloads (st : Flow) : Flow := happens StartDownloads st.

Lemma removelast_shorter {A} (x : A) (l : list A) :
  (length (removelast (x :: l)) < length (x :: l))%nat.
Proof.
  revert x; induction l as [|y l IH]; intros x; [simpl; lia|].
  change (removelast (x :: y :: l)) with (x :: removelast (y :: l)).
  specialize (IH y). simpl in *. lia.
Qed.

Lemma missing_keys_length key get cs :
  (length (missing_keys key get cs) ≤ length cs)%nat.
Proof.
  unfold missing_keys.
  transitivity (length (key <$> filter (λ c, get (key c) = None) cs)).
  - apply submseteq_length, NoDup_submseteq; [apply NoDup_elements|].
    intros z Hz. apply elem_of_elements in Hz. set_solver.
  - rewrite length_fmap. apply length_filter.
Qed.

(** Lines 165-187. *)
Equations? select_lang (u : User) (missing : list Z) (st : Flow) : Flow
  by wf (length missing) lt :=
  select_lang u [] st := happens (Uncaught IndexError) st;
  select_lang u (x :: l) st :=
    let deck_id := List.last (x :: l) x in
    let d := LanguageSelector deck_id in
    let st1 := happens (Shown d) st in
    match selects u (length (asked (events st))) d with
    | Some selected_lang =>
        let st2 := configure (λ c,
          Config.set_deck_specific_config_object c "language" selected_lang deck_id) st1 in
        if bool_decide (1 < length (x :: l))%nat
        then select_lang u (removelast (x :: l)) st2
        else start_downloads st2
    | None =>
        happens (ShowInfo "Cancelled download because no language was selected.") st1
    end.
Proof. apply removelast_shorter. Qed.

(** Lines 189-196. *)
Definition ensure_languages (u : User) (unique_cards : list Card) (st : Flow)
  : Flow :=
  let missing := missing_keys did
    (Config.get_deck_specific_config_object (cfg st) "language") unique_cards in
  if bool_decide (0 < length missing)%nat then select_lang u missing st
  else start_downloads st.

Definition stage (field_type : string) : nat :=
  if decide (field_type = "audioField") then 0%nat else 1%nat.

(** Lines 206-240. *)
Equations? select_field (u : User) (unique_cards : list Card)
    (missing_ids : list Z) (field_type : string) (st : Flow) : Flow
  by wf (stage field_type * S (length unique_cards) + length missing_ids)%nat lt :=
  select_field u cs [] ft st := happens (Uncaught IndexError) st;
  select_field u cs (x :: l) ft st
    with selects u (length (asked (events st)))
           (FieldSelector (List.last (x :: l) x) ft) => {
    | None :=
        happens (ShowInfo "Cancelled download because field wasn't selected.")
          (happens (Shown (FieldSelector (List.last (x :: l) x) ft)) st);
    | Some selected_field
        with bool_decide (1 < length (x :: l))%nat,
             decide (ft = "audioField") => {
        | true, _ :=
            select_field u cs (removelast (x :: l)) ft
              (configure (λ c, Config.set_note_type_specific_config_object
                                 c ft selected_field (List.last (x :: l) x))
                 (happens (Shown (FieldSelector (List.last (x :: l) x) ft)) st));
        | false, left _ :=
            ensure_languages u cs
              (configure (λ c, Config.set_note_type_specific_config_object
                                 c ft selected_field (List.last (x :: l) x))
                 (happens (Shown (FieldSelector (List.last (x :: l) x) ft)) st));
        | false, right _
            with bool_decide (0 < length (missing_keys note_type_id
                   (Config.get_note_type_specific_config_object
                      (Config.set_note_type_specific_config_object
                         (cfg st) ft selected_field (List.last (x :: l) x))
                      "audioField") cs))%nat => {
            | true :=
                select_field u cs
                  (missing_keys note_type_id
                     (Config.get_note_type_specific_config_object
                        (Config.set_note_type_specific_config_object
                           (cfg st) ft selected_field (List.last (x :: l) x))
                        "audioField") cs)
                  "audioField"
                  (configure (λ c, Config.set_note_type_specific_config_object
                                     c ft selected_field (List.last (x :: l) x))
                     (happens (Shown (FieldSelector (List.last (x :: l) x) ft)) st));
            | false :=
                ensure_languages u cs
                  (configure (λ c, Config.set_note_type_specific_config_object
                                     c ft selected_field (List.last (x :: l) x))
                     (happens (Shown (FieldSelector (List.last (x :: l) x) ft)) st)) } } }.
Proof.
  - pose proof (removelast_shorter x l). simpl in *. lia.
  - match goal with |- (length (missing_keys ?k ?g ?c) < _)%nat =>
      pose proof (missing_keys_length k g c) end.
    unfold stage. destruct (decide (ft = _)); [congruence|].
    simpl in *. lia.
Qed.

(** Lines 242-261. *)
Definition ensure_fields (u : User) (unique_cards : list Card) (st : Flow)
  : Flow :=
  let missing := missing_keys note_type_id
    (Config.get_note_type_specific_config_object (cfg st) "searchField")
    unique_cards in
  if bool_decide (0 < length missing)%nat
  then select_field u unique_cards missing "searchField" st
  else
    let new_missing := missing_keys note_type_id
      (Config.get_note_type_specific_config_object (cfg st) "audioField")
      unique_cards in
    if bool_decide (0 < length new_missing)%nat
    then select_field u unique_cards new_missing "audioField" st
    else start_downloads st.

(** Lines 198-204. *)
Definition start_downloads_wrapper (u : User) (unique_cards : list Card)
    (st : Flow) : Flow :=
  if bool_decide (350 < length unique_cards)%nat then
    if negb (accepts_disclaimer u)
    then happens Closed (happens AskUser st)
    else ensure_fields u unique_cards (happens AskUser st)
  else ensure_fields u unique_cards st.

(** *** The resolution as section 4.2 of the specification words it

    "Ordering is fixed: all searchField gaps resolved, then all audioField
    gaps, then all language gaps, then hand off to the executor.  Each
    step persists the chosen value before moving to the next gap.
    Declining any single step cancels resolution entirely."  [plan] is the
    list of gaps, [walk] goes through a list of gaps in that manner; the
    functions above, which follow the source, are compared with them in
    [ResolutionFacts]. *)

Definition decline_message (d : Request) : string :=
  match d with
  | FieldSelector _ _ => "Cancelled download because field wasn't selected."
  | LanguageSelector _ => "Cancelled download because no language was selected."
  end.

Definition store (d : Request) (v : string) (c : Config.Config) : Config.Config :=
  match d with
  | FieldSelector note_type field_type =>
      Config.set_note_type_specific_config_object c field_type v note_type
  | LanguageSelector deck_id =>
      Config.set_deck_specific_config_object c "language" v deck_id
  end.

Fixpoint walk (u : User) (gaps : list Request) (k : Flow → Flow) (st : Flow)
  : Flow :=
  match gaps with
  | [] => k st
  | d :: gaps' =>
      match selects u (length (asked (events st))) d with
      | Some v => walk u gaps' k (configure (store d v) (happens (Shown d) st))
      | None => happens (ShowInfo (decline_message d)) (happens (Shown d) st)
      end
  end.

Definition plan (c : Config.Config) (unique_cards : list Card) : list Request :=
  ((λ nt, FieldSelector nt "searchField")
     <$> rev (missing_keys note_type_id
                (Config.get_note_type_specific_config_object c "searchField")
                unique_cards))
  ++ ((λ nt, FieldSelector nt "audioField")
        <$> rev (missing_keys note_type_id
                   (Config.get_note_type_specific_config_object c "audioField")
                   unique_cards))
  ++ (LanguageSelector
        <$> rev (missing_keys did
                   (Config.get_deck_specific_config_object c "language")
                   unique_cards)).

(** [ensure_fields] starts the downloads at once when no note type lacks a
    field setting (line 261), without looking at the languages. *)
Definition requests (c : Config.Config) (unique_cards : list Card) : list Request :=
  if bool_decide
       (missing_keys note_type_id
          (Config.get_note_type_specific_config_object c "searchField")
          unique_cards = []
        ∧ missing_keys note_type_id
            (Config.get_note_type_specific_config_object c "audioField")
            unique_cards = [])
  then []
  else plan c unique_cards.

Abbreviation field_gaps ft c cs :=
  ((λ nt, FieldSelector nt ft)
     <$> rev (missing_keys note_type_id
                (Config.get_note_type_specific_config_object c ft) cs)).
Abbreviation language_gaps c cs :=
  (LanguageSelector
     <$> rev (missing_keys did
                (Config.get_deck_specific_config_object c "language") cs)).

(** The audio fields and then the languages, from the state [st]. *)
Definition audio_stage (u : User) (cs : list Card) (st : Flow) : Flow :=
  walk u ((λ nt, FieldSelector nt "audioField")
            <$> rev (missing_keys note_type_id
                       (Config.get_note_type_specific_config_object
                          (cfg st) "audioField") cs))
    (ensure_languages u cs) st.

(** Has the answer to [d] been stored? *)
Definition stored (d : Request) (c : Config.Config) : Prop :=
  match d with
  | FieldSelector note_type field_type =>
      is_Some (Config.get_note_type_specific_config_object c field_type note_type)
  | LanguageSelector deck_id =>
      is_Some (Config.get_deck_specific_config_object c "language" deck_id)
  end.

(** [start_downloads] is the one place that calls [self.th.start()]
    (line 272): the thread of the dialog after a resolution that left the
    events of [flow]. *)
Definition thread_after (flow : Flow) (cs : list Card) (p : Thread.Process)
  : Running :=
  let r := {| machine := {| th := __init__ cs;
                            ps := Thread.set_config (cfg flow) p |};
              pc := NotStarted; skip_existing := false |} in
  if bool_decide (StartDownloads ∈ events flow) then start r else r.

(** The events of a walk that ends in [start_downloads], when [n] dialogs
    were shown before it. *)
Fixpoint walk_events (u : User) (n : nat) (gaps : list Request) : list UIEvent :=
  match gaps with
  | [] => [StartDownloads]
  | d :: gaps' =>
      Shown d ::
      match selects u n d with
      | Some _ => walk_events u (S n) gaps'
      | None => [ShowInfo (decline_message d)]
      end
  end.

(** Is [d] a request for the field [field_type] of some note type? *)
Definition asks_for (field_type : string) (d : Request) : bool :=
  match d with
  | FieldSelector _ ft => String.eqb ft field_type
  | LanguageSelector _ => false
  end.

(** The note types of the cards that lack the setting [field_type]. *)
Definition templates_lacking (field_type : string) (c : Config.Config)
    (unique_cards : list Card) : gset Z :=
  list_to_set
    (note_type_id <$>
       filter (λ card, Config.get_note_type_specific_config_object
                         c field_type (note_type_id card) = None)
              unique_cards).

(** A dialog that has just been opened: nothing shown yet. *)
Definition opened (c : Config.Config) : Flow := {| cfg := c; events := [] |}.

End BulkAdd.

(** ** Concrete runs *)

Module Scenario.

Import Thread BulkAdd.

Definition card0 : Card := mkCard 0 100 1 10 0.
Definition card1 : Card := mkCard 1 101 1 10 1.
Definition card2 : Card := mkCard 2 102 1 10 2.
Definition card3 : Card := mkCard 3 103 1 10 3.
(** A card of deck 2, the Japanese deck. *)
Definition card_ja : Card := mkCard 4 104 2 10 4.

(** Note type 10 is searched by [Front] and receives the audio in [Audio];
    deck 1 is an English deck, deck 2 a Japanese one. *)
Definition sample_config (skip : bool) : Config.Config :=
  {| Config.skipExistingBulkAdd := skip;
     Config.appendAudio := false;
     Config.note_type_specific :=
       <[("searchField", 10) := "Front"]> (<[("audioField", 10) := "Audio"]> ∅);
     Config.deck_specific :=
       <[("language", 1) := "en"]> (<[("language", 2) := "ja"]> ∅) |}.

(** The note of [card0] has no [Audio] field, the note of [card3] already
    holds a sound, the others have an empty [Audio] field. *)
Definition sample_notes (n : Z) : Note :=
  if Z.eqb n 100 then [("Front", "neko")]
  else if Z.eqb n 103 then [("Front", "tori"); ("Audio", "[sound:tori.mp3]")]
  else [("Front", "inu"); ("Audio", "")].

(** Forvo knows four pronunciations of every word; JapanesePod101 answers
    every request with its placeholder. *)
Definition sample_world : World :=
  {| temp_dir := "temp";
     jisho_reading := λ _, inr "kana";
     japanesePod101 := λ _ _, inr no_content_md5;
     media_add_file := λ _, inr "pod.mp3";
     note_flush := λ _ _, inr tt;
     Forvo_init := λ _ _, inr tt;
     get_pronunciations := λ _ _,
       inr [Forvo.mkPronunciation "a" 3 ""; Forvo.mkPronunciation "b" 7 "";
            Forvo.mkPronunciation "c" 7 ""; Forvo.mkPronunciation "d" 1 ""];
     download_pronunciation := λ p, inr (Forvo.user p +:+ ".mp3");
     error_log_write := λ _ _, inr tt |}.

(** The same services with a log file that cannot be written. *)
Definition full_disk_world : World :=
  {| temp_dir := temp_dir sample_world;
     jisho_reading := jisho_reading sample_world;
     japanesePod101 := japanesePod101 sample_world;
     media_add_file := media_add_file sample_world;
     note_flush := note_flush sample_world;
     Forvo_init := Forvo_init sample_world;
     get_pronunciations := get_pronunciations sample_world;
     download_pronunciation := download_pronunciation sample_world;
     error_log_write := λ _ _, inl (OtherException "OSError") |}.

Definition sample_process (skip : bool) : Process :=
  {| done_cards := []; config := sample_config skip; notes := sample_notes;
     error_log := []; cleanups := 0 |}.

(** Five cards of three note types.  The search field of each note type is
    set, no audio field is, and the deck has its language. *)
Definition five_cards : list Card :=
  [mkCard 0 100 1 10 0; mkCard 1 101 1 11 1; mkCard 2 102 1 10 2;
   mkCard 3 103 1 12 3; mkCard 4 104 1 11 4].

Definition config_without_audio : Config.Config :=
  {| Config.skipExistingBulkAdd := false;
     Config.appendAudio := false;
     Config.note_type_specific :=
       <[("searchField", 10) := "Front"]>
         (<[("searchField", 11) := "Front"]>
            (<[("searchField", 12) := "Front"]> ∅));
     Config.deck_specific := <[("language", 1) := "en"]> ∅ |}.

(** A user who selects [Audio] in every dialog, and one who closes the
    second dialog without a selection. *)
Definition eager_user : User :=
  {| selects := λ _ _, Some "Audio"; accepts_disclaimer := true |}.

Definition reluctant_user : User :=
  {| selects := λ k _, if Nat.eqb k 1 then None else Some "Audio";
     accepts_disclaimer := true |}.

End Scenario.

(** ** The browser's context menu ([__init__.py]) *)

Module Browser.

(** [browser.mw.col.getCard(id)]: a new object for the card [id] of the
    collection.  [rows] gives the note, the deck and the note type of a
    card; [object] is the object that the call creates. *)
Definition getCard (rows : Z → Z * Z * Z) (object : Z) (id : Z) : Card :=
  {| card_id := id; nid := (rows id).1.1; did := (rows id).1.2;
     note_type_id := (rows id).2; object_id := object |}.

(** Lines 181 and 213, [[browser.mw.col.getCard(card) for card in
    selected]]: one new object per selected card, [next] being the first
    of them. *)
Fixpoint load (rows : Z → Z * Z * Z) (next : Z) (selected : list Z)
  : list Card :=
  match selected with
  | [] => []
  | id :: rest => getCard rows next id :: load rows (next + 1) rest
  end.

(** Lines 182-188 and 214-220: the loop that keeps one card per note.
    [unique_cards] and [addressed_unique_cards] are the two lists the loop
    appends to. *)
Fixpoint unique_loop (cards unique_cards : list Card)
    (addressed_unique_cards : list Z) : list Card :=
  match cards with
  | [] => unique_cards
  | card :: rest =>
      if bool_decide (nid card ∈ addressed_unique_cards)
      then unique_loop rest unique_cards addressed_unique_cards
      else unique_loop rest (unique_cards ++ [card])
             (addressed_unique_cards ++ [nid card])
  end.

(** Lines 180-191: the cards that [BulkAdd] is opened with, for the selected
    cards as [getCard] loaded them. *)
Definition on_browser_ctx_menu_click (cards : list Card) : list Card :=
  unique_loop cards [] [].

(** Lines 210-226: the two numbers in the caption of the menu entry. *)
Definition add_browser_context_menu_entry (cards : list Card) : nat * nat :=
  (length cards, length (unique_loop cards [] [])).

(** The cards of [cards] whose note is neither in [seen] nor the note of
    an earlier card of [cards]. *)
Fixpoint first_of_note (seen : list Z) (cards : list Card) : list Card :=
  match cards with
  | [] => []
  | card :: rest =>
      if bool_decide (nid card ∈ seen) then first_of_note seen rest
      else card :: first_of_note (seen ++ [nid card]) rest
  end.

End Browser.

(** ** The same card selected twice *)

Module BrowserScenario.

Import Thread BulkAdd.

(** The cards of [Scenario]: card [id] belongs to note [100 + id], deck 1
    and note type 10. *)
Definition sample_rows (id : Z) : Z * Z * Z := (100 + id, 1, 10).

(** The context menu is used on card 1, and later on the cards 1 and 2:
    each time the cards are loaded again. *)
Definition first_batch : list Card :=
  Browser.on_browser_ctx_menu_click (Browser.load sample_rows 0 [1]).

Definition second_batch : list Card :=
  Browser.on_browser_ctx_menu_click (Browser.load sample_rows 1 [1; 2]).

(** The first batch runs to its end. *)
Definition first_run : Running :=
  steps Scenario.sample_world 5
    (started first_batch (Scenario.sample_process false)).

(** The second batch is cancelled before its first card. *)
Definition second_run : Running :=
  exec Scenario.sample_world [Work; CancelClick; Work]
    (started second_batch (ps (machine first_run))).

End BrowserScenario.

(** ** The digest of a file ([md5], lines 22-27) *)

Module Md5.

(** [iter(lambda: f.read(4096), b"")]: the chunks read from a file with the
    content [content], up to the first empty read. *)
Equations? chunks (content : list Byte.byte) : list (list Byte.byte)
  by wf (length content) lt :=
  chunks [] := [];
  chunks (b :: content) :=
    take 4096 (b :: content) :: chunks (drop 4096 (b :: content)).
Proof. rewrite length_drop. simpl. lia. Qed.

Section Hash.

(** [hashlib.md5()], [hash_md5.update(chunk)] and [hash_md5.hexdigest()]. *)
Variable state : Type.
Variable new : state.
Variable update : state → list Byte.byte → state.
Variable hexdigest : state → string.

Definition md5 (content : list Byte.byte) : string :=
  hexdigest (foldl update new (chunks content)).

End Hash.

End Md5.

(** ** The Forvo button of the editor ([__init__.py]) *)

Module EditorButton.

(** What [on_editor_btn_click] reads from the editor: [editor.card], the
    deck chosen in the add window ([deckChooser.selectedId()]), the current
    note type ([models.current()["id"]]), [editor.note] and
    [editor.currentField]. *)
Record Editor : Type := mkEditor {
  card : option Card;
  deckChooser_selectedId : option Z;
  models_current_id : Z;
  note : option Note;
  currentField : option nat
}.

(** What the click leads to, in order.  [Proceed] is the call of the local
    function [proceed] with its language, together with the variables of
    the enclosing call that it uses. *)
Inductive Event : Type :=
| FieldSelectorShown (note_type_id : Z) (field_type : string)
| LanguageSelectorShown (deck_id : Z)
| ShowInfo (msg : string)
| Proceed (query language audio_field : string) (choose_automatically : bool)
| Uncaught (e : Exception).

#[global] Instance Event_eq_dec : EqDecision Event.
Proof. solve_decision. Defined.

(** [field is None or field.value not in editor.note.keys()]: the right
    operand is evaluated only for a configured field, and fails on
    [editor.note] being [None]. *)
Definition unusable (field : option string) (n : option Note)
  : Exception + bool :=
  match field with
  | None => inr true
  | Some v =>
      match n with
      | None => inl AttributeError
      | Some n => inr (negb (note_has n v))
      end
  end.

(** A truth test of [choose_automatically], which is [None], [True] or
    [False]. *)
Definition truthy (choose_automatically : option bool) : bool :=
  match choose_automatically with
  | Some b => b
  | None => false
  end.

(** Lines 81-90: the query, or the message when there is nothing to search
    for.  [editor.note.fields] are the contents in order. *)
Definition pick_query (n : Note) (search_field : string)
    (current : option nat) : Exception + option string :=
  if note_has n search_field
     && negb (Nat.eqb (String.length (note_get n search_field)) 0)
  then inr (Some (note_get n search_field))
  else
    match current with
    | None => inr None
    | Some i =>
        match n.*2 !! i with
        | None => inl IndexError
        | Some content =>
            if negb (Nat.eqb (String.length content) 0)
            then inr (Some content)
            else inr None
        end
    end.

(** Lines 62-63: the deck and the note type the click is about. *)
Definition deck_id_of (editor : Editor) : option Z :=
  match card editor with
  | Some c => Some (did c)
  | None => deckChooser_selectedId editor
  end.

Definition note_type_id_of (editor : Editor) : Z :=
  match card editor with
  | Some c => note_type_id c
  | None => models_current_id editor
  end.

(** Lines 40-52 and 55-177.  [answers] are the selections made in the
    dialogs that open one after the other ([None]: closed without a
    selection); when they run out the last dialog is left open.  [shift]
    tells whether the shift key is down. *)
Fixpoint on_editor_btn_click (answers : list (option string)) (shift : bool)
    (config : Config.Config) (editor : Editor)
    (choose_automatically : option bool) : Config.Config * list Event :=
  let choose_automatically :=
    match choose_automatically with
    | None => if shift then Some true else None
    | Some b => Some b
    end in
  let deck_id := deck_id_of editor in
  let note_type_id := note_type_id_of editor in
  (* select_field and _handle_field_select *)
  let select_field (field_type : string) :=
    match answers with
    | [] => (config, [FieldSelectorShown note_type_id field_type])
    | Some selected_field :: rest =>
        let '(config', evs) :=
          on_editor_btn_click rest shift
            (Config.set_note_type_specific_config_object
               config field_type selected_field note_type_id)
            editor (Some false) in
        (config', FieldSelectorShown note_type_id field_type :: evs)
    | None :: _ =>
        (config, [FieldSelectorShown note_type_id field_type;
                  ShowInfo "Cancelled download because fields weren't selected."])
    end in
  let search_field :=
    Config.get_note_type_specific_config_object config "searchField" note_type_id in
  match unusable search_field (note editor) with
  | inl e => (config, [Uncaught e])
  | inr true => select_field "searchField"
  | inr false =>
  let audio_field :=
    Config.get_note_type_specific_config_object config "audioField" note_type_id in
  match unusable audio_field (note editor) with
  | inl e => (config, [Uncaught e])
  | inr true => select_field "audioField"
  | inr false =>
  match search_field, audio_field with
  | Some search_field, Some audio_field =>
  let please := ShowInfo ("Please enter a search term in the field '"
                          +:+ search_field +:+ "'.") in
  match note editor with
  | None => (config, [please])
  | Some n =>
  match pick_query n search_field (currentField editor) with
  | inl e => (config, [Uncaught e])
  | inr None => (config, [please])
  | inr (Some query) =>
  match deck_id with
  | None => (config, [])
  | Some deck_id =>
      match Config.get_deck_specific_config_object config "language" deck_id with
      | Some language =>
          (config, [Proceed query language audio_field
                      (truthy choose_automatically)])
      | None =>
          match answers with
          | [] => (config, [LanguageSelectorShown deck_id])
          | Some selected_lang :: _ =>
              (Config.set_deck_specific_config_object
                 config "language" selected_lang deck_id,
               [LanguageSelectorShown deck_id;
                Proceed query selected_lang audio_field
                  (truthy choose_automatically)])
          | None :: _ =>
              (config, [LanguageSelectorShown deck_id;
                        ShowInfo "Cancelled download because no language was selected."])
          end
      end
  end end end
  | _, _ => (config, [Uncaught AttributeError])
  end end end.

(** The message of lines 78 and 89. *)
Definition please_enter (search_field : string) : string :=
  "Please enter a search term in the field '" +:+ search_field +:+ "'.".

(** What must hold for the download to be reached. *)
Definition ready (editor : Editor) (config' : Config.Config)
    (q l a : string) : Prop :=
  ∃ n sf deck,
    note editor = Some n
    ∧ deck_id_of editor = Some deck
    ∧ Config.get_note_type_specific_config_object
        config' "searchField" (note_type_id_of editor) = Some sf
    ∧ note_has n sf = true
    ∧ Config.get_note_type_specific_config_object
        config' "audioField" (note_type_id_of editor) = Some a
    ∧ note_has n a = true
    ∧ Config.get_deck_specific_config_object config' "language" deck = Some l
    ∧ q ≠ ""
    ∧ (q = note_get n sf
       ∨ note_get n sf = ""
         ∧ ∃ i, currentField editor = Some i ∧ n.*2 !! i = Some q).

End EditorButton.

(** ** What holds at every moment of a run *)

Module RunInvariant.

Import Thread.

(** The thread has passed the first [i] cards of [cs]. *)
Definition at_index (cs : list Card) (p : PC) (i : nat) : Prop :=
  match p with
  | NotStarted => False
  | Entry => i = 0%nat
  | Top j => j = i ∧ (i ≤ length cs)%nat
  | StatusCheck j | Wait j | Body j => j = i ∧ (i < length cs)%nat
  | Returned => (i ≤ length cs)%nat
  | Raised _ => False
  end.

(** The state of a thread that was created for the cards [cs] and started
    in the process [p0]: [l] are the cards it has finished, [i] the number
    of cards it has passed. *)
Definition accounted (cs : list Card) (p0 : Process) (r : Running)
    (i : nat) (l : list Card) : Prop :=
  cards (th (machine r)) = cs
  ∧ at_index cs (pc r) i
  ∧ done_cards (ps (machine r)) = done_cards p0 ++ l
  ∧ cnt (th (machine r)) = Z.of_nat (length l)
  ∧ change_value (th (machine r)) = Z.of_nat <$> seq 1 (length l)
  ∧ card <$> failed (th (machine r)) `sublist_of` l
  ∧ l `sublist_of` take i cs
  ∧ 0 ≤ skipped_cards (th (machine r))
  ∧ Z.of_nat (length l) + skipped_cards (th (machine r)) = Z.of_nat i
  ∧ cleanups (ps (machine r))
    = if decide (pc r = Returned) then S (cleanups p0) else cleanups p0.

(** The thread is at a line of [run] that exists for the cards [cs]. *)
Definition in_range (cs : list Card) (p : PC) : Prop :=
  match p with
  | StatusCheck i | Wait i | Body i => (i < length cs)%nat
  | _ => True
  end.

(** [Forvo.cleanup] was called by the thread when it has returned, and not
    otherwise. *)
Definition cleaned (cs : list Card) (p0 : Process) (r : Running) : Prop :=
  cards (th (machine r)) = cs
  ∧ in_range cs (pc r)
  ∧ cleanups (ps (machine r))
    = if decide (pc r = Returned) then S (cleanups p0) else cleanups p0.

End RunInvariant.

(** ** What a pass through the loop body may change in the collection *)

Module NoteFrame.

Import Thread.

(** The note [n'] has the fields of [n], and the content of every field
    other than [a] is the same. *)
Definition note_frame (a : option string) (n n' : Note) : Prop :=
  n'.*1 = n.*1 ∧ ∀ f, a ≠ Some f → note_get n' f = note_get n f.

(** From [s] to [s'] the configuration is the same, the notes of the other
    cards are the same, and the note of [c] changed in the field [a] at
    most. *)
Definition notes_frame (c : Card) (a : option string) (s s' : Machine) : Prop :=
  config (ps s') = config (ps s)
  ∧ (∀ k, k ≠ nid c → notes (ps s') k = notes (ps s) k)
  ∧ note_frame a (notes (ps s) (nid c)) (notes (ps s') (nid c)).

(** The statement [m] stays within that frame. *)
Definition within (c : Card) (a : option string) (A : Type) (m : M A) : Prop :=
  ∀ s, notes_frame c a s (m s).2.

(** The field [a] of the note of [c] exists and is not empty. *)
Definition audio_set (c : Card) (a : string) (s : Machine) : Prop :=
  note_has (notes (ps s) (nid c)) a = true
  ∧ (0 < String.length (note_get (notes (ps s) (nid c)) a))%nat.

End NoteFrame.

(** ** The three kinds of dialog of the resolution *)

Module Stage.

Import BulkAdd.

Definition asks_language (d : Request) : bool :=
  match d with
  | LanguageSelector _ => true
  | FieldSelector _ _ => false
  end.

(** The requests [ds] are requests for search fields, then requests for
    audio fields, then requests for languages. *)
Definition in_stages (ds : list Request) : Prop :=
  ∃ searches audios languages,
    ds = searches ++ audios ++ languages
    ∧ Forall (λ d, asks_for "searchField" d = true) searches
    ∧ Forall (λ d, asks_for "audioField" d = true) audios
    ∧ Forall (λ d, asks_language d = true) languages.

End Stage.

(** ** A concrete editor *)

Module EditorScenario.

(** The add window with a new note of type 10 for deck 1; the note type
    has its audio field set and no search field. *)
Definition sample_editor : EditorButton.Editor :=
  {| EditorButton.card := None;
     EditorButton.deckChooser_selectedId := Some 1;
     EditorButton.models_current_id := 10;
     EditorButton.note := Some [("Front", "neko"); ("Audio", "")];
     EditorButton.currentField := Some 0%nat |}.

Definition config_without_search : Config.Config :=
  {| Config.skipExistingBulkAdd := false;
     Config.appendAudio := false;
     Config.note_type_specific := <[("audioField", 10) := "Audio"]> ∅;
     Config.deck_specific := <[("language", 1) := "en"]> ∅ |}.

End EditorScenario.

(** * Properties *)

(** ** The vote ranking *)

Module ForvoFacts.

Import Forvo.

Lemma insert_by_votes_elem p q l :
  q ∈ insert_by_votes p l ↔ q = p ∨ q ∈ l.
Proof.
  induction l as [|r l IH]; simpl.
  - set_solver.
  - destruct (votes p <=? votes r); rewrite !elem_of_cons, ?IH; tauto.
Qed.

Lemma insert_by_votes_sorted p l :
  StronglySorted by_votes l → StronglySorted by_votes (insert_by_votes p l).
Proof.
  induction 1 as [|r l Hs IH Hall]; simpl.
  - repeat constructor.
  - destruct (Z.leb_spec (votes p) (votes r)) as [Hle|Hgt].
    + constructor; [by constructor|].
      constructor; [exact Hle|].
      eapply Forall_impl; [exact Hall|].
      unfold by_votes; intros; lia.
    + constructor; [exact IH|].
      apply Forall_forall. intros q Hq.
      apply insert_by_votes_elem in Hq as [->|Hq].
      * unfold by_votes; lia.
      * by eapply Forall_forall in Hall.
Qed.

Lemma sort_by_votes_sorted l : StronglySorted by_votes (sort_by_votes l).
Proof.
  induction l; simpl; [constructor|by apply insert_by_votes_sorted].
Qed.

Lemma sort_by_votes_elem q l : q ∈ sort_by_votes l ↔ q ∈ l.
Proof.
  induction l as [|p l IH]; simpl; [done|].
  rewrite insert_by_votes_elem, elem_of_cons, IH. done.
Qed.

Lemma last_insert_by_votes p l :
  StronglySorted by_votes l →
  last (insert_by_votes p l) =
    match last l with
    | None => Some p
    | Some q => if votes p <=? votes q then Some q else Some p
    end.
Proof.
  induction 1 as [|r l Hs IH Hall]; [done|].
  cbn [insert_by_votes].
  destruct (Z.leb_spec (votes p) (votes r)) as [Hle|Hgt].
  - rewrite (last_cons p).
    destruct (last (r :: l)) as [q|] eqn:Hq; [|done].
    assert (Hin : q ∈ r :: l) by (by apply last_Some_elem_of).
    assert (votes p ≤ votes q) as Hpq.
    { apply elem_of_cons in Hin as [->|Hin]; [done|].
      eapply Forall_forall in Hall; [|exact Hin]. unfold by_votes in Hall. lia. }
    by apply Z.leb_le in Hpq as ->.
  - rewrite (last_cons r), IH, (last_cons r).
    destruct (last l) as [q|]; [by destruct (votes p <=? votes q)|].
    destruct (Z.leb_spec (votes p) (votes r)); [lia|done].
Qed.

Lemma last_sort_by_votes l : last (sort_by_votes l) = last_max l.
Proof.
  induction l as [|p l IH]; simpl; [done|].
  rewrite last_insert_by_votes by apply sort_by_votes_sorted.
  by rewrite IH.
Qed.

Lemma last_max_None l : last_max l = None → l = [].
Proof.
  destruct l as [|a l]; [done|]. simpl.
  destruct (last_max l) as [r|]; [destruct (votes a <=? votes r)|]; done.
Qed.

Lemma last_max_maximum l p :
  last_max l = Some p → p ∈ l ∧ ∀ q, q ∈ l → votes q ≤ votes p.
Proof.
  revert p. induction l as [|a l IH]; intros p; simpl; [done|].
  destruct (last_max l) as [r|] eqn:Hr.
  - destruct (IH r eq_refl) as [Hin Hmax].
    destruct (Z.leb_spec (votes a) (votes r)); intros [= <-].
    + split; [by apply elem_of_cons; right|].
      intros q [->|Hq]%elem_of_cons; [lia|by apply Hmax].
    + split; [by apply elem_of_cons; left|].
      intros q [->|Hq]%elem_of_cons; [lia|].
      apply Hmax in Hq. lia.
  - intros [= <-]. apply last_max_None in Hr as ->.
    split; [by apply elem_of_cons; left|].
    intros q [->|Hq]%elem_of_cons; [lia|by apply elem_of_nil in Hq].
Qed.

(** The selected candidate is one of the candidates and no candidate has
    more votes. *)
Lemma select_top_maximum l p :
  select_top l = inr p → p ∈ l ∧ ∀ q, q ∈ l → votes q ≤ votes p.
Proof.
  unfold select_top, top_of. rewrite last_sort_by_votes.
  destruct (last_max l) as [p'|] eqn:Hlast; [|done].
  intros [= <-]. by apply last_max_maximum.
Qed.

(** Selection fails on the empty list only. *)
Lemma select_top_total l : l ≠ [] → ∃ p, select_top l = inr p.
Proof.
  intros Hne. unfold select_top, top_of. rewrite last_sort_by_votes.
  destruct l as [|p l]; [done|]. simpl.
  destruct (last_max l) as [q|]; [destruct (votes p <=? votes q)|]; eauto.
Qed.

(** Among candidates with the same number of votes the one that the
    provider listed last is selected. *)
Lemma select_top_last_maximum l1 p l2 :
  (∀ q, q ∈ l1 → votes q ≤ votes p) →
  (∀ q, q ∈ l2 → votes q < votes p) →
  select_top (l1 ++ p :: l2) = inr p.
Proof.
  intros H1 H2. unfold select_top, top_of. rewrite last_sort_by_votes.
  assert (Hp : last_max (p :: l2) = Some p).
  { simpl. destruct (last_max l2) as [q|] eqn:Hq; [|done].
    apply last_max_maximum in Hq as [Hin _]. apply H2 in Hin.
    destruct (Z.leb_spec (votes p) (votes q)); [lia|done]. }
  assert (Hall : last_max (l1 ++ p :: l2) = Some p); [|by rewrite Hall].
  induction l1 as [|a l1 IH]; [exact Hp|].
  simpl. rewrite IH.
  - assert (votes a ≤ votes p) as Hle by (apply H1, elem_of_cons; by left).
    by apply Z.leb_le in Hle as ->.
  - intros q Hq. apply H1, elem_of_cons. by right.
Qed.

(** C6.  For candidates whose votes are 3, 7, 7 and 1, in the order of the
    provider, the selection of lines 381-383 returns the candidate listed
    third: it has 7 votes, the maximum, and it is the last of the two
    candidates with 7 votes.  Running the selection again on the list that
    the in-place sort left behind returns the same candidate. *)
Theorem select_top_3_7_7_1 (u0 u1 u2 u3 a0 a1 a2 a3 : string) :
  let results := [mkPronunciation u0 3 a0; mkPronunciation u1 7 a1;
                  mkPronunciation u2 7 a2; mkPronunciation u3 1 a3] in
  select_top results = inr (mkPronunciation u2 7 a2)
  ∧ sort_by_votes results =
      [mkPronunciation u3 1 a3; mkPronunciation u0 3 a0;
       mkPronunciation u1 7 a1; mkPronunciation u2 7 a2]
  ∧ select_top (sort_by_votes results) = inr (mkPronunciation u2 7 a2)
  ∧ ∀ q, q ∈ results → votes q ≤ votes (mkPronunciation u2 7 a2).
Proof.
  simpl. repeat split.
  intros q Hq. repeat (apply elem_of_cons in Hq as [->|Hq]); simpl; try lia.
  by apply elem_of_nil in Hq.
Qed.

End ForvoFacts.

(** ** The worker loop *)

Module ThreadFacts.

Import Thread.

Lemma same_control_refl s : same_control s s.
Proof. by repeat split. Qed.

Lemma same_control_trans s1 s2 s3 :
  same_control s1 s2 → same_control s2 s3 → same_control s1 s3.
Proof.
  unfold same_control. intros H1 H2.
  destruct_and!. repeat split; congruence.
Qed.

Lemma quiet_ret {A} (a : A) : quiet (ret a).
Proof. intros s. apply same_control_refl. Qed.

Lemma quiet_raise {A} e : quiet (@raise A e).
Proof. intros s. apply same_control_refl. Qed.

Lemma quiet_call {A} (r : Exception + A) : quiet (call r).
Proof. intros s. apply same_control_refl. Qed.

Lemma quiet_gets {A} (f : Machine → A) : quiet (gets f).
Proof. intros s. apply same_control_refl. Qed.

Lemma quiet_value {A} (o : option A) : quiet (value o).
Proof. destruct o; [apply quiet_ret|apply quiet_raise]. Qed.

Lemma quiet_say l : quiet (say l).
Proof. intros s. by repeat split. Qed.

Lemma quiet_set_note n v : quiet (modify (with_ps (set_note n v))).
Proof. intros s. by repeat split. Qed.

Lemma quiet_bind {A B} (m : M A) (k : A → M B) :
  quiet m → (∀ a, quiet (k a)) → quiet (bind m k).
Proof.
  intros Hm Hk s. unfold bind. specialize (Hm s).
  destruct (m s) as [[e|a] s']; [exact Hm|].
  eapply same_control_trans; [exact Hm|apply Hk].
Qed.

Lemma quiet_try_except {A} (m : M A) (h : Exception → M A) :
  quiet m → (∀ e, quiet (h e)) → quiet (try_except m h).
Proof.
  intros Hm Hh s. unfold try_except. specialize (Hm s).
  destruct (m s) as [[e|a] s']; [|exact Hm].
  eapply same_control_trans; [exact Hm|apply Hh].
Qed.

Create HintDb quiet.
#[local] Hint Resolve quiet_ret quiet_raise quiet_call quiet_gets quiet_value
  quiet_say quiet_set_note : quiet.

Ltac quiet_step :=
  match goal with
  | |- quiet (bind _ _) => apply quiet_bind; [|intros ?]
  | |- quiet (try_except _ _) => apply quiet_try_except; [|intros ?]
  | |- quiet (if ?b then _ else _) => destruct b
  | |- quiet (match ?x with (_, _) => _ end) => destruct x
  | |- quiet _ => solve [auto with quiet]
  end.

Lemma quiet_write_sound c a n : quiet (write_sound c a n).
Proof. unfold write_sound. repeat quiet_step. Qed.

Lemma quiet_flush w c : quiet (flush w c).
Proof. unfold flush. repeat quiet_step. Qed.

#[local] Hint Resolve quiet_write_sound quiet_flush : quiet.

Lemma quiet_japanesePod w c q l a : quiet (japanesePod w c q l a).
Proof. unfold japanesePod. repeat quiet_step. Qed.

Lemma quiet_forvo w c q l a : quiet (forvo w c q l a).
Proof. unfold forvo. repeat quiet_step. Qed.

#[local] Hint Resolve quiet_japanesePod quiet_forvo : quiet.

Lemma quiet_acquire w c q l a : quiet (acquire w c q l a).
Proof. unfold acquire. repeat quiet_step. Qed.

Lemma quiet_resolve c : quiet (resolve c).
Proof. unfold resolve. repeat quiet_step. Qed.

#[local] Hint Resolve quiet_acquire quiet_resolve : quiet.

Lemma try_body_effect w skip c s r s' :
  try_body w skip c s = (r, s') →
  match r with
  | inr Continue =>
      same_control
        (with_th (λ t, set_skipped_cards (skipped_cards t + 1) t) s) s'
  | _ => same_control s s'
  end.
Proof.
  unfold try_body, bind, gets, call, modify, ret.
  pose proof (quiet_resolve c s) as Hr.
  destruct (resolve c s) as [[e|[[q l] a]] s0]; simpl in Hr.
  { by intros [= <- <-]. }
  destruct (skip && _).
  - intros [= <- <-]. unfold same_control in *. simpl.
    destruct_and!. by repeat split; try congruence.
  - destruct (Forvo_init w q l) as [e|[]]; [by intros [= <- <-]|].
    pose proof (quiet_acquire w c q l a s0) as Ha.
    destruct (acquire w c q l a s0) as [[e|[]] s1]; simpl in Ha;
      intros [= <- <-]; eapply same_control_trans; eauto.
Qed.

(** The handler of line 396, by the answer of the log file. *)
Lemma handler_effect w c e s :
  handler w c e s
  = let s1 := with_th (emit_log (LogError (first_field (notes (ps s) (nid c))) e))
                (with_th (λ t, set_failed (failed t ++ [mkFailedDownload c e]) t) s) in
    match error_log_write w c e with
    | inr _ => (inr tt, with_ps (write_error_log e) s1)
    | inl e' => (inl e', s1)
    end.
Proof.
  unfold handler, bind, modify, gets, say, call. simpl.
  by destruct (error_log_write w c e) as [?|[]].
Qed.

(** The pass through the loop body, by the way the [try] body is left. *)
Lemma loop_body_cases w skip c s :
  loop_body w skip c s
  = match try_body w skip c s with
    | (inl e, s1) =>
        match handler w c e s1 with
        | (inr _, s2) => (inr tt, tail c s2)
        | (inl e', s2) => (inl e', s2)
        end
    | (inr Continue, s1) => (inr tt, s1)
    | (inr FellThrough, s1) => (inr tt, tail c s1)
    end.
Proof.
  unfold loop_body, bind, try_except, modify, ret.
  destruct (try_body w skip c s) as [[e|[]] s1]; [|done..].
  unfold bind. by destruct (handler w c e s1) as [[e'|[]] s2].
Qed.

(** The only exception that leaves the loop body is one raised by the write
    to the log file, for a card that failed. *)
Lemma loop_body_raises w skip c s e' :
  (loop_body w skip c s).1 = inl e' →
  ∃ e, outcome w skip c s = Failed e ∧ error_log_write w c e = inl e'.
Proof.
  rewrite loop_body_cases. unfold outcome.
  destruct (try_body w skip c s) as [[e|[]] s1]; [|done..].
  rewrite handler_effect. simpl.
  destruct (error_log_write w c e) as [e1|[]] eqn:Hw; [|done].
  intros [= <-]. eauto.
Qed.

Lemma loop_body_writable w skip c s :
  log_file_writable w → (loop_body w skip c s).1 = inr tt.
Proof.
  intros Hw. destruct (loop_body w skip c s).1 as [e'|[]] eqn:Hl; [|done].
  apply loop_body_raises in Hl as (e & _ & He). by rewrite Hw in He.
Qed.

(** What a pass leaves alone in every case, and what it may add to the list
    of done cards. *)
Lemma iteration_control w skip c s :
  let s' := iteration w skip c s in
  cards (th s') = cards (th s)
  ∧ _status (th s') = _status (th s)
  ∧ is_cancelled (th s') = is_cancelled (th s)
  ∧ config (ps s') = config (ps s)
  ∧ cleanups (ps s') = cleanups (ps s)
  ∧ ∃ l, done_cards (ps s') = done_cards (ps s) ++ l ∧ (l = [] ∨ l = [c]).
Proof.
  unfold iteration. rewrite loop_body_cases.
  destruct (try_body w skip c s) as [r s1] eqn:Hb.
  apply try_body_effect in Hb.
  destruct r as [e|[]]; simpl in *.
  - rewrite handler_effect. simpl.
    destruct (error_log_write w c e) as [e1|[]]; simpl;
      unfold same_control in Hb; simpl in Hb; destruct_and!;
      (repeat split; try congruence);
      [exists []; rewrite app_nil_r|exists [c]]; split; auto; congruence.
  - unfold same_control in Hb; simpl in Hb; destruct_and!.
    repeat split; try congruence.
    exists [c]. split; [congruence|auto].
  - unfold same_control in Hb; simpl in Hb; destruct_and!.
    repeat split; try congruence.
    exists []. rewrite app_nil_r. split; [congruence|auto].
Qed.

(** What one pass through lines 317-407 does to the counters and lists, by
    outcome of the card, when no exception leaves it. *)
Lemma iteration_effect w skip c s :
  (loop_body w skip c s).1 = inr tt →
  let s' := iteration w skip c s in
  cards (th s') = cards (th s)
  ∧ _status (th s') = _status (th s)
  ∧ is_cancelled (th s') = is_cancelled (th s)
  ∧ config (ps s') = config (ps s)
  ∧ cleanups (ps s') = cleanups (ps s)
  ∧ match outcome w skip c s with
    | Succeeded =>
        cnt (th s') = cnt (th s) + 1
        ∧ change_value (th s') = change_value (th s) ++ [cnt (th s) + 1]
        ∧ done_cards (ps s') = done_cards (ps s) ++ [c]
        ∧ skipped_cards (th s') = skipped_cards (th s)
        ∧ failed (th s') = failed (th s)
        ∧ error_log (ps s') = error_log (ps s)
    | Failed e =>
        cnt (th s') = cnt (th s) + 1
        ∧ change_value (th s') = change_value (th s) ++ [cnt (th s) + 1]
        ∧ done_cards (ps s') = done_cards (ps s) ++ [c]
        ∧ skipped_cards (th s') = skipped_cards (th s)
        ∧ failed (th s') = failed (th s) ++ [mkFailedDownload c e]
        ∧ error_log (ps s') = error_log (ps s) ++ [e]
    | Skipped =>
        cnt (th s') = cnt (th s)
        ∧ change_value (th s') = change_value (th s)
        ∧ done_cards (ps s') = done_cards (ps s)
        ∧ skipped_cards (th s') = skipped_cards (th s) + 1
        ∧ failed (th s') = failed (th s)
        ∧ error_log (ps s') = error_log (ps s)
    end.
Proof.
  unfold iteration, outcome. rewrite loop_body_cases.
  destruct (try_body w skip c s) as [r s1] eqn:Hb.
  apply try_body_effect in Hb.
  destruct r as [e|[]]; simpl in *.
  - rewrite handler_effect. simpl.
    destruct (error_log_write w c e) as [e1|[]]; simpl; [done|]. intros _.
    unfold same_control in Hb; simpl in Hb; destruct_and!;
      repeat split; congruence.
  - intros _. unfold same_control in Hb; simpl in Hb; destruct_and!;
      repeat split; congruence.
  - intros _. unfold same_control in Hb; simpl in Hb; destruct_and!;
      repeat split; congruence.
Qed.

(** The failure of a card is in [failed] whatever the log file answers. *)
Lemma iteration_failed w skip c s :
  failed (th (iteration w skip c s))
  = match outcome w skip c s with
    | Failed e => failed (th s) ++ [mkFailedDownload c e]
    | _ => failed (th s)
    end.
Proof.
  unfold iteration, outcome. rewrite loop_body_cases.
  destruct (try_body w skip c s) as [r s1] eqn:Hb.
  apply try_body_effect in Hb.
  destruct r as [e|[]]; simpl in *.
  - rewrite handler_effect. simpl.
    destruct (error_log_write w c e) as [e1|[]]; simpl;
      unfold same_control in Hb; simpl in Hb; destruct_and!; congruence.
  - unfold same_control in Hb; simpl in Hb; destruct_and!; congruence.
  - unfold same_control in Hb; simpl in Hb; destruct_and!; congruence.
Qed.

(** A pass that the write to the log file leaves by an exception: the
    failure is in [failed], and the lines after the [try] statement were
    not reached. *)
Lemma iteration_raised w skip c s e' :
  (loop_body w skip c s).1 = inl e' →
  let s' := iteration w skip c s in
  ∃ e, outcome w skip c s = Failed e
       ∧ error_log_write w c e = inl e'
       ∧ failed (th s') = failed (th s) ++ [mkFailedDownload c e]
       ∧ cnt (th s') = cnt (th s)
       ∧ change_value (th s') = change_value (th s)
       ∧ done_cards (ps s') = done_cards (ps s)
       ∧ skipped_cards (th s') = skipped_cards (th s)
       ∧ error_log (ps s') = error_log (ps s).
Proof.
  unfold iteration, outcome. rewrite loop_body_cases.
  destruct (try_body w skip c s) as [r s1] eqn:Hb.
  apply try_body_effect in Hb.
  destruct r as [e|[]]; simpl in *; [|done..].
  rewrite handler_effect. simpl.
  destruct (error_log_write w c e) as [e1|[]] eqn:Hw; simpl; [|done].
  intros [= <-]. exists e.
  unfold same_control in Hb; simpl in Hb; destruct_and!;
    repeat split; congruence.
Qed.

(** *** Steps of the machine *)

Lemma step_body w r i c :
  pc r = Body i → cards (th (machine r)) !! i = Some c →
  (loop_body w (skip_existing r) c (machine r)).1 = inr tt →
  step w r = at_pc (Top (S i)) (on_machine (iteration w (skip_existing r) c) r).
Proof. intros Hpc Hc Hl. unfold step. by rewrite Hpc, Hc, Hl. Qed.

Lemma step_body_raised w r i c e :
  pc r = Body i → cards (th (machine r)) !! i = Some c →
  (loop_body w (skip_existing r) c (machine r)).1 = inl e →
  step w r = at_pc (Raised e) (on_machine (iteration w (skip_existing r) c) r).
Proof. intros Hpc Hc Hl. unfold step. by rewrite Hpc, Hc, Hl. Qed.

(** Once the flag is set, the check of line 312 ends the run: the card of
    that iteration is not processed. *)
Lemma cancelled_at_top w r i :
  pc r = Top i → is_cancelled (th (machine r)) = true →
  step w r = at_pc Returned (on_machine (with_ps cleanup) r).
Proof.
  intros Hpc Hc. unfold step. rewrite Hpc, Hc.
  by destruct (cards (th (machine r)) !! i).
Qed.

(** From the top of iteration [i], with no click and a log file that
    takes every write, the loop passes every remaining card and returns:
    each card takes three steps and adds one to [cnt] or to
    [skipped_cards]. *)
Lemma run_from_top w n : ∀ r i,
  log_file_writable w →
  pc r = Top i →
  is_cancelled (th (machine r)) = false →
  _status (th (machine r)) = true →
  (i + n = length (cards (th (machine r))))%nat →
  let r' := steps w (3 * n + 1) r in
  pc r' = Returned
  ∧ cnt (th (machine r')) + skipped_cards (th (machine r'))
    = cnt (th (machine r)) + skipped_cards (th (machine r)) + Z.of_nat n
  ∧ cleanups (ps (machine r')) = S (cleanups (ps (machine r)))
  ∧ cards (th (machine r')) = cards (th (machine r)).
Proof.
  induction n as [|n IH]; intros r i Hw Hpc Hcan Hst Hlen.
  - simpl. unfold step. rewrite Hpc.
    rewrite lookup_ge_None_2 by lia. simpl. repeat split; lia.
  - destruct (lookup_lt_is_Some_2 (cards (th (machine r))) i) as [c Hc]; [lia|].
    replace (3 * S n + 1)%nat with (S (S (S (3 * n + 1)))) by lia.
    cbn [steps].
    assert (H1 : step w r = at_pc (StatusCheck i) r).
    { unfold step. by rewrite Hpc, Hc, Hcan. }
    rewrite H1.
    assert (H2 : step w (at_pc (StatusCheck i) r) = at_pc (Body i) r).
    { unfold step. simpl. by rewrite Hst. }
    rewrite H2.
    pose proof (loop_body_writable w (skip_existing r) c (machine r) Hw) as Hl.
    rewrite (step_body w (at_pc (Body i) r) i c) by done.
    pose proof (iteration_effect w (skip_existing r) c (machine r) Hl) as He.
    simpl in He. destruct He as (Hcs & Hs & Hcn & _ & Hcl & Hout).
    match goal with |- context [steps w _ ?r1] => specialize (IH r1 (S i) Hw) end.
    simpl in IH. rewrite Hcs, Hs, Hcn in IH.
    destruct IH as (Hp & Hsum & Hclean & Hcards); [done..|lia|].
    simpl. rewrite Hp, Hsum, Hclean, Hcards, Hcl.
    repeat split; [|done..].
    destruct (outcome w (skip_existing r) c (machine r));
      destruct_and!; lia.
Qed.

(** A run that nobody pauses or cancels returns after passing every card,
    when the log file takes every write. *)
Lemma unattended_run_completes w cs p :
  log_file_writable w →
  let r := steps w (3 * length cs + 2) (BulkAdd.started cs p) in
  pc r = Returned
  ∧ cnt (th (machine r)) + skipped_cards (th (machine r)) = Z.of_nat (length cs)
  ∧ cleanups (ps (machine r)) = S (cleanups p).
Proof.
  intros Hw.
  replace (3 * length cs + 2)%nat with (S (3 * length cs + 1)) by lia.
  cbn [steps].
  match goal with |- context [steps w _ ?r1] =>
    pose proof (run_from_top w (length cs) r1 0 Hw) as H end.
  simpl in H. destruct H as (Hp & Hsum & Hcl & _); [done..|].
  simpl. rewrite Hp, Hsum, Hcl. repeat split; lia.
Qed.

(** *** Clicks *)

Lemma act_done_cards w a r :
  ∃ l, done_cards (ps (machine (BulkAdd.act w a r)))
       = done_cards (ps (machine r)) ++ l.
Proof.
  destruct a; simpl.
  - unfold step. destruct (pc r) eqn:Hpc; try (by exists []; rewrite app_nil_r).
    + destruct (cards (th (machine r)) !! i);
        [destruct (is_cancelled (th (machine r)))|];
        by exists []; rewrite app_nil_r.
    + destruct (negb _); by exists []; rewrite app_nil_r.
    + destruct (cards (th (machine r)) !! i) as [c|] eqn:Hc;
        [|by exists []; rewrite app_nil_r].
      pose proof (iteration_control w (skip_existing r) c (machine r)) as He.
      simpl in He. destruct He as (_ & _ & _ & _ & _ & l & Hd & _).
      exists l. by destruct (loop_body w (skip_existing r) c (machine r)).1.
  - by exists []; rewrite app_nil_r.
  - unfold BulkAdd.slot_pause_button, toggle_status. simpl.
    destruct (negb _); [unfold wakeAll; simpl; destruct (pc r)|];
      by exists []; rewrite app_nil_r.
Qed.

Lemma act_cards w a r :
  cards (th (machine (BulkAdd.act w a r))) = cards (th (machine r)).
Proof.
  destruct a; simpl; [|done|].
  - unfold step. destruct (pc r); try done.
    + destruct (cards (th (machine r)) !! i);
        [destruct (is_cancelled (th (machine r)))|]; done.
    + by destruct (negb _).
    + destruct (cards (th (machine r)) !! i) as [c|]; [|done].
      pose proof (iteration_control w (skip_existing r) c (machine r)) as He.
      simpl in He. destruct He as (Hcs & _).
      by destruct (loop_body w (skip_existing r) c (machine r)).1.
  - unfold BulkAdd.slot_pause_button, toggle_status. simpl.
    destruct (negb _); [|done]. unfold wakeAll. simpl. by destruct (pc r).
Qed.

Lemma exec_cards w sched : ∀ r,
  cards (th (machine (BulkAdd.exec w sched r))) = cards (th (machine r)).
Proof.
  unfold BulkAdd.exec.
  induction sched as [|a sched IH]; intros r; simpl; [done|].
  rewrite IH. apply act_cards.
Qed.

(** Whatever the schedule, the class-level list only grows. *)
Lemma exec_done_cards w sched : ∀ r,
  done_cards (ps (machine r))
    `prefix_of` done_cards (ps (machine (BulkAdd.exec w sched r))).
Proof.
  unfold BulkAdd.exec.
  induction sched as [|a sched IH]; intros r; simpl; [done|].
  etrans; [|apply IH].
  destruct (act_done_cards w a r) as [l ->]. by apply prefix_app_r.
Qed.

(** A thread inside [cond.wait] takes no step, and a click on Cancel does
    not wake it. *)
Lemma blocked_after_cancel w r i n :
  pc r = Wait i →
  steps w n (BulkAdd.handle_cancel_click r) = BulkAdd.handle_cancel_click r.
Proof.
  intros Hpc. induction n as [|n IH]; [done|].
  cbn [steps].
  assert (step w (BulkAdd.handle_cancel_click r) = BulkAdd.handle_cancel_click r)
    as -> by (unfold step; simpl; by rewrite Hpc).
  exact IH.
Qed.

End ThreadFacts.

(** ** The batch: isolation of failures, progress, cancellation *)

Module BatchFacts.

Import Thread BulkAdd ThreadFacts Scenario.

Lemma exec_app w s1 s2 r : exec w (s1 ++ s2) r = exec w s2 (exec w s1 r).
Proof. unfold exec. apply foldl_app. Qed.

Lemma exec_repeat_work w n : ∀ r, exec w (repeat Work n) r = steps w n r.
Proof. induction n as [|n IH]; intros r; [done|]. simpl. apply IH. Qed.

(** The inner handler of line 379 takes every exception of the
    JapanesePod101 path. *)
Lemma acquire_after_failure w c q l a s e s1 :
  japanesePod w c q l a s = (inl e, s1) →
  acquire w c q l a s = forvo w c q l a s1.
Proof. intros H. unfold acquire, try_except. by rewrite H. Qed.

(** A payload with the digest of the placeholder makes the JapanesePod101
    path fail. *)
Lemma placeholder_checksum_fails w c q a s kana :
  jisho_reading w q = inr kana →
  japanesePod101 w q kana = inr no_content_md5 →
  japanesePod w c q "ja" a s
  = (inl NoResultsException, with_th (emit_log LogTryingJapanesePod101) s).
Proof.
  intros Hj Hp. unfold japanesePod. simpl.
  unfold bind, say, modify, call, try_except, raise. simpl.
  by rewrite Hj, Hp.
Qed.

(** C4.  For a card of a Japanese deck that reaches the providers: when the
    JapanesePod101 path raises, whatever the exception, the Forvo path runs
    next for the same card, from the state the failed attempt left, and the
    outcome of the card is the outcome of the Forvo path: no failure is
    recorded when Forvo succeeds, and when Forvo raises, the recorded reason
    is Forvo's exception.  A payload whose md5 digest is the placeholder's
    is one such failure.  The card is appended to [done_cards] in both
    cases, unless the write to the log file that follows a failure raises
    in its turn. *)
Theorem fallback_failure_falls_through (w : World) :
  (∀ skip c s q a s0 e s1,
     resolve c s = (inr (q, "ja", a), s0) →
     skip && bool_decide
       (0 < String.length (note_get (notes (ps s0) (nid c)) a))%nat = false →
     Forvo_init w q "ja" = inr tt →
     japanesePod w c q "ja" a s0 = (inl e, s1) →
     let s' := iteration w skip c s in
     acquire w c q "ja" a s0 = forvo w c q "ja" a s1
     ∧ ((loop_body w skip c s).1 = inr tt →
        done_cards (ps s') = done_cards (ps s) ++ [c])
     ∧ match (forvo w c q "ja" a s1).1 with
       | inr _ => outcome w skip c s = Succeeded
                  ∧ failed (th s') = failed (th s)
       | inl e' => outcome w skip c s = Failed e'
                   ∧ failed (th s') = failed (th s) ++ [mkFailedDownload c e']
       end)
  ∧ (∀ c q a s kana,
       jisho_reading w q = inr kana →
       japanesePod101 w q kana = inr no_content_md5 →
       ∃ s1, japanesePod w c q "ja" a s = (inl NoResultsException, s1)).
Proof.
  split.
  - intros skip c s q a s0 e s1 Hres Hskip Hinit Hpod s'.
    pose proof (acquire_after_failure w c q "ja" a s0 e s1 Hpod) as Hacq.
    assert (Hbody : try_body w skip c s
              = (match (forvo w c q "ja" a s1).1 with
                 | inl e' => inl e'
                 | inr _ => inr FellThrough
                 end, (forvo w c q "ja" a s1).2)).
    { unfold try_body, bind at 1. rewrite Hres.
      unfold bind at 1, gets at 1. rewrite Hskip.
      unfold bind at 1, call at 1. rewrite Hinit.
      unfold bind at 1. rewrite Hacq.
      by destruct (forvo w c q "ja" a s1) as [[e'|[]] s2]. }
    pose proof (iteration_failed w skip c s) as Hf. fold s' in Hf.
    split; [exact Hacq|]. split.
    { intros Hl. pose proof (iteration_effect w skip c s Hl) as He.
      destruct He as (_ & _ & _ & _ & _ & Hout). fold s' in Hout.
      unfold outcome in Hout. rewrite Hbody in Hout. simpl in Hout.
      destruct (forvo w c q "ja" a s1) as [[e'|[]] s2]; simpl in *;
        by destruct_and!. }
    unfold outcome in *. rewrite Hbody in *. simpl in *.
    by destruct (forvo w c q "ja" a s1) as [[e'|[]] s2].
  - intros c q a s kana Hj Hp. eexists.
    by apply placeholder_checksum_fails with (kana := kana).
Qed.


(** When the write of line 401 raises, that exception is outside every
    [try]: [run] is left at once.  The failure of the card is in [failed],
    the card is not appended to [done_cards], the remaining cards are not
    processed and [Forvo.cleanup] is not called, however many steps
    follow. *)
Lemma log_write_failure_leaves_run
    (w : World) (r : Running) (i : nat) (c : Card) (e e' : Exception)
    (s1 : Machine) (n : nat) :
  pc r = Body i →
  cards (th (machine r)) !! i = Some c →
  try_body w (skip_existing r) c (machine r) = (inl e, s1) →
  error_log_write w c e = inl e' →
  let r' := steps w (S n) r in
  pc r' = Raised e'
  ∧ failed (th (machine r')) = failed (th (machine r)) ++ [mkFailedDownload c e]
  ∧ done_cards (ps (machine r')) = done_cards (ps (machine r))
  ∧ cnt (th (machine r')) = cnt (th (machine r))
  ∧ cleanups (ps (machine r')) = cleanups (ps (machine r)).
Proof.
  intros Hpc Hc Hbody Hwrite.
  assert (Hl : (loop_body w (skip_existing r) c (machine r)).1 = inl e').
  { rewrite loop_body_cases, Hbody, handler_effect. simpl. by rewrite Hwrite. }
  cbn [steps]. rewrite (step_body_raised w r i c e') by done.
  match goal with |- context [steps w n ?r1] =>
    assert (Hn : steps w n r1 = r1) end.
  { induction n as [|n IH]; [done|]. cbn [steps]. exact IH. }
  rewrite Hn. simpl.
  destruct (iteration_raised w (skip_existing r) c (machine r) e' Hl)
    as (e0 & Ho & _ & Hf & Hcnt & _ & Hd & _).
  unfold outcome in Ho. rewrite Hbody in Ho. simpl in Ho.
  injection Ho as <-.
  pose proof (iteration_control w (skip_existing r) c (machine r)) as Hctl.
  simpl in Hctl. destruct Hctl as (_ & _ & _ & _ & Hcl & _).
  by repeat split.
Qed.

(** Two cards, the first of which fails, and a log file that cannot be
    written: the run is left during the first card, the second card is
    never processed and [Forvo.cleanup] is not called. *)
Lemma log_write_failure_example :
  let r := steps full_disk_world 20
             (started [card0; card1] (sample_process false)) in
  pc r = Raised (OtherException "OSError")
  ∧ failed (th (machine r))
    = [mkFailedDownload card0 (FieldNotFoundException "Audio")]
  ∧ done_cards (ps (machine r)) = []
  ∧ cnt (th (machine r)) = 0
  ∧ cleanups (ps (machine r)) = 0%nat.
Proof. vm_compute. by repeat split. Qed.

Lemma fallback_failure_falls_through_witness :
  let s := {| th := __init__ [card_ja]; ps := sample_process false |} in
  outcome sample_world false card_ja s = Succeeded
  ∧ failed (th (iteration sample_world false card_ja s)) = [].
Proof.
  intros s.
  pose (s0 := (resolve card_ja s).2).
  pose (s1 := with_th (emit_log LogTryingJapanesePod101) s0).
  destruct (proj1 (fallback_failure_falls_through sample_world)
              false card_ja s "inu" "Audio" s0 NoResultsException s1)
    as (_ & _ & H); [reflexivity..|].
  exact H.
Defined.


(** *** Progress *)

(** A card that is processed, whether it succeeds or fails, advances the
    counter by one and emits the new value, provided the pass is not left
    by an exception of the log write; a card that is skipped leaves the
    counter alone and emits nothing. *)
Lemma progress_per_outcome w skip c s :
  (loop_body w skip c s).1 = inr tt →
  let s' := iteration w skip c s in
  match outcome w skip c s with
  | Skipped =>
      cnt (th s') = cnt (th s) ∧ change_value (th s') = change_value (th s)
  | _ =>
      cnt (th s') = cnt (th s) + 1
      ∧ change_value (th s') = change_value (th s) ++ [cnt (th s) + 1]
  end.
Proof.
  intros Hl. pose proof (iteration_effect w skip c s Hl) as He.
  destruct He as (_ & _ & _ & _ & _ & Hout).
  destruct (outcome w skip c s); destruct_and!; by split.
Qed.

(** C2.  With the skip option on, a run over three cards of which the second
    already has a sound passes all three and returns, but the counter ends
    at 2 and the values emitted are 1 and 2: the skipped card is counted in
    [skipped_cards] and leaves the loop body through [continue], before the
    counter is advanced and the signal emitted. *)
Theorem skipped_card_emits_no_progress :
  let r := steps sample_world 11
             (started [card1; card3; card2] (sample_process true)) in
  pc r = Returned
  ∧ outcome sample_world true card3
      (machine (steps sample_world 7
                  (started [card1; card3; card2] (sample_process true))))
    = Skipped
  ∧ skipped_cards (th (machine r)) = 1
  ∧ cnt (th (machine r)) = 2
  ∧ change_value (th (machine r)) = [1; 2]
  ∧ done_cards (ps (machine r)) = [card1; card2].
Proof. vm_compute. by repeat split. Qed.

(** *** Cancellation *)

(** The flag is never cleared. *)
Lemma act_keeps_cancelled w a r :
  is_cancelled (th (machine r)) = true →
  is_cancelled (th (machine (act w a r))) = true.
Proof.
  intros Hc. destruct a; simpl; [|done|].
  - unfold step. destruct (pc r); try done.
    + destruct (cards (th (machine r)) !! i); [rewrite Hc|]; done.
    + by destruct (negb _).
    + destruct (cards (th (machine r)) !! i) as [c|]; [|done].
      pose proof (iteration_control w (skip_existing r) c (machine r)) as He.
      simpl in He. destruct He as (_ & _ & Hcan & _).
      destruct (loop_body w (skip_existing r) c (machine r)).1; simpl;
        by rewrite Hcan.
  - unfold slot_pause_button, toggle_status. simpl.
    destruct (negb _); [|done]. unfold wakeAll. simpl. by destruct (pc r).
Qed.

(** A click on Cancel while the card of index [i] is being processed: that
    card is finished, and the next step of the thread ends the run (the
    log file taking every write). *)
Lemma cancel_during_record w r i c :
  log_file_writable w →
  pc r = Body i →
  cards (th (machine r)) !! i = Some c →
  let r' := steps w 2 (handle_cancel_click r) in
  pc r' = Returned
  ∧ ∃ l, done_cards (ps (machine r')) = done_cards (ps (machine r)) ++ l
         ∧ (l = [] ∨ l = [c]).
Proof.
  intros Hw Hpc Hc. cbn [steps].
  pose proof (loop_body_writable w (skip_existing r) c
                (machine (handle_cancel_click r)) Hw) as Hl.
  rewrite (step_body w (handle_cancel_click r) i c) by done.
  pose proof (iteration_effect w (skip_existing r) c
                (machine (handle_cancel_click r)) Hl) as He.
  simpl in He. destruct He as (_ & _ & Hcan & _ & _ & Hout).
  rewrite cancelled_at_top with (i := S i) by done. simpl.
  split; [done|].
  match type of Hout with match ?o with _ => _ end => destruct o end;
    destruct Hout as (_ & _ & Hdone & _).
  - exists [c]. split; [exact Hdone|by right].
  - exists []. split; [by rewrite app_nil_r|by left].
  - exists [c]. split; [exact Hdone|by right].
Qed.

Lemma after_cancel_act w a r0 k r :
  after_cancel r0 k r → after_cancel r0 k (act w a r).
Proof.
  intros (Hcan & Hcs & Hpos).
  split; [by apply act_keeps_cancelled|].
  destruct a; simpl.
  - (* a step of the thread *)
    destruct Hpos as [[Hin Hd]|[Hpc (l & Hd & Hl)]].
    + destruct Hin as [Hpc|[Hpc|[Hpc|Hpc]]]; unfold step; rewrite Hpc.
      * assert (Hret : at_pc Returned (on_machine (with_ps cleanup) r)
                       = match cards (th (machine r)) !! k with
                         | Some _ =>
                             if is_cancelled (th (machine r))
                             then at_pc Returned (on_machine (with_ps cleanup) r)
                             else at_pc (StatusCheck k) r
                         | None => at_pc Returned (on_machine (with_ps cleanup) r)
                         end).
        { rewrite Hcan. by destruct (cards (th (machine r)) !! k). }
        rewrite <- Hret. simpl. split; [done|]. right. split; [eauto|].
        exists []. rewrite app_nil_r. split; [done|by left].
      * destruct (negb _); simpl; (split; [done|]); left;
          (split; [|done]); unfold within_iteration; auto.
      * split; [done|]. left. split; [|done].
        unfold within_iteration. auto.
      * destruct (cards (th (machine r)) !! k) as [c|] eqn:Hc; simpl.
        -- pose proof (iteration_control w (skip_existing r) c (machine r)) as He.
           simpl in He. destruct He as (Hcs' & _ & _ & _ & _ & l & Hdone & Hl).
           rewrite Hcs in Hc.
           assert (Hl' : l = [] ∨ ∃ c0, cards (th (machine r0)) !! k = Some c0
                                         ∧ l = [c0])
             by (destruct Hl as [->| ->]; eauto).
           destruct (loop_body w (skip_existing r) c (machine r)).1 as [e|?];
             simpl; (split; [congruence|]); right;
             (split; [eauto|]); exists l; rewrite Hdone, Hd; done.
        -- split; [done|]. right. split; [auto|].
           exists []. rewrite app_nil_r. split; [done|by left].
    + destruct Hpc as [Hpc|[Hpc|[e Hpc]]]; unfold step; rewrite Hpc.
      * assert (Hret : at_pc Returned (on_machine (with_ps cleanup) r)
                       = match cards (th (machine r)) !! S k with
                         | Some _ =>
                             if is_cancelled (th (machine r))
                             then at_pc Returned (on_machine (with_ps cleanup) r)
                             else at_pc (StatusCheck (S k)) r
                         | None => at_pc Returned (on_machine (with_ps cleanup) r)
                         end).
        { rewrite Hcan. by destruct (cards (th (machine r)) !! S k). }
        rewrite <- Hret. simpl. split; [done|]. right. split; [eauto|].
        exists l. done.
      * split; [done|]. right. split; [eauto|]. exists l. done.
      * split; [done|]. right. split; [eauto|]. exists l. done.
  - (* Cancel *)
    split; [done|]. exact Hpos.
  - (* Pause *)
    unfold slot_pause_button, toggle_status. simpl.
    destruct (negb (_status (th (machine r)))); simpl.
    + unfold wakeAll. simpl.
      destruct Hpos as [[Hin Hd]|[Hpc rest]].
      * destruct Hin as [Hpc|[Hpc|[Hpc|Hpc]]]; rewrite Hpc; simpl;
          (split; [done|]); left; (split; [|done]);
          unfold within_iteration; auto.
      * destruct Hpc as [Hpc|[Hpc|[e Hpc]]]; rewrite Hpc; simpl;
          (split; [done|]); right; (split; [|done]); eauto.
    + split; [done|]. exact Hpos.
Qed.

(** Once Cancel is clicked while the thread is in iteration [k], whatever
    the thread and the user do afterwards, at most the card of index [k] is
    finished: no later card is processed. *)
Lemma cancel_bounds_work w sched : ∀ r0 k r,
  after_cancel r0 k r →
  ∃ l, done_cards (ps (machine (exec w sched r)))
       = done_cards (ps (machine r0)) ++ l
       ∧ (l = [] ∨ ∃ c, cards (th (machine r0)) !! k = Some c ∧ l = [c]).
Proof.
  unfold exec.
  induction sched as [|a sched IH]; intros r0 k r Hinv; simpl.
  - destruct Hinv as (_ & _ & [[_ Hd]|[_ H]]); [|exact H].
    exists []. rewrite app_nil_r. split; [done|by left].
  - apply (IH r0 k). by apply after_cancel_act.
Qed.

Lemma after_cancel_click r k :
  within_iteration k (pc r) → after_cancel r k (handle_cancel_click r).
Proof. intros Hin. split; [done|]. split; [done|]. by left. Qed.

(** What [review_downloads] adds to the failures: cancelled downloads only,
    and only for cards that are not in the list of done cards. *)
Lemma review_downloads_adds s :
  ∃ added,
    failed (th (review_downloads s).1) = failed (th s) ++ added
    ∧ ∀ fd, fd ∈ added →
        reason fd = DownloadCancelledException
        ∧ card fd ∈ cards (th s)
        ∧ card fd ∉ done_cards (ps s).
Proof.
  unfold review_downloads.
  destruct (bool_decide _); [exists []; split; [by rewrite app_nil_r|set_solver]|].
  destruct (is_cancelled (th s)); [|exists []; split; [by rewrite app_nil_r|set_solver]].
  exists (cancelled_downloads (cards (th s)) (done_cards (ps s))).
  split; [done|]. intros fd Hfd. unfold cancelled_downloads in Hfd.
  apply list_elem_of_fmap in Hfd as (c & -> & Hc).
  apply list_elem_of_filter in Hc as [Hn Hc]. done.
Qed.

(** When nothing failed before the click, every card that is not done is
    reported as cancelled. *)
Lemma review_downloads_cancelled s :
  failed (th s) = [] → is_cancelled (th s) = true →
  ∀ c, c ∈ cards (th s) → c ∉ done_cards (ps s) →
    mkFailedDownload c DownloadCancelledException
      ∈ failed (th (review_downloads s).1).
Proof.
  intros Hf Hc c Hin Hnd. unfold review_downloads. rewrite Hf, Hc. simpl.
  rewrite Hf. simpl. unfold cancelled_downloads.
  apply list_elem_of_fmap. exists c. split; [done|].
  by apply list_elem_of_filter.
Qed.

(** C1.  Three cards; the first one fails (its note has no audio field) and
    Cancel is clicked while it is processed.  The thread returns at the next
    check of the flag.  [review_downloads] then takes its first branch,
    because a failure exists, and shows the failure of the first card only:
    the second and the third card are neither done, nor skipped, nor among
    the failures. *)
Theorem cancelled_run_with_failure_omits_records :
  let r := exec sample_world [Work; Work; Work; CancelClick; Work; Work]
             (started [card0; card1; card2] (sample_process false)) in
  let s' := (review_downloads (machine r)).1 in
  pc r = Returned
  ∧ is_cancelled (th (machine r)) = true
  ∧ (review_downloads (machine r)).2
    = FailedDownloadsDialog
        [mkFailedDownload card0 (FieldNotFoundException "Audio")] 0
  ∧ card <$> failed (th s') = [card0]
  ∧ done_cards (ps s') = [card0]
  ∧ skipped_cards (th s') = 0.
Proof. vm_compute. by repeat split. Qed.

(** The [continue] of line 337 also keeps a skipped card out of
    [done_cards].  Skip option on; the first card is skipped, Cancel is
    clicked while the second one is processed, and nothing fails: the
    review then reports the skipped card as a cancelled download as well,
    next to the card that was never reached. *)
Lemma cancelled_run_reports_skipped_card :
  let r := exec sample_world
             [Work; Work; Work; Work; Work; Work; CancelClick; Work; Work]
             (started [card3; card1; card2] (sample_process true)) in
  let s' := (review_downloads (machine r)).1 in
  pc r = Returned
  ∧ skipped_cards (th s') = 1
  ∧ done_cards (ps s') = [card1]
  ∧ failed (th s')
    = [mkFailedDownload card3 DownloadCancelledException;
       mkFailedDownload card2 DownloadCancelledException].
Proof. vm_compute. by repeat split. Qed.

(** C9.  Four cards; Cancel is clicked while the card of index 0, which
    fails, is processed.  No further card is processed, but the cards of
    index 2 and 3 are not reported as cancelled: the failure list that the
    review shows holds the failure of card 0 and nothing else. *)
Theorem cancel_after_failure_leaves_rest_unclassified :
  let r := exec sample_world [Work; Work; Work; CancelClick; Work; Work]
             (started [card0; card1; card2; card3] (sample_process false)) in
  let s' := (review_downloads (machine r)).1 in
  pc r = Returned
  ∧ done_cards (ps (machine r)) = [card0]
  ∧ failed (th s') = [mkFailedDownload card0 (FieldNotFoundException "Audio")]
  ∧ (mkFailedDownload card2 DownloadCancelledException ∉ failed (th s'))
  ∧ (mkFailedDownload card3 DownloadCancelledException ∉ failed (th s')).
Proof.
  vm_compute. repeat split; intros H;
    repeat (apply elem_of_cons in H as [H|H]; [discriminate H|]);
    by apply elem_of_nil in H.
Qed.

(** C3.  The thread is paused and waits on the condition; Cancel is then
    clicked.  However many steps the thread is given afterwards, it is still
    inside [cond.wait]: the click sets the two flags and wakes nobody, so
    the flag is not read and [Forvo.cleanup] is not called. *)
Theorem cancel_does_not_wake_paused_thread
    (w : World) (c : Card) (cs : list Card) (p : Process) (n : nat) :
  let r := exec w ([Work; PauseClick; Work; Work; CancelClick] ++ repeat Work n)
             (started (c :: cs) p) in
  pc r = Wait 0
  ∧ is_cancelled (th (machine r)) = true
  ∧ _status (th (machine r)) = true
  ∧ done_cards (ps (machine r)) = done_cards p
  ∧ cleanups (ps (machine r)) = cleanups p.
Proof.
  intros r. subst r. rewrite exec_app, exec_repeat_work.
  match goal with |- context [steps w n ?r0] =>
    assert (Hr : ∃ r1, pc r1 = Wait 0 ∧ r0 = handle_cancel_click r1
                 ∧ done_cards (ps (machine r1)) = done_cards p
                 ∧ cleanups (ps (machine r1)) = cleanups p) end.
  { eexists. split; [|split; [reflexivity|]]; by vm_compute. }
  destruct Hr as (r1 & Hpc & -> & Hd & Hcl).
  rewrite (blocked_after_cancel w r1 0 n Hpc). simpl.
  by rewrite Hpc, Hd, Hcl.
Qed.

(** C10.  [done_cards] belongs to the class and is never reset.  A first
    thread runs, and a second one is created for the cards [cs2] and run
    afterwards in the same process, each under any schedule of steps and
    clicks.  Every card object that is in the list when the first run ends
    is in the list that the review of the second thread consults, and that
    review reports no such object as cancelled.  The list is searched by
    object, though.  When the second run was cancelled and nothing had
    failed, its review reports as cancelled every card of [cs2] that is a
    new object and that the second run did not finish itself, whether or
    not the first run finished the same card of the collection. *)
Theorem done_cards_shared_across_instances
    (w1 w2 : World) (cs1 cs2 : list Card) (p : Process)
    (sched1 sched2 : list Action) :
  let r1 := exec w1 sched1 (started cs1 p) in
  let r2 := exec w2 sched2 (started cs2 (ps (machine r1))) in
  let s2 := (review_downloads (machine r2)).1 in
  ∃ finished,
    done_cards (ps (machine r2)) = done_cards (ps (machine r1)) ++ finished
    ∧ (∃ added,
         failed (th s2) = failed (th (machine r2)) ++ added
         ∧ ∀ fd, fd ∈ added →
             reason fd = DownloadCancelledException
             ∧ card fd ∉ done_cards (ps (machine r1)))
    ∧ (failed (th (machine r2)) = [] →
       is_cancelled (th (machine r2)) = true →
       ∀ c, c ∈ cs2 →
         (∀ d, d ∈ done_cards (ps (machine r1)) → object_id d ≠ object_id c) →
         c ∈ finished
         ∨ mkFailedDownload c DownloadCancelledException ∈ failed (th s2)).
Proof.
  intros r1 r2 s2.
  assert (Hpre : done_cards (ps (machine r1))
                   `prefix_of` done_cards (ps (machine r2))).
  { subst r2. etrans; [|apply exec_done_cards]. done. }
  destruct Hpre as [finished Hfin]. exists finished.
  split; [exact Hfin|]. split.
  - destruct (review_downloads_adds (machine r2)) as (added & Heq & Hadd).
    exists added. split; [done|].
    intros fd Hfd. destruct (Hadd fd Hfd) as (Hr & _ & Hnd).
    split; [done|]. intros Hin. apply Hnd. rewrite Hfin.
    apply elem_of_app. by left.
  - intros Hf Hcan c Hc Hnew.
    destruct (decide (c ∈ finished)) as [Hin|Hout]; [by left|]. right.
    apply review_downloads_cancelled; [done..| |].
    + subst r2. by rewrite exec_cards.
    + rewrite Hfin. intros [Hd|Hd]%elem_of_app; [|done].
      by apply (Hnew c Hd).
Qed.

Lemma done_cards_shared_across_instances_witness :
  mkFailedDownload (mkCard 1 101 1 10 1) DownloadCancelledException
    ∈ failed (th (review_downloads (machine BrowserScenario.second_run)).1).
Proof.
  destruct (done_cards_shared_across_instances sample_world sample_world
              BrowserScenario.first_batch BrowserScenario.second_batch
              (sample_process false)
              (repeat Work 5) [Work; CancelClick; Work])
    as (finished & Hfin & _ & H).
  destruct (H eq_refl eq_refl (mkCard 1 101 1 10 1)) as [Hin|Hin].
  - apply list_elem_of_here.
  - intros d Hd. vm_compute in Hd.
    apply list_elem_of_singleton in Hd as ->. done.
  - assert (finished = []) as ->
      by (vm_compute in Hfin; by destruct finished).
    by apply elem_of_nil in Hin.
  - exact Hin.
Defined.

(** The card 1 of the collection is finished by a first batch and selected
    again for a second one, which is cancelled before its first card: the
    card is in [done_cards], as the object that the first batch loaded, and
    the review of the second batch lists it as a cancelled download. *)
Lemma completed_card_is_classified_cancelled :
  pc BrowserScenario.first_run = Returned
  ∧ done_cards (ps (machine BrowserScenario.first_run)) = [mkCard 1 101 1 10 0]
  ∧ done_cards (ps (machine BrowserScenario.second_run)) = [mkCard 1 101 1 10 0]
  ∧ is_cancelled (th (machine BrowserScenario.second_run)) = true
  ∧ completed 1 (ps (machine BrowserScenario.first_run))
  ∧ classified_cancelled 1 (machine BrowserScenario.second_run)
  ∧ ¬ (∀ id, completed id (ps (machine BrowserScenario.first_run)) →
             ¬ classified_cancelled id (machine BrowserScenario.second_run)).
Proof.
  assert (H1 : completed 1 (ps (machine BrowserScenario.first_run))).
  { exists (mkCard 1 101 1 10 0). split; [|done].
    vm_compute. apply list_elem_of_here. }
  assert (H2 : classified_cancelled 1 (machine BrowserScenario.second_run)).
  { exists (mkFailedDownload (mkCard 1 101 1 10 1) DownloadCancelledException).
    split; [|done]. vm_compute. apply list_elem_of_here. }
  repeat split; try done.
  intros H. by apply (H 1).
Qed.

End BatchFacts.

(** ** The resolution of missing settings *)

Module ResolutionFacts.

Import BulkAdd.

Lemma select_lang_snoc u l d st :
  select_lang u (l ++ [d]) st =
  match selects u (length (asked (events st))) (LanguageSelector d) with
  | Some v =>
      if bool_decide (1 < length (l ++ [d]))%nat
      then select_lang u l
             (configure (store (LanguageSelector d) v)
                (happens (Shown (LanguageSelector d)) st))
      else start_downloads
             (configure (store (LanguageSelector d) v)
                (happens (Shown (LanguageSelector d)) st))
  | None =>
      happens (ShowInfo (decline_message (LanguageSelector d)))
        (happens (Shown (LanguageSelector d)) st)
  end.
Proof.
  destruct l as [|a l]; simpl app; simp select_lang; simpl.
  - done.
  - change (match l ++ [d] with [] => a | _ :: _ => List.last (l ++ [d]) a end)
      with (List.last ((a :: l) ++ [d]) a).
    change (match l ++ [d] with [] => [] | _ :: _ => a :: removelast (l ++ [d]) end)
      with (removelast ((a :: l) ++ [d])).
    rewrite List.last_last, List.removelast_last. done.
Qed.

Lemma select_field_snoc u cs l nt ft st :
  select_field u cs (l ++ [nt]) ft st =
  match selects u (length (asked (events st))) (FieldSelector nt ft) with
  | Some v =>
      let st2 := configure (store (FieldSelector nt ft) v)
                   (happens (Shown (FieldSelector nt ft)) st) in
      if bool_decide (1 < length (l ++ [nt]))%nat
      then select_field u cs l ft st2
      else if decide (ft = "audioField") then ensure_languages u cs st2
      else
        let new_missing := missing_keys note_type_id
          (Config.get_note_type_specific_config_object (cfg st2) "audioField")
          cs in
        if bool_decide (0 < length new_missing)%nat
        then select_field u cs new_missing "audioField" st2
        else ensure_languages u cs st2
  | None =>
      happens (ShowInfo (decline_message (FieldSelector nt ft)))
        (happens (Shown (FieldSelector nt ft)) st)
  end.
Proof.
  assert (Hlast : ∀ x l', x :: l' = l ++ [nt] →
            List.last (x :: l') x = nt ∧ removelast (x :: l') = l).
  { intros x l' ->. by rewrite List.last_last, List.removelast_last. }
  destruct (l ++ [nt]) as [|x l'] eqn:Heq; [by destruct l|].
  destruct (Hlast x l' eq_refl) as [Hl Hr].
  simp select_field. rewrite Hl.
  destruct (selects u (length (asked (events st))) (FieldSelector nt ft)) as [v|];
    simp select_field; [|by rewrite Hl].
  cbv zeta.
  destruct (bool_decide (1 < length (x :: l'))%nat);
    destruct (decide (ft = "audioField")) as [Hft|Hft];
    simp select_field; rewrite ?Hl, ?Hr; try done.
  cbn [cfg configure happens store].
  destruct (bool_decide _); simp select_field; by rewrite ?Hl.
Qed.

Lemma nonempty_length {A} (l : list A) : (0 < length l)%nat ↔ l ≠ [].
Proof. destruct l; simpl; split; (done || lia). Qed.

Lemma snoc_length {A} (l : list A) (x : A) : (1 < length (l ++ [x]))%nat ↔ l ≠ [].
Proof. rewrite length_app. simpl. rewrite <- nonempty_length. lia. Qed.

(** *** The source follows the plan *)

Lemma select_lang_walk u l : ∀ st,
  l ≠ [] →
  select_lang u l st = walk u (LanguageSelector <$> rev l) start_downloads st.
Proof.
  induction l as [|d l IH] using rev_ind; intros st Hne; [done|].
  rewrite select_lang_snoc, rev_unit. simpl.
  destruct (selects u _ _) as [v|]; [|done].
  case_bool_decide as Hl.
  - apply IH. by apply snoc_length in Hl.
  - destruct l as [|a l]; [done|]. exfalso. apply Hl, snoc_length. done.
Qed.

Lemma ensure_languages_walk u cs st :
  ensure_languages u cs st =
  walk u (LanguageSelector <$> rev (missing_keys did
            (Config.get_deck_specific_config_object (cfg st) "language") cs))
    start_downloads st.
Proof.
  unfold ensure_languages. case_bool_decide as Hl.
  - apply select_lang_walk. by apply nonempty_length.
  - destruct (missing_keys _ _ _) as [|a l]; [done|].
    exfalso. apply Hl. simpl. lia.
Qed.

Lemma select_field_audio_walk u cs l : ∀ st,
  l ≠ [] →
  select_field u cs l "audioField" st =
  walk u ((λ nt, FieldSelector nt "audioField") <$> rev l)
    (ensure_languages u cs) st.
Proof.
  induction l as [|nt l IH] using rev_ind; intros st Hne; [done|].
  rewrite select_field_snoc, rev_unit. simpl.
  destruct (selects u _ _) as [v|]; [|done].
  case_bool_decide as Hl.
  - apply IH. by apply snoc_length in Hl.
  - destruct l as [|a l]; [|exfalso; apply Hl, snoc_length; done].
    by destruct (decide ("audioField" = "audioField")).
Qed.

Lemma select_field_search_walk u cs ft l : ∀ st,
  ft ≠ "audioField" →
  l ≠ [] →
  select_field u cs l ft st =
  walk u ((λ nt, FieldSelector nt ft) <$> rev l) (audio_stage u cs) st.
Proof.
  induction l as [|nt l IH] using rev_ind; intros st Hft Hne; [done|].
  rewrite select_field_snoc, rev_unit. simpl.
  destruct (selects u _ _) as [v|]; [|done].
  case_bool_decide as Hl.
  - apply IH; [done|]. by apply snoc_length in Hl.
  - destruct l as [|a l]; [|exfalso; apply Hl, snoc_length; done].
    destruct (decide (ft = "audioField")) as [|_]; [done|]. simpl.
    unfold audio_stage. simpl.
    case_bool_decide as Hm.
    + apply select_field_audio_walk. by apply nonempty_length.
    + destruct (missing_keys _ _ _) as [|b m]; [done|].
      exfalso. apply Hm. simpl. lia.
Qed.

Lemma walk_app u p1 p2 k : ∀ st,
  walk u (p1 ++ p2) k st = walk u p1 (walk u p2 k) st.
Proof.
  induction p1 as [|d p1 IH]; intros st; simpl; [done|].
  destruct (selects u _ _); [apply IH|done].
Qed.

(** A continuation that computes its gaps from the configuration may
    compute them beforehand, if the answers stored on the way do not change
    them. *)
Lemma walk_gaps_beforehand u p1 (f : Config.Config → list Request) k :
  (∀ d v c, d ∈ p1 → f (store d v c) = f c) →
  ∀ st,
    walk u p1 (λ st', walk u (f (cfg st')) k st') st
    = walk u (p1 ++ f (cfg st)) k st.
Proof.
  induction p1 as [|d p1 IH]; intros Hf st; simpl; [done|].
  destruct (selects u _ _) as [v|]; [|done].
  rewrite IH by (intros; apply Hf; by apply elem_of_cons; right).
  simpl. rewrite Hf by (by apply elem_of_cons; left). done.
Qed.

Lemma missing_keys_ext key (get get' : Z → option string) cs :
  (∀ z, get z = get' z) → missing_keys key get cs = missing_keys key get' cs.
Proof.
  intros H. unfold missing_keys. do 3 f_equal.
  apply list_filter_iff. intros c. by rewrite H.
Qed.

Lemma walk_ext u p k k' :
  (∀ st, k st = k' st) → ∀ st, walk u p k st = walk u p k' st.
Proof.
  intros Hk. induction p as [|d p IH]; intros st; simpl; [apply Hk|].
  destruct (selects u _ _); [apply IH|done].
Qed.

Lemma field_gaps_are_fields ft c cs d :
  d ∈ field_gaps ft c cs → ∃ nt, d = FieldSelector nt ft.
Proof. intros (nt & -> & _)%list_elem_of_fmap. eauto. Qed.

Lemma audio_stage_walk u cs st :
  audio_stage u cs st =
  walk u (field_gaps "audioField" (cfg st) cs ++ language_gaps (cfg st) cs)
    start_downloads st.
Proof.
  unfold audio_stage.
  rewrite (walk_ext u _ (ensure_languages u cs)
             (λ st', walk u (language_gaps (cfg st') cs) start_downloads st'))
    by (intros; apply ensure_languages_walk).
  apply (walk_gaps_beforehand u _ (λ c, language_gaps c cs)).
  intros d v c (nt & ->)%field_gaps_are_fields. done.
Qed.

Lemma search_answer_keeps_audio_gaps nt v c cs :
  field_gaps "audioField" (store (FieldSelector nt "searchField") v c) cs
  = field_gaps "audioField" c cs.
Proof.
  do 2 f_equal. apply missing_keys_ext. intros z.
  unfold Config.get_note_type_specific_config_object. simpl.
  by rewrite lookup_insert_ne.
Qed.

(** The source asks what [requests] lists, in that order, stores each answer
    before the next dialog and stops at the first dialog that is closed
    without a selection. *)
Lemma ensure_fields_walk u cs st :
  ensure_fields u cs st = walk u (requests (cfg st) cs) start_downloads st.
Proof.
  unfold ensure_fields, requests, plan.
  destruct (missing_keys note_type_id
              (Config.get_note_type_specific_config_object (cfg st) "searchField")
              cs) as [|a ms] eqn:Hms.
  - destruct (missing_keys note_type_id
                (Config.get_note_type_specific_config_object (cfg st) "audioField")
                cs) as [|b ma] eqn:Hma.
    + repeat case_bool_decide; simpl in *; try lia; try done.
      exfalso; auto.
    + repeat case_bool_decide; simpl in *; try lia;
        try (destruct_and!; done).
      rewrite select_field_audio_walk by done.
      pose proof (audio_stage_walk u cs st) as Ha. unfold audio_stage in Ha.
      rewrite Hma in Ha. exact Ha.
  - repeat case_bool_decide; simpl in *; try lia;
      try (destruct_and!; done).
    rewrite select_field_search_walk by done.
    rewrite (walk_ext u _ (audio_stage u cs)
               (λ st', walk u (field_gaps "audioField" (cfg st') cs
                               ++ language_gaps (cfg st') cs)
                         start_downloads st'))
      by (intros; apply audio_stage_walk).
    rewrite (walk_gaps_beforehand u _
               (λ c, field_gaps "audioField" c cs ++ language_gaps c cs)).
    + done.
    + intros d v c (nt & -> & _)%list_elem_of_fmap.
      by rewrite search_answer_keeps_audio_gaps.
Qed.

(** *** What a walk shows *)

Lemma asked_app l1 l2 : asked (l1 ++ l2) = asked l1 ++ asked l2.
Proof. apply omap_app. Qed.

Lemma walk_start_events u gaps : ∀ st,
  events (walk u gaps start_downloads st)
  = events st ++ walk_events u (length (asked (events st))) gaps.
Proof.
  induction gaps as [|d gaps IH]; intros st; simpl; [done|].
  destruct (selects u _ _) as [v|].
  - rewrite IH. simpl. rewrite asked_app, length_app. simpl.
    rewrite <- app_assoc. simpl. do 3 f_equal. lia.
  - simpl. by rewrite <- app_assoc.
Qed.

Lemma walk_events_asked_prefix u gaps : ∀ n,
  asked (walk_events u n gaps) `prefix_of` gaps.
Proof.
  induction gaps as [|d gaps IH]; intros n; simpl; [by exists []|].
  destruct (selects u n d).
  - apply prefix_cons, IH.
  - simpl. apply prefix_cons, prefix_nil.
Qed.

Lemma walk_events_all_answered u gaps : ∀ n,
  (∀ k d, is_Some (selects u k d)) →
  walk_events u n gaps = (Shown <$> gaps) ++ [StartDownloads].
Proof.
  induction gaps as [|d gaps IH]; intros n Hall; simpl; [done|].
  destruct (Hall n d) as [v ->]. by rewrite IH.
Qed.

Lemma asked_shown gaps : asked (Shown <$> gaps) = gaps.
Proof.
  unfold asked. induction gaps as [|d gaps IH]; [done|].
  cbn. f_equal. exact IH.
Qed.

(** A dialog closed without a selection is the last one shown: a message
    follows it and the downloads are not started. *)
Lemma walk_events_declined u gaps : ∀ n j d,
  asked (walk_events u n gaps) !! j = Some d →
  selects u (n + j) d = None →
  (StartDownloads ∉ walk_events u n gaps)
  ∧ last (walk_events u n gaps) = Some (ShowInfo (decline_message d)).
Proof.
  induction gaps as [|d0 gaps IH]; intros n j d Hj Hd; simpl in *.
  { by destruct j. }
  destruct (selects u n d0) as [v|] eqn:Hsel.
  - destruct j as [|j]; simpl in Hj.
    + injection Hj as <-. rewrite Nat.add_0_r in Hd. congruence.
    + destruct (IH (S n) j d Hj) as [Hno Hlast].
      { by replace (S n + j)%nat with (n + S j)%nat by lia. }
      split.
      * intros [H|H]%elem_of_cons; [discriminate H|done].
      * rewrite last_cons, Hlast. done.
  - destruct j as [|j]; simpl in Hj; [|by destruct j].
    injection Hj as <-. split; [|done].
    intros H. repeat (apply elem_of_cons in H as [H|H]; [discriminate H|]).
    by apply elem_of_nil in H.
Qed.

(** *** What a walk stores *)

Lemma stored_store d d' v c : stored d c → stored d (store d' v c).
Proof.
  destruct d as [nt ft|deck], d' as [nt' ft'|deck']; simpl;
    unfold Config.get_note_type_specific_config_object,
      Config.get_deck_specific_config_object; simpl; try done;
    intros H; apply lookup_insert_is_Some;
    match goal with |- ?a = ?b ∨ _ => destruct (decide (a = b)); auto end.
Qed.

Lemma stored_store_same d v c : stored d (store d v c).
Proof.
  destruct d as [nt ft|deck]; simpl;
    unfold Config.get_note_type_specific_config_object,
      Config.get_deck_specific_config_object; simpl;
    by rewrite lookup_insert_eq.
Qed.

Lemma walk_keeps_stored u gaps d : ∀ st,
  stored d (cfg st) → stored d (cfg (walk u gaps start_downloads st)).
Proof.
  induction gaps as [|d0 gaps IH]; intros st H; simpl; [done|].
  destruct (selects u _ _) as [v|]; [|done].
  apply IH. simpl. by apply stored_store.
Qed.

Lemma walk_stores_answers u gaps : ∀ st,
  (∀ k d, is_Some (selects u k d)) →
  ∀ d, d ∈ gaps → stored d (cfg (walk u gaps start_downloads st)).
Proof.
  induction gaps as [|d0 gaps IH]; intros st Hall d Hd; simpl.
  { by apply elem_of_nil in Hd. }
  destruct (Hall (length (asked (events st))) d0) as [v ->].
  apply elem_of_cons in Hd as [->|Hd].
  - apply walk_keeps_stored. simpl. apply stored_store_same.
  - by apply IH.
Qed.

(** *** The requests for one field *)

Lemma asks_for_fields ft ft' (l : list Z) :
  filter (λ d, asks_for ft d = true) ((λ nt, FieldSelector nt ft') <$> l)
  = if String.eqb ft' ft then (λ nt, FieldSelector nt ft') <$> l else [].
Proof.
  induction l as [|nt l IH]; [by destruct (String.eqb ft' ft)|].
  rewrite fmap_cons, filter_cons, IH. cbn [asks_for].
  destruct (String.eqb ft' ft) eqn:E.
  - by rewrite decide_True.
  - by rewrite decide_False.
Qed.

Lemma asks_for_field_gaps ft ft' c cs :
  filter (λ d, asks_for ft d = true) (field_gaps ft' c cs)
  = if String.eqb ft' ft then field_gaps ft' c cs else [].
Proof. apply asks_for_fields. Qed.

Lemma asks_for_languages ft (l : list Z) :
  filter (λ d, asks_for ft d = true) (LanguageSelector <$> l) = [].
Proof.
  induction l as [|deck l IH]; [done|].
  rewrite fmap_cons, filter_cons, IH. cbn [asks_for]. by rewrite decide_False.
Qed.

Lemma asks_for_language_gaps ft c cs :
  filter (λ d, asks_for ft d = true) (language_gaps c cs) = [].
Proof. apply asks_for_languages. Qed.

Lemma missing_keys_elements ft c cs :
  missing_keys note_type_id
    (Config.get_note_type_specific_config_object c ft) cs
  = elements (templates_lacking ft c cs).
Proof. done. Qed.

(** Among the requests, those for a field setting are one per note type
    that lacks it. *)
Lemma requests_for_field ft c cs :
  ft = "searchField" ∨ ft = "audioField" →
  filter (λ d, asks_for ft d = true) (requests c cs)
  = (λ nt, FieldSelector nt ft) <$> rev (elements (templates_lacking ft c cs)).
Proof.
  intros Hft. rewrite <- missing_keys_elements. unfold requests.
  case_bool_decide as He.
  - destruct He as [H1 H2]. destruct Hft as [-> | ->]; by rewrite ?H1, ?H2.
  - unfold plan. rewrite !filter_app, !asks_for_field_gaps, asks_for_language_gaps.
    destruct Hft as [-> | ->]; simpl; by rewrite ?app_nil_r.
Qed.

Lemma field_requests_NoDup ft c cs :
  NoDup ((λ nt, FieldSelector nt ft) <$> rev (elements (templates_lacking ft c cs))).
Proof.
  apply NoDup_fmap_2; [by intros ?? [= ->]|].
  apply NoDup_ListNoDup, List.NoDup_rev, NoDup_ListNoDup, NoDup_elements.
Qed.

Lemma field_requests_length ft c cs :
  length ((λ nt, FieldSelector nt ft) <$> rev (elements (templates_lacking ft c cs)))
  = size (templates_lacking ft c cs).
Proof. by rewrite length_fmap, length_rev. Qed.

Lemma elem_of_field_requests ft (T : gset Z) d :
  d ∈ (λ nt, FieldSelector nt ft) <$> rev (elements T)
  ↔ ∃ nt, nt ∈ T ∧ d = FieldSelector nt ft.
Proof.
  rewrite list_elem_of_fmap. split.
  - intros (nt & -> & Hnt). exists nt. split; [|done].
    apply elem_of_elements, list_elem_of_In, List.in_rev, list_elem_of_In, Hnt.
  - intros (nt & Hnt & ->). exists nt. split; [done|].
    apply list_elem_of_In. rewrite <- List.in_rev.
    by apply list_elem_of_In, elem_of_elements.
Qed.

Lemma elem_of_templates_lacking ft c cs nt :
  nt ∈ templates_lacking ft c cs
  ↔ ∃ card, card ∈ cs ∧ note_type_id card = nt
            ∧ Config.get_note_type_specific_config_object c ft nt = None.
Proof.
  unfold templates_lacking.
  rewrite elem_of_list_to_set, list_elem_of_fmap. split.
  - intros (card & -> & [H Hin]%list_elem_of_filter). eauto.
  - intros (card & Hin & <- & H). exists card. split; [done|].
    by apply list_elem_of_filter.
Qed.

(** C7.  For the search field and for the audio field alike: the requests
    that [ensure_fields] puts to the user for that field are pairwise
    distinct and each is for a note type of the selection that lacks the
    setting, so there are at most as many as such note types, whatever the
    number of cards.  If the user answers every dialog there is exactly one
    request for each such note type; afterwards every card's note type has
    the setting stored and the downloads start. *)
Theorem one_request_per_template
    (u : User) (cs : list Card) (c0 : Config.Config) (ft : string) :
  ft = "searchField" ∨ ft = "audioField" →
  let st' := ensure_fields u cs (opened c0) in
  let reqs := filter (λ d, asks_for ft d = true) (asked (events st')) in
  let templates := templates_lacking ft c0 cs in
  NoDup reqs
  ∧ (∀ d, d ∈ reqs → ∃ nt, nt ∈ templates ∧ d = FieldSelector nt ft)
  ∧ (length reqs ≤ size templates)%nat
  ∧ ((∀ k d, is_Some (selects u k d)) →
     length reqs = size templates
     ∧ (∀ nt, nt ∈ templates → FieldSelector nt ft ∈ reqs)
     ∧ (∀ card, card ∈ cs →
          is_Some (Config.get_note_type_specific_config_object
                     (cfg st') ft (note_type_id card)))
     ∧ StartDownloads ∈ events st').
Proof.
  intros Hft st' reqs templates.
  pose proof (requests_for_field ft c0 cs Hft) as Hreq.
  fold templates in Hreq.
  assert (Hev : events st' = walk_events u 0 (requests c0 cs)).
  { subst st'. by rewrite ensure_fields_walk, walk_start_events. }
  destruct (walk_events_asked_prefix u (requests c0 cs) 0) as [rest Hrest].
  rewrite <- Hev in Hrest.
  assert (Hsplit : (λ nt, FieldSelector nt ft) <$> rev (elements templates)
                   = reqs ++ filter (λ d, asks_for ft d = true) rest).
  { rewrite <- Hreq, Hrest. apply filter_app. }
  pose proof (field_requests_NoDup ft c0 cs) as Hnd.
  pose proof (field_requests_length ft c0 cs) as Hlen.
  fold templates in Hnd, Hlen. rewrite Hsplit in Hnd, Hlen.
  split; [by apply NoDup_app in Hnd as (? & _)|].
  split.
  { intros d Hd. apply (elem_of_field_requests ft templates).
    rewrite Hsplit. apply elem_of_app. by left. }
  split; [rewrite length_app in Hlen; lia|].
  intros Hall.
  assert (Hevs : events st' = (Shown <$> requests c0 cs) ++ [StartDownloads]).
  { rewrite Hev. by apply walk_events_all_answered. }
  assert (Hasked : asked (events st') = requests c0 cs).
  { rewrite Hevs, asked_app, asked_shown. simpl. apply app_nil_r. }
  assert (Hreqs : reqs = (λ nt, FieldSelector nt ft) <$> rev (elements templates)).
  { subst reqs. by rewrite Hasked. }
  split; [rewrite Hreqs; apply field_requests_length|].
  split.
  { intros nt Hnt. rewrite Hreqs. apply elem_of_field_requests. eauto. }
  split.
  - intros card Hcard. subst st'. rewrite ensure_fields_walk.
    destruct (Config.get_note_type_specific_config_object c0 ft (note_type_id card))
      as [v|] eqn:Hget.
    + apply (walk_keeps_stored u _ (FieldSelector (note_type_id card) ft)).
      simpl. by rewrite Hget.
    + apply (walk_stores_answers u _ _ Hall (FieldSelector (note_type_id card) ft)).
      assert (Hin : FieldSelector (note_type_id card) ft
                    ∈ filter (λ d, asks_for ft d = true) (requests c0 cs)).
      { rewrite Hreq. apply elem_of_field_requests.
        exists (note_type_id card). split; [|done].
        apply elem_of_templates_lacking. eauto. }
      by apply list_elem_of_filter in Hin as [_ Hin].
  - rewrite Hevs. apply elem_of_app. right. apply list_elem_of_here.
Qed.

Lemma one_request_per_template_witness :
  length (filter (λ d, asks_for "audioField" d = true)
            (asked (events (ensure_fields Scenario.eager_user
                              Scenario.five_cards
                              (opened Scenario.config_without_audio)))))
  = 3%nat.
Proof.
  destruct (one_request_per_template Scenario.eager_user Scenario.five_cards
              Scenario.config_without_audio "audioField" (or_intror eq_refl))
    as (_ & _ & _ & H).
  destruct H as (H & _); [intros k d; exists "Audio"; reflexivity|].
  rewrite H. vm_compute. reflexivity.
Defined.

(** A thread that was not started takes no step. *)
Lemma not_started_stays w n r :
  Thread.pc r = Thread.NotStarted → Thread.steps w n r = r.
Proof.
  intros Hpc. induction n as [|n IH]; [done|].
  cbn [Thread.steps].
  assert (Thread.step w r = r) as -> by (unfold Thread.step; by rewrite Hpc).
  exact IH.
Qed.

(** C8.  If one of the dialogs that [start_downloads_wrapper] shows is
    closed without a selection, be it for the search field, the audio field
    or the language, then the last thing the user sees is the message that
    the download was cancelled, [start_downloads] is not reached, and the
    thread of the dialog is never started: whatever time passes, it has
    processed no card. *)
Theorem declined_step_cancels_batch
    (u : User) (cs : list Card) (c0 : Config.Config) (k : nat) (d : Request) :
  let st' := start_downloads_wrapper u cs (opened c0) in
  asked (events st') !! k = Some d →
  selects u k d = None →
  (StartDownloads ∉ events st')
  ∧ last (events st') = Some (ShowInfo (decline_message d))
  ∧ ∀ w p n,
      let r := Thread.steps w n (thread_after st' cs p) in
      Thread.pc r = Thread.NotStarted
      ∧ Thread.done_cards (Thread.ps (Thread.machine r)) = Thread.done_cards p
      ∧ Thread.cnt (Thread.th (Thread.machine r)) = 0
      ∧ Thread.failed (Thread.th (Thread.machine r)) = []
      ∧ Thread.change_value (Thread.th (Thread.machine r)) = [].
Proof.
  intros st' Hk Hd.
  assert (Hev : ∃ pre, asked pre = []
                ∧ (StartDownloads ∉ pre)
                ∧ (events st' = pre ++ [Closed]
                   ∨ events st' = pre ++ walk_events u 0 (requests c0 cs))).
  { subst st'. unfold start_downloads_wrapper.
    case_bool_decide.
    - destruct (negb (accepts_disclaimer u)).
      + exists [AskUser]. split; [done|]. split; [|by left].
        intros [H'|H']%elem_of_cons; [discriminate H'|by apply elem_of_nil in H'].
      + exists [AskUser]. split; [done|]. split.
        * intros [H'|H']%elem_of_cons; [discriminate H'|by apply elem_of_nil in H'].
        * right. by rewrite ensure_fields_walk, walk_start_events.
    - exists []. split; [done|]. split; [apply not_elem_of_nil|].
      right. by rewrite ensure_fields_walk, walk_start_events. }
  destruct Hev as (pre & Hpre & Hno & [Hev|Hev]).
  { rewrite Hev, asked_app, Hpre in Hk. by destruct k. }
  rewrite Hev, asked_app, Hpre in Hk. simpl in Hk.
  destruct (walk_events_declined u (requests c0 cs) 0 k d Hk Hd) as [Hns Hlast].
  assert (Hnot : StartDownloads ∉ events st').
  { rewrite Hev. intros [?|?]%elem_of_app; done. }
  split; [exact Hnot|]. split.
  - rewrite Hev. destruct (walk_events u 0 (requests c0 cs)) as [|e l] eqn:E;
      [done|]. rewrite <- Hlast.
    rewrite last_app. by rewrite Hlast.
  - intros w p n. unfold thread_after.
    rewrite bool_decide_eq_false_2 by done.
    by rewrite not_started_stays.
Qed.

Lemma declined_step_cancels_batch_witness :
  last (events (start_downloads_wrapper Scenario.reluctant_user
                  Scenario.five_cards (opened Scenario.config_without_audio)))
  = Some (ShowInfo "Cancelled download because field wasn't selected.").
Proof.
  destruct (declined_step_cancels_batch Scenario.reluctant_user
              Scenario.five_cards Scenario.config_without_audio 1
              (FieldSelector 10 "audioField"))
    as (_ & H & _); [vm_compute; reflexivity|reflexivity|].
  exact H.
Defined.

End ResolutionFacts.

(** * Further properties of the code *)

(** ** Selection of the pronunciation (lines 381-383; lines 108-109 of
    [__init__.py] are the same statements) *)

Module SelectionFacts.

Import Forvo ForvoFacts.

(** X1.  Whatever the candidates, the pronunciation selected by sorting and
    taking the last element is one of them, and none of them has more
    votes. *)
Theorem selected_has_most_votes (results : list Pronunciation) (top : Pronunciation) :
  select_top results = inr top →
  top ∈ results ∧ ∀ q, q ∈ results → votes q ≤ votes top.
Proof.
  unfold select_top, top_of. rewrite last_sort_by_votes.
  destruct (last_max results) as [p|] eqn:Hp; [|done].
  intros [= <-]. by apply last_max_maximum.
Qed.

Lemma selected_has_most_votes_witness :
  votes (mkPronunciation "b" 9 "") ≤ votes (mkPronunciation "c" 12 "").
Proof.
  refine (proj2 (selected_has_most_votes
            [mkPronunciation "a" 5 ""; mkPronunciation "c" 12 "";
             mkPronunciation "b" 9 ""]
            (mkPronunciation "c" 12 "") eq_refl) _ _).
  apply list_elem_of_In. simpl. auto.
Defined.

(** X2.  Ties go to the candidate listed last: a candidate with at least as
    many votes as every candidate before it and more votes than every
    candidate after it is the one selected. *)
Theorem last_of_the_best_is_selected (before after : list Pronunciation)
    (p : Pronunciation) :
  (∀ q, q ∈ before → votes q ≤ votes p) →
  (∀ q, q ∈ after → votes q < votes p) →
  select_top (before ++ p :: after) = inr p.
Proof.
  intros Hb Ha. unfold select_top, top_of. rewrite last_sort_by_votes.
  assert (Hp : last_max (p :: after) = Some p).
  { simpl. destruct (last_max after) as [q|] eqn:Hq; [|done].
    apply last_max_maximum in Hq as [Hin _]. apply Ha in Hin.
    destruct (Z.leb_spec (votes p) (votes q)); [lia|done]. }
  assert (Hall : last_max (before ++ p :: after) = Some p); [|by rewrite Hall].
  induction before as [|a before IH]; [exact Hp|].
  simpl. rewrite IH.
  - assert (votes a ≤ votes p) as Hle by (apply Hb, elem_of_cons; by left).
    by apply Z.leb_le in Hle as ->.
  - intros q Hq. apply Hb, elem_of_cons. by right.
Qed.

Lemma last_of_the_best_is_selected_witness :
  select_top ([mkPronunciation "a" 4 ""; mkPronunciation "b" 4 ""]
              ++ mkPronunciation "c" 4 "" :: [mkPronunciation "d" 2 ""])
  = inr (mkPronunciation "c" 4 "").
Proof.
  apply last_of_the_best_is_selected.
  - intros q Hq. apply list_elem_of_In in Hq. simpl in Hq.
    destruct Hq as [<-|[<-|[]]]; simpl; lia.
  - intros q Hq. apply list_elem_of_In in Hq. simpl in Hq.
    destruct Hq as [<-|[]]; simpl; lia.
Defined.

(** X3.  The selection raises for the empty list of candidates and for no
    other list, and what it raises is [IndexError]. *)
Theorem selection_fails_on_empty_only (results : list Pronunciation) :
  (select_top results = inl IndexError ↔ results = [])
  ∧ ∀ e, select_top results = inl e → e = IndexError.
Proof.
  unfold select_top, top_of. rewrite last_sort_by_votes. split.
  - split.
    + destruct (last_max results) as [p|] eqn:Hp; [done|].
      intros _. by apply last_max_None.
    + by intros ->.
  - intros e. destruct (last_max results); [done|]. by intros [= <-].
Qed.

Lemma sort_by_votes_of_sorted l :
  StronglySorted by_votes l → sort_by_votes l = l.
Proof.
  induction 1 as [|p l Hs IH Hall]; [done|].
  simpl. rewrite IH. destruct l as [|q l]; [done|]. simpl.
  apply Forall_cons in Hall as [Hpq _]. unfold by_votes in Hpq.
  by apply Z.leb_le in Hpq as ->.
Qed.

(** X4.  The sort is in place, so a second selection sees the sorted list:
    sorting it again changes nothing, and the second selection returns what
    the first one returned. *)
Theorem selection_after_sort_is_the_same (results : list Pronunciation) :
  sort_by_votes (sort_by_votes results) = sort_by_votes results
  ∧ select_top (sort_by_votes results) = select_top results.
Proof.
  assert (H : sort_by_votes (sort_by_votes results) = sort_by_votes results)
    by apply sort_by_votes_of_sorted, sort_by_votes_sorted.
  split; [exact H|]. unfold select_top. by rewrite H.
Qed.

End SelectionFacts.

(** ** Invariants of the run *)

Module RunFacts.

Import Thread BulkAdd ThreadFacts RunInvariant.

Lemma accounted_started cs p0 : accounted cs p0 (started cs p0) 0 [].
Proof.
  unfold accounted, started, start. simpl.
  rewrite app_nil_r. repeat split; try done.
Qed.

Lemma accounted_act w a cs p0 r i l :
  log_file_writable w →
  accounted cs p0 r i l →
  ∃ i' l', accounted cs p0 (act w a r) i' l'.
Proof.
  intros Hw (Hcs & Hat & Hd & Hcnt & Hcv & Hf & Hl & Hsk & Hsum & Hcl).
  destruct a; simpl.
  - (* a step of the thread *)
    unfold step. destruct (pc r) eqn:Hpc; simpl in Hat; try done.
    + (* Entry *)
      subst i. exists 0%nat, l. unfold accounted. simpl.
      repeat split; try done. lia.
    + (* Top *)
      destruct Hat as [-> Hle].
      destruct (cards (th (machine r)) !! i) as [c|] eqn:Hc.
      * destruct (is_cancelled (th (machine r))).
        -- exists i, l. unfold accounted. simpl.
           rewrite Hcl. repeat split; try done.
        -- exists i, l. unfold accounted. simpl.
           apply lookup_lt_Some in Hc. rewrite Hcs in Hc.
           repeat split; try done.
      * exists i, l. unfold accounted. simpl.
        rewrite Hcl. repeat split; try done.
    + (* StatusCheck *)
      destruct Hat as [-> Hlt].
      destruct (negb _); exists i, l; unfold accounted; simpl;
        repeat split; try done.
    + (* Wait *)
      destruct Hat as [-> Hlt].
      exists i, l. unfold accounted. rewrite Hpc. simpl.
      repeat split; try done.
    + (* Body *)
      destruct Hat as [-> Hlt].
      destruct (lookup_lt_is_Some_2 cs i Hlt) as [c Hc].
      rewrite Hcs, Hc.
      pose proof (loop_body_writable w (skip_existing r) c (machine r) Hw) as Hlb.
      rewrite Hlb.
      pose proof (iteration_effect w (skip_existing r) c (machine r) Hlb) as He.
      simpl in He. destruct He as (Hcs' & _ & _ & _ & Hcl' & Hout).
      assert (Htake : take (S i) cs = take i cs ++ [c])
        by (by apply take_S_r).
      destruct (outcome w (skip_existing r) c (machine r)).
      * (* succeeded *)
        destruct Hout as (Hc1 & Hc2 & Hc3 & Hc4 & Hc5 & _).
        exists (S i), (l ++ [c]). unfold accounted. simpl.
        rewrite Hcs', Hc1, Hc2, Hc3, Hc4, Hc5, Hcl', Hd, Hcnt, Hcv, Hcl, Htake.
        rewrite length_app, <- app_assoc. simpl.
        replace (length l + 1)%nat with (S (length l)) by lia.
        rewrite seq_S, fmap_app. simpl.
        repeat split; try done; try lia.
        -- do 3 f_equal. lia.
        -- by apply sublist_inserts_r.
        -- by apply sublist_app.
      * (* skipped *)
        destruct Hout as (Hc1 & Hc2 & Hc3 & Hc4 & Hc5 & _).
        exists (S i), l. unfold accounted. simpl.
        rewrite Hcs', Hc1, Hc2, Hc3, Hc4, Hc5, Hcl', Hcl, Htake.
        repeat split; try done; try lia.
        by apply sublist_inserts_r.
      * (* failed *)
        destruct Hout as (Hc1 & Hc2 & Hc3 & Hc4 & Hc5 & _).
        exists (S i), (l ++ [c]). unfold accounted. simpl.
        rewrite Hcs', Hc1, Hc2, Hc3, Hc4, Hc5, Hcl', Hd, Hcnt, Hcv, Hcl, Htake.
        rewrite length_app, <- app_assoc, fmap_app. simpl.
        replace (length l + 1)%nat with (S (length l)) by lia.
        rewrite seq_S, fmap_app. simpl.
        repeat split; try done; try lia.
        -- do 3 f_equal. lia.
        -- by apply sublist_app.
        -- by apply sublist_app.
    + (* Returned *)
      exists i, l. unfold accounted. rewrite Hpc. simpl.
      repeat split; try done.
  - (* Cancel *)
    exists i, l. unfold accounted. simpl. repeat split; try done.
  - (* Pause *)
    exists i, l. unfold slot_pause_button, toggle_status. simpl.
    destruct (negb (_status (th (machine r)))).
    + unfold wakeAll. simpl. unfold accounted.
      destruct (pc r) eqn:Hpc; simpl; rewrite ?Hpc; simpl; simpl in Hat;
        repeat split; try done; by destruct Hat.
    + unfold accounted. simpl. repeat split; try done.
Qed.

Lemma accounted_exec w sched : ∀ cs p0 r i l,
  log_file_writable w →
  accounted cs p0 r i l →
  ∃ i' l', accounted cs p0 (exec w sched r) i' l'.
Proof.
  unfold exec. induction sched as [|a sched IH]; intros cs p0 r i l Hw H; simpl.
  - eauto.
  - destruct (accounted_act w a cs p0 r i l Hw H) as (i' & l' & H').
    by eapply IH.
Qed.

(** X5.  Under every schedule of thread steps and clicks, for a thread
    started on the cards [cs] whose log file takes every write: the cards
    it has appended to [done_cards]
    are a subsequence of [cs] in order, [cnt] is their number, the values
    sent through [change_value] are 1, 2, ..., [cnt], every failure is the
    failure of one of these cards, in the same order, and [cnt] and
    [skipped_cards] together never exceed the number of cards. *)
Theorem progress_counts_the_done_cards
    (w : World) (cs : list Card) (p0 : Process) (sched : list Action) :
  log_file_writable w →
  let r := exec w sched (started cs p0) in
  cards (th (machine r)) = cs
  ∧ ∃ l, done_cards (ps (machine r)) = done_cards p0 ++ l
       ∧ l `sublist_of` cs
       ∧ cnt (th (machine r)) = Z.of_nat (length l)
       ∧ change_value (th (machine r)) = Z.of_nat <$> seq 1 (length l)
       ∧ card <$> failed (th (machine r)) `sublist_of` l
       ∧ 0 ≤ skipped_cards (th (machine r))
       ∧ cnt (th (machine r)) + skipped_cards (th (machine r))
         ≤ Z.of_nat (length cs).
Proof.
  intros Hw r.
  destruct (accounted_exec w sched cs p0 (started cs p0) 0 [] Hw
              (accounted_started cs p0))
    as (i & l & Hcs & Hat & Hd & Hcnt & Hcv & Hf & Hl & Hsk & Hsum & _).
  fold r in Hcs, Hat, Hd, Hcnt, Hcv, Hf, Hsk, Hsum.
  split; [done|]. exists l.
  assert (Hi : (i ≤ length cs)%nat).
  { destruct (pc r); simpl in Hat; try done; try lia. }
  repeat split; try done.
  - etrans; [exact Hl|]. apply sublist_take.
  - rewrite Hcnt. lia.
Qed.

Lemma progress_counts_the_done_cards_witness :
  let r := exec Scenario.sample_world
             [Work; Work; Work; Work; PauseClick; Work; Work; CancelClick; Work]
             (started [Scenario.card0; Scenario.card1; Scenario.card2]
                (Scenario.sample_process false)) in
  ∃ l, done_cards (ps (machine r)) = l
       ∧ cnt (th (machine r)) = Z.of_nat (length l)
       ∧ card <$> failed (th (machine r)) `sublist_of` l.
Proof.
  intros r.
  destruct (progress_counts_the_done_cards Scenario.sample_world
              [Scenario.card0; Scenario.card1; Scenario.card2]
              (Scenario.sample_process false)
              [Work; Work; Work; Work; PauseClick; Work; Work; CancelClick; Work]
              (λ _ _, eq_refl))
    as (_ & l & Hd & _ & Hcnt & _ & Hf & _).
  exists l. split; [exact Hd|]. split; [exact Hcnt|exact Hf].
Defined.

Lemma cleaned_started cs p0 : cleaned cs p0 (started cs p0).
Proof. by repeat split. Qed.

Lemma cleaned_act w a cs p0 r :
  cleaned cs p0 r → cleaned cs p0 (act w a r).
Proof.
  intros (Hcs & Hin & Hcl).
  destruct a; simpl.
  - (* a step of the thread *)
    unfold step. destruct (pc r) eqn:Hpc; simpl in Hin.
    + unfold cleaned. by rewrite Hpc.
    + by repeat split.
    + destruct (cards (th (machine r)) !! i) as [c|] eqn:Hc.
      * destruct (is_cancelled (th (machine r))).
        -- unfold cleaned. simpl. rewrite Hcl. by repeat split.
        -- apply lookup_lt_Some in Hc. rewrite Hcs in Hc. by repeat split.
      * unfold cleaned. simpl. rewrite Hcl. by repeat split.
    + destruct (negb _); by repeat split.
    + unfold cleaned. by rewrite Hpc.
    + destruct (lookup_lt_is_Some_2 cs i Hin) as [c Hc].
      rewrite Hcs, Hc.
      pose proof (iteration_control w (skip_existing r) c (machine r)) as He.
      simpl in He. destruct He as (Hcs' & _ & _ & _ & Hcl' & _).
      destruct (loop_body w (skip_existing r) c (machine r)).1;
        unfold cleaned; simpl; rewrite Hcs', Hcl', Hcl; by repeat split.
    + unfold cleaned. by rewrite Hpc.
    + unfold cleaned. by rewrite Hpc.
  - by repeat split.
  - unfold slot_pause_button, toggle_status. simpl.
    destruct (negb (_status (th (machine r)))).
    + unfold wakeAll. simpl. unfold cleaned.
      destruct (pc r) eqn:Hpc; simpl; rewrite ?Hpc; simpl; simpl in Hin;
        by repeat split.
    + by repeat split.
Qed.

(** X6.  Under every schedule, [Forvo.cleanup] has been called once by the
    thread when [run] has returned, whether the cards ran out or the flag
    was seen, and not at all before. *)
Theorem cleanup_exactly_when_returned
    (w : World) (cs : list Card) (p0 : Process) (sched : list Action) :
  let r := exec w sched (started cs p0) in
  cleanups (ps (machine r))
  = if decide (pc r = Returned) then S (cleanups p0) else cleanups p0.
Proof.
  intros r. subst r.
  assert (H : cleaned cs p0 (exec w sched (started cs p0))).
  { unfold exec. generalize (cleaned_started cs p0).
    generalize (started cs p0).
    induction sched as [|a sched IH]; intros r H; simpl; [done|].
    apply IH. by apply cleaned_act. }
  by destruct H as (_ & _ & H).
Qed.

Lemma returned_stays w n r : pc r = Returned → steps w n r = r.
Proof.
  intros Hpc. induction n as [|n IH]; [done|]. cbn [steps].
  assert (step w r = r) as -> by (unfold step; by rewrite Hpc).
  exact IH.
Qed.


Lemma steps_add w n m r : steps w (n + m) r = steps w m (steps w n r).
Proof. revert r. induction n as [|n IH]; intros r; [done|]. apply IH. Qed.

Lemma raised_stays w n r e : pc r = Raised e → steps w n r = r.
Proof.
  intros Hpc. induction n as [|n IH]; [done|]. cbn [steps].
  assert (step w r = r) as -> by (unfold step; by rewrite Hpc).
  exact IH.
Qed.

(** From the top of iteration [i], with no click, the loop ends within
    three steps per remaining card and one more: it returns after passing
    every card, or the write to the log file raises for one of them. *)
Lemma run_from_top_ends w n : ∀ r i,
  pc r = Top i →
  is_cancelled (th (machine r)) = false →
  _status (th (machine r)) = true →
  (i + n = length (cards (th (machine r))))%nat →
  let r' := steps w (3 * n + 1) r in
  (pc r' = Returned
   ∧ cnt (th (machine r')) + skipped_cards (th (machine r'))
     = cnt (th (machine r)) + skipped_cards (th (machine r)) + Z.of_nat n
   ∧ cleanups (ps (machine r')) = S (cleanups (ps (machine r))))
  ∨ (∃ e, pc r' = Raised e
          ∧ cnt (th (machine r)) + skipped_cards (th (machine r))
            ≤ cnt (th (machine r')) + skipped_cards (th (machine r'))
            < cnt (th (machine r)) + skipped_cards (th (machine r)) + Z.of_nat n
          ∧ cleanups (ps (machine r')) = cleanups (ps (machine r))).
Proof.
  induction n as [|n IH]; intros r i Hpc Hcan Hst Hlen.
  - left. simpl. unfold step. rewrite Hpc.
    rewrite lookup_ge_None_2 by lia. simpl. repeat split; lia.
  - destruct (lookup_lt_is_Some_2 (cards (th (machine r))) i) as [c Hc]; [lia|].
    replace (3 * S n + 1)%nat with (S (S (S (3 * n + 1)))) by lia.
    cbn [steps].
    assert (H1 : step w r = at_pc (StatusCheck i) r).
    { unfold step. by rewrite Hpc, Hc, Hcan. }
    rewrite H1.
    assert (H2 : step w (at_pc (StatusCheck i) r) = at_pc (Body i) r).
    { unfold step. simpl. by rewrite Hst. }
    rewrite H2.
    pose proof (iteration_control w (skip_existing r) c (machine r)) as Hctl.
    simpl in Hctl. destruct Hctl as (Hcs & Hs & Hcn & _ & Hcl & _).
    destruct (loop_body w (skip_existing r) c (machine r)).1 as [e|[]] eqn:Hl.
    + (* the log write raises *)
      right. exists e.
      rewrite (step_body_raised w (at_pc (Body i) r) i c e) by done.
      rewrite (raised_stays w _ _ e) by done. simpl.
      destruct (iteration_raised w (skip_existing r) c (machine r) e Hl)
        as (e0 & _ & _ & _ & Hcnt & _ & _ & Hsk & _).
      rewrite Hcnt, Hsk, Hcl. repeat split; lia.
    + rewrite (step_body w (at_pc (Body i) r) i c) by done.
      pose proof (iteration_effect w (skip_existing r) c (machine r) Hl) as He.
      simpl in He. destruct He as (_ & _ & _ & _ & _ & Hout).
      assert (Hsum : cnt (th (iteration w (skip_existing r) c (machine r)))
                     + skipped_cards (th (iteration w (skip_existing r) c (machine r)))
                     = cnt (th (machine r)) + skipped_cards (th (machine r)) + 1).
      { destruct (outcome w (skip_existing r) c (machine r));
          destruct_and!; lia. }
      match goal with |- context [steps w _ ?r1] => specialize (IH r1 (S i)) end.
      simpl in IH. rewrite Hcs, Hs, Hcn, Hcl, Hsum in IH.
      destruct IH as [(Hp & Hs1 & Hc1)|(e & Hp & Hs1 & Hc1)]; [done..|lia| |].
      * left. simpl. rewrite Hp, Hs1, Hc1. repeat split; lia.
      * right. exists e. simpl. rewrite Hp, Hc1. repeat split; lia.
Qed.

(** X7.  A thread that nobody pauses or cancels ends within three steps
    per card and two more, and further steps change nothing.  When the log
    file takes every write, it has returned, whatever the providers answer:
    every card was counted in [cnt] or in [skipped_cards] and
    [Forvo.cleanup] was called.  In general it has returned in that way or
    was left by the exception of a write to the log file, with fewer cards
    counted and no call of [Forvo.cleanup]. *)
Theorem undisturbed_run_passes_every_card
    (w : World) (cs : list Card) (p0 : Process) (n : nat) :
  let r := steps w (3 * length cs + 2) (started cs p0) in
  steps w n r = r
  ∧ (log_file_writable w →
     pc r = Returned
     ∧ cnt (th (machine r)) + skipped_cards (th (machine r))
       = Z.of_nat (length cs)
     ∧ cleanups (ps (machine r)) = S (cleanups p0))
  ∧ (pc r = Returned
     ∧ cnt (th (machine r)) + skipped_cards (th (machine r))
       = Z.of_nat (length cs)
     ∧ cleanups (ps (machine r)) = S (cleanups p0)
     ∨ ∃ e, pc r = Raised e
            ∧ cnt (th (machine r)) + skipped_cards (th (machine r))
              < Z.of_nat (length cs)
            ∧ cleanups (ps (machine r)) = cleanups p0).
Proof.
  intros r. subst r.
  replace (3 * length cs + 2)%nat with (S (3 * length cs + 1)) by lia.
  cbn [steps].
  pose proof (run_from_top_ends w (length cs) (step w (started cs p0)) 0) as H.
  cbv zeta in H.
  pose proof (run_from_top w (length cs) (step w (started cs p0)) 0) as Hw.
  cbv zeta in Hw.
  remember (steps w (3 * length cs + 1) (step w (started cs p0))) as r1.
  split; [|split].
  - destruct H as [(Hp & _)|(e & Hp & _)]; [done..| |].
    + by apply returned_stays.
    + by apply raised_stays with (e := e).
  - intros Hlog. destruct Hw as (Hp & Hsum & Hcl & _); [done..|].
    split; [exact Hp|]. split; [rewrite Hsum; simpl; lia|exact Hcl].
  - destruct H as [(Hp & Hsum & Hcl)|(e & Hp & Hsum & Hcl)]; [done..| |].
    + left. split; [exact Hp|]. split; [rewrite Hsum; simpl; lia|exact Hcl].
    + right. exists e. split; [exact Hp|].
      split; [simpl in Hsum; lia|exact Hcl].
Qed.

(** X8.  Resume: when the thread waits before the card of index [i] and
    the Pause button is clicked again, the thread is woken, processes that
    card and all the following ones, and returns; each of them is counted
    in [cnt] or in [skipped_cards].  The log file is taken to accept every
    write. *)
Theorem resume_lets_the_run_finish (w : World) (r : Running) (i : nat) :
  log_file_writable w →
  pc r = Wait i →
  _status (th (machine r)) = false →
  is_cancelled (th (machine r)) = false →
  (i < length (cards (th (machine r))))%nat →
  let r' := steps w (3 * (length (cards (th (machine r))) - S i) + 2)
              (slot_pause_button r) in
  pc r' = Returned
  ∧ cnt (th (machine r')) + skipped_cards (th (machine r'))
    = cnt (th (machine r)) + skipped_cards (th (machine r))
      + Z.of_nat (length (cards (th (machine r))) - i).
Proof.
  intros Hw Hpc Hst Hcan Hlt.
  destruct (lookup_lt_is_Some_2 _ _ Hlt) as [c Hc].
  assert (Hr : slot_pause_button r
               = at_pc (Body i) (on_machine (with_th (set_status true)) r)).
  { unfold slot_pause_button, toggle_status. simpl. rewrite Hst. simpl.
    unfold wakeAll. simpl. rewrite Hpc. unfold on_machine, at_pc. simpl.
    unfold with_th, set_status. simpl. by rewrite Hst. }
  rewrite Hr.
  replace (3 * (length (cards (th (machine r))) - S i) + 2)%nat
    with (S (3 * (length (cards (th (machine r))) - S i) + 1)) by lia.
  cbv zeta. cbn [steps].
  pose proof (loop_body_writable w (skip_existing r) c
                (with_th (set_status true) (machine r)) Hw) as Hl.
  rewrite (step_body w _ i c) by done.
  pose proof (iteration_effect w (skip_existing r) c
                (with_th (set_status true) (machine r)) Hl) as He.
  simpl in He. destruct He as (Hcs & Hs & Hcn & _ & _ & Hout).
  match goal with |- context [steps w _ ?r1] =>
    pose proof (run_from_top w
      (length (cards (th (machine r))) - S i) r1 (S i) Hw) as H end.
  simpl in H. rewrite Hcs, Hs, Hcn in H.
  destruct H as (Hp & Hsum & _ & _); [done..|lia|].
  simpl. split; [exact Hp|]. rewrite Hsum.
  match type of Hout with match ?o with _ => _ end => destruct o end;
    destruct Hout as (H1 & _ & _ & H4 & _); rewrite H1, H4; lia.
Qed.

Lemma resume_lets_the_run_finish_witness :
  pc (steps Scenario.sample_world 5
        (slot_pause_button
           (exec Scenario.sample_world [Work; PauseClick; Work; Work]
              (started [Scenario.card1; Scenario.card2]
                 (Scenario.sample_process false)))))
  = Returned.
Proof.
  refine (proj1 (resume_lets_the_run_finish Scenario.sample_world
            (exec Scenario.sample_world [Work; PauseClick; Work; Work]
               (started [Scenario.card1; Scenario.card2]
                  (Scenario.sample_process false)))
            0 (λ _ _, eq_refl) eq_refl eq_refl eq_refl _)).
  simpl. lia.
Defined.

(** *** The pause flag and the loop body *)

Lemma ignores_ret {A} (a : A) : ignores_status (ret a).
Proof. by intros b s. Qed.

Lemma ignores_raise {A} e : ignores_status (@raise A e).
Proof. by intros b s. Qed.

Lemma ignores_call {A} (x : Exception + A) : ignores_status (call x).
Proof. by intros b s. Qed.

Lemma ignores_value {A} (o : option A) : ignores_status (value o).
Proof. destruct o; [apply ignores_ret|apply ignores_raise]. Qed.

Lemma ignores_gets {A} (f : Machine → A) :
  (∀ b s, f (with_th (set_status b) s) = f s) → ignores_status (gets f).
Proof. intros Hf b s. unfold gets. simpl. by rewrite Hf. Qed.

Lemma ignores_modify (f : Machine → Machine) :
  (∀ b s, f (with_th (set_status b) s) = with_th (set_status b) (f s)) →
  ignores_status (modify f).
Proof. intros Hf b s. unfold modify. simpl. by rewrite Hf. Qed.

Lemma ignores_say l : ignores_status (say l).
Proof. by apply ignores_modify. Qed.

Lemma ignores_bind {A B} (m : M A) (k : A → M B) :
  ignores_status m → (∀ a, ignores_status (k a)) → ignores_status (bind m k).
Proof.
  intros Hm Hk b s. unfold bind. rewrite Hm.
  destruct (m s) as [[e|a] s']; simpl; [done|]. apply Hk.
Qed.

Lemma ignores_try_except {A} (m : M A) (h : Exception → M A) :
  ignores_status m → (∀ e, ignores_status (h e)) →
  ignores_status (try_except m h).
Proof.
  intros Hm Hh b s. unfold try_except. rewrite Hm.
  destruct (m s) as [[e|a] s']; simpl; [|done]. apply Hh.
Qed.

Create HintDb ignores.
#[local] Hint Resolve ignores_ret ignores_raise ignores_call ignores_value
  ignores_say : ignores.

Ltac ignores_step :=
  match goal with
  | |- ignores_status (bind _ _) => apply ignores_bind; [|intros ?]
  | |- ignores_status (try_except _ _) => apply ignores_try_except; [|intros ?]
  | |- ignores_status (gets _) => apply ignores_gets; by intros
  | |- ignores_status (modify _) => apply ignores_modify; by intros
  | |- ignores_status (if ?b then _ else _) => destruct b
  | |- ignores_status (match ?x with (_, _) => _ end) => destruct x
  | |- ignores_status (match ?x with Continue => _ | FellThrough => _ end) =>
      destruct x
  | |- ignores_status _ => solve [auto with ignores]
  end.

Lemma ignores_write_sound c a n : ignores_status (write_sound c a n).
Proof. unfold write_sound. repeat ignores_step. Qed.

Lemma ignores_flush w c : ignores_status (flush w c).
Proof. unfold flush. repeat ignores_step. Qed.

#[local] Hint Resolve ignores_write_sound ignores_flush : ignores.

Lemma ignores_japanesePod w c q l a : ignores_status (japanesePod w c q l a).
Proof. unfold japanesePod. repeat ignores_step. Qed.

Lemma ignores_forvo w c q l a : ignores_status (forvo w c q l a).
Proof. unfold forvo. repeat ignores_step. Qed.

#[local] Hint Resolve ignores_japanesePod ignores_forvo : ignores.

Lemma ignores_acquire w c q l a : ignores_status (acquire w c q l a).
Proof. unfold acquire. repeat ignores_step. Qed.

Lemma ignores_resolve c : ignores_status (resolve c).
Proof. unfold resolve. repeat ignores_step. Qed.

#[local] Hint Resolve ignores_acquire ignores_resolve : ignores.

Lemma ignores_try_body w skip c : ignores_status (try_body w skip c).
Proof. unfold try_body. repeat ignores_step. Qed.

Lemma ignores_handler w c e : ignores_status (handler w c e).
Proof. unfold handler. repeat ignores_step. Qed.

#[local] Hint Resolve ignores_try_body ignores_handler : ignores.

(** The pass through the loop body for a card does not depend on the pause
    flag, and leaves it as it is. *)
Lemma ignores_loop_body w skip c : ignores_status (loop_body w skip c).
Proof. unfold loop_body. repeat ignores_step. Qed.

(** X9.  Pause does not interrupt the card in progress.  Clicked while the
    card of index [k] is processed, with a card after it: if the pass for
    that card would have been completed without the click, it is completed
    with the click as well, and the thread then stops before the next card
    and stays there, however many steps it is given.  What the thread has
    done by then to the counters, the lists, the notes and the logs is what
    one step without the click does; the pause flag is the only
    difference. *)
Theorem pause_takes_effect_before_the_next_card
    (w : World) (r : Running) (k : nat) (n : nat) :
  pc r = Body k →
  (S k < length (cards (th (machine r))))%nat →
  _status (th (machine r)) = true →
  is_cancelled (th (machine r)) = false →
  pc (step w r) = Top (S k) →
  let r' := steps w (3 + n) (slot_pause_button r) in
  pc r' = Wait (S k)
  ∧ machine r' = with_th (set_status false) (machine (step w r)).
Proof.
  intros Hpc Hlt Hst Hcan Hdone.
  destruct (lookup_lt_is_Some_2 (cards (th (machine r))) k) as [c Hc]; [lia|].
  assert (Hl : (loop_body w (skip_existing r) c (machine r)).1 = inr tt).
  { unfold step in Hdone. rewrite Hpc, Hc in Hdone.
    by destruct (loop_body w (skip_existing r) c (machine r)).1 as [e|[]]. }
  cbv zeta. rewrite (step_body w r k c Hpc Hc Hl).
  assert (Hr : slot_pause_button r
               = on_machine (with_th (set_status false)) r).
  { unfold slot_pause_button, toggle_status. simpl. rewrite Hst. simpl.
    unfold on_machine, with_th, set_status. simpl. by rewrite Hst. }
  rewrite Hr. rewrite steps_add. cbn [steps].
  pose proof (ignores_loop_body w (skip_existing r) c false (machine r)) as Hi.
  assert (Hl' : (loop_body w (skip_existing r) c
                   (with_th (set_status false) (machine r))).1 = inr tt)
    by (by rewrite Hi).
  rewrite (step_body w (on_machine (with_th (set_status false)) r) k c
             Hpc Hc Hl').
  assert (Hit : iteration w (skip_existing r) c
                  (with_th (set_status false) (machine r))
                = with_th (set_status false)
                    (iteration w (skip_existing r) c (machine r)))
    by (unfold iteration; by rewrite Hi).
  pose proof (iteration_control w (skip_existing r) c (machine r)) as He.
  simpl in He. destruct He as (Hcs & _ & Hcn & _).
  destruct (lookup_lt_is_Some_2 _ _ Hlt) as [c' Hc'].
  match goal with |- context [step w (step w ?r1)] =>
    assert (H1 : step w r1 = at_pc (StatusCheck (S k)) r1) end.
  { unfold step. simpl. rewrite Hit. simpl. rewrite Hcs, Hc', Hcn.
    by rewrite Hcan. }
  rewrite H1.
  match goal with |- context [step w ?r1] =>
    assert (H2 : step w r1 = at_pc (Wait (S k)) r1) end.
  { unfold step. simpl. by rewrite Hit. }
  rewrite H2.
  match goal with |- context [steps w n ?r1] =>
    assert (H3 : steps w n r1 = r1) end.
  { clear. induction n as [|n IH]; [done|]. cbn [steps]. exact IH. }
  rewrite H3. simpl. by rewrite Hit.
Qed.

Lemma pause_takes_effect_before_the_next_card_witness :
  let r := exec Scenario.sample_world [Work; Work; Work]
             (started [Scenario.card1; Scenario.card2]
                (Scenario.sample_process false)) in
  let r' := steps Scenario.sample_world (3 + 10) (slot_pause_button r) in
  pc r' = Wait 1
  ∧ done_cards (ps (machine r')) = [Scenario.card1]
  ∧ done_cards (ps (machine (step Scenario.sample_world r))) = [Scenario.card1].
Proof.
  intros r r'.
  destruct (pause_takes_effect_before_the_next_card Scenario.sample_world
              r 0 10 eq_refl) as [H1 H2]; [simpl; lia|reflexivity..|].
  split; [exact H1|]. split; [|reflexivity].
  fold r' in H2. rewrite H2. reflexivity.
Defined.



(** X11.  After a click on Cancel while the thread is in the iteration of
    the card of index [k], whatever the thread and the user do next, the
    flag stays set and the class list [done_cards] grows by that card at
    most: no later card of the batch is ever processed. *)
Theorem no_card_after_the_cancelled_one
    (w : World) (r : Running) (k : nat) (sched : list Action) :
  within_iteration k (pc r) →
  let r' := exec w sched (handle_cancel_click r) in
  is_cancelled (th (machine r')) = true
  ∧ ∃ l, done_cards (ps (machine r')) = done_cards (ps (machine r)) ++ l
         ∧ (l = [] ∨ ∃ c, cards (th (machine r)) !! k = Some c ∧ l = [c]).
Proof.
  intros Hin r'. split.
  - subst r'. unfold exec.
    assert (H : is_cancelled (th (machine (handle_cancel_click r))) = true)
      by done.
    revert H. generalize (handle_cancel_click r).
    induction sched as [|a sched IH]; intros r0 H; simpl; [done|].
    apply IH. by apply BatchFacts.act_keeps_cancelled.
  - apply (BatchFacts.cancel_bounds_work w sched r k).
    by apply BatchFacts.after_cancel_click.
Qed.

Lemma no_card_after_the_cancelled_one_witness :
  is_cancelled
    (th (machine
       (exec Scenario.sample_world [Work; PauseClick; Work; PauseClick; Work]
          (handle_cancel_click
             (exec Scenario.sample_world [Work; Work; Work]
                (started [Scenario.card1; Scenario.card2]
                   (Scenario.sample_process false)))))))
  = true.
Proof.
  refine (proj1 (no_card_after_the_cancelled_one Scenario.sample_world
            (exec Scenario.sample_world [Work; Work; Work]
               (started [Scenario.card1; Scenario.card2]
                  (Scenario.sample_process false)))
            0 [Work; PauseClick; Work; PauseClick; Work] _)).
  unfold within_iteration. simpl. auto.
Defined.

End RunFacts.

(** ** What the loop body writes *)

Module WriteFacts.

Import Thread ThreadFacts NoteFrame.

Lemma note_set_names n a v : (note_set n a v).*1 = n.*1.
Proof.
  induction n as [|[k x] n IH]; [done|]. cbn [note_set].
  destruct (String.eqb k a); [done|]. by rewrite !fmap_cons, IH.
Qed.

Lemma note_get_set_ne n a v f : f ≠ a → note_get (note_set n a v) f = note_get n f.
Proof.
  intros Hne. induction n as [|[k x] n IH]; simpl; [done|].
  destruct (String.eqb_spec k a) as [->|Hka]; simpl.
  - destruct (String.eqb_spec a f) as [->|_]; done.
  - destruct (String.eqb k f); [done|exact IH].
Qed.

Lemma note_get_set_eq n a v :
  note_has n a = true → note_get (note_set n a v) a = v.
Proof.
  unfold note_has. intros H%bool_decide_eq_true.
  induction n as [|[k x] n IH]; simpl in *; [by apply elem_of_nil in H|].
  destruct (String.eqb_spec k a) as [->|Hka]; simpl.
  - by rewrite String.eqb_refl.
  - destruct (String.eqb_spec k a); [done|].
    apply IH. apply elem_of_cons in H as [H|H]; [congruence|done].
Qed.

Lemma note_has_names n n' a : n'.*1 = n.*1 → note_has n' a = note_has n a.
Proof. unfold note_has. by intros ->. Qed.

Lemma length_append s1 s2 :
  String.length (s1 +:+ s2) = (String.length s1 + String.length s2)%nat.
Proof. induction s1 as [|ch s1 IH]; simpl; [done|]. by rewrite IH. Qed.

Lemma note_frame_refl a n : note_frame a n n.
Proof. by split. Qed.

Lemma notes_frame_refl c a s : notes_frame c a s s.
Proof. repeat split. Qed.

Lemma notes_frame_trans c a s1 s2 s3 :
  notes_frame c a s1 s2 → notes_frame c a s2 s3 → notes_frame c a s1 s3.
Proof.
  intros (Hc1 & Ho1 & Hn1 & Hf1) (Hc2 & Ho2 & Hn2 & Hf2).
  split; [congruence|]. split.
  - intros k Hk. rewrite Ho2, Ho1; done.
  - split; [congruence|]. intros f Hf. rewrite Hf2, Hf1; done.
Qed.

(** *** Statements that stay within a frame *)

Section Frame.

Variable c : Card.
Variable a : option string.

Lemma within_ret {A} (x : A) : within c a A (ret x).
Proof. intros s. apply notes_frame_refl. Qed.

Lemma within_raise {A} e : within c a A (raise e).
Proof. intros s. apply notes_frame_refl. Qed.

Lemma within_call {A} (r : Exception + A) : within c a A (call r).
Proof. intros s. apply notes_frame_refl. Qed.

Lemma within_gets {A} (f : Machine → A) : within c a A (gets f).
Proof. intros s. apply notes_frame_refl. Qed.

Lemma within_value {A} (o : option A) : within c a A (value o).
Proof. destruct o; [apply within_ret|apply within_raise]. Qed.

Lemma within_say l : within c a unit (say l).
Proof. intros s. split; [done|]. split; [done|]. apply note_frame_refl. Qed.

Lemma within_bind {A B} (m : M A) (k : A → M B) :
  within c a A m → (∀ x, within c a B (k x)) → within c a B (bind m k).
Proof.
  intros Hm Hk s. unfold bind. specialize (Hm s).
  destruct (m s) as [[e|x] s']; [exact Hm|].
  eapply notes_frame_trans; [exact Hm|apply Hk].
Qed.

Lemma within_try_except {A} (m : M A) (h : Exception → M A) :
  within c a A m → (∀ e, within c a A (h e)) → within c a A (try_except m h).
Proof.
  intros Hm Hh s. unfold try_except. specialize (Hm s).
  destruct (m s) as [[e|x] s']; [|exact Hm].
  eapply notes_frame_trans; [exact Hm|apply Hh].
Qed.

End Frame.

Ltac within_step :=
  match goal with
  | |- within _ _ _ (bind _ _) => apply within_bind; [|intros ?]
  | |- within _ _ _ (try_except _ _) => apply within_try_except; [|intros ?]
  | |- within _ _ _ (if ?b then _ else _) => destruct b
  | |- within _ _ _ (match ?x with (_, _) => _ end) => destruct x
  | |- within _ _ _ _ =>
      first [apply within_ret | apply within_raise | apply within_call
            | apply within_gets | apply within_value | apply within_say]
  end.

Lemma notes_set_note n v p k :
  notes (set_note n v p) k = if Z.eqb k n then v else notes p k.
Proof. done. Qed.

Lemma frame_set_note c a v f s :
  notes_frame c (Some a) s
    (with_th f (with_ps (set_note (nid c)
                           (note_set (notes (ps s) (nid c)) a v)) s)).
Proof.
  split; [done|]. cbn [ps with_th with_ps]. split.
  - intros k Hk. rewrite notes_set_note. by apply Z.eqb_neq in Hk as ->.
  - rewrite notes_set_note, Z.eqb_refl. split; [apply note_set_names|].
    intros f' Hf. apply note_get_set_ne. congruence.
Qed.

Lemma within_write_sound c a name : within c (Some a) unit (write_sound c a name).
Proof.
  intros s. unfold write_sound, bind, gets, modify, say. simpl.
  destruct (Config.appendAudio (config (ps s))); simpl; apply frame_set_note.
Qed.

Lemma within_flush w c a : within c a unit (flush w c).
Proof. unfold flush. repeat within_step. Qed.

Lemma within_japanesePod w c q l a :
  within c (Some a) unit (japanesePod w c q l a).
Proof.
  unfold japanesePod.
  repeat first [apply within_write_sound | apply within_flush | within_step].
Qed.

Lemma within_forvo w c q l a : within c (Some a) unit (forvo w c q l a).
Proof.
  unfold forvo.
  repeat first [apply within_write_sound | apply within_flush | within_step].
Qed.

Lemma within_acquire w c q l a : within c (Some a) unit (acquire w c q l a).
Proof.
  unfold acquire. apply within_try_except;
    [apply within_japanesePod|intros; apply within_forvo].
Qed.

Lemma within_resolve c a : within c a _ (resolve c).
Proof. unfold resolve. repeat within_step. Qed.

(** *** The outcome of the lookups of lines 320-332 *)

Lemma resolve_inv c s q l a s0 :
  resolve c s = (inr (q, l, a), s0) →
  ∃ qf,
    Config.get_note_type_specific_config_object
      (config (ps s)) "searchField" (note_type_id c) = Some qf
    ∧ Config.get_note_type_specific_config_object
        (config (ps s)) "audioField" (note_type_id c) = Some a
    ∧ note_has (notes (ps s) (nid c)) qf = true
    ∧ note_has (notes (ps s) (nid c)) a = true
    ∧ q = note_get (notes (ps s) (nid c)) qf
    ∧ Config.get_deck_specific_config_object
        (config (ps s)) "language" (did c) = Some l
    ∧ s0 = with_th (emit_log (LogNextCard q l)) s.
Proof.
  unfold resolve, bind, gets, value, ret, raise, say, modify. simpl.
  destruct (Config.get_note_type_specific_config_object
              (config (ps s)) "searchField" (note_type_id c)) as [qf|];
    simpl; [|done].
  destruct (Config.get_note_type_specific_config_object
              (config (ps s)) "audioField" (note_type_id c)) as [a'|];
    simpl; [|done].
  destruct (note_has (notes (ps s) (nid c)) qf) eqn:Hq; simpl; [|done].
  destruct (note_has (notes (ps s) (nid c)) a') eqn:Ha; simpl; [|done].
  destruct (Config.get_deck_specific_config_object
              (config (ps s)) "language" (did c)) as [l'|]; simpl; [|done].
  intros [= <- <- <- <-]. exists qf. done.
Qed.

Lemma resolve_ok c s qf a l :
  Config.get_note_type_specific_config_object
    (config (ps s)) "searchField" (note_type_id c) = Some qf →
  Config.get_note_type_specific_config_object
    (config (ps s)) "audioField" (note_type_id c) = Some a →
  note_has (notes (ps s) (nid c)) qf = true →
  note_has (notes (ps s) (nid c)) a = true →
  Config.get_deck_specific_config_object
    (config (ps s)) "language" (did c) = Some l →
  resolve c s
  = (inr (note_get (notes (ps s) (nid c)) qf, l, a),
     with_th (emit_log (LogNextCard (note_get (notes (ps s) (nid c)) qf) l)) s).
Proof.
  intros H1 H2 H3 H4 H5.
  unfold resolve, bind, gets, value, ret, raise, say, modify. simpl.
  rewrite H1. simpl. rewrite H2. simpl. rewrite H3, H4. simpl.
  rewrite H5. done.
Qed.

Lemma try_body_frame w skip c s :
  notes_frame c
    (Config.get_note_type_specific_config_object
       (config (ps s)) "audioField" (note_type_id c))
    s (try_body w skip c s).2.
Proof.
  unfold try_body, bind at 1.
  pose proof (within_resolve c
    (Config.get_note_type_specific_config_object
       (config (ps s)) "audioField" (note_type_id c)) s) as Hr.
  destruct (resolve c s) as [[e|[[q l] a]] s0] eqn:Hres; [exact Hr|].
  apply resolve_inv in Hres as (qf & _ & Ha & _). rewrite Ha in *.
  eapply notes_frame_trans; [exact Hr|]. simpl in Hr.
  assert (Hrest : within c (Some a) Exit
    (let* note := gets (λ s1, notes (ps s1) (nid c)) in
     if skip && bool_decide (0 < String.length (note_get note a))%nat
     then modify (with_th (λ t, set_skipped_cards (skipped_cards t + 1) t)) >>
          ret Continue
     else call (Forvo_init w q l) >> acquire w c q l a >> ret FellThrough)).
  { apply within_bind; [apply within_gets|]. intros note.
    destruct (skip && _).
    - intros s1. split; [done|]. split; [done|]. apply note_frame_refl.
    - apply within_bind; [apply within_call|]. intros _.
      apply within_bind; [apply within_acquire|]. intros _.
      apply within_ret. }
  apply Hrest.
Qed.

(** X12.  Processing a card leaves the configuration and the notes of all
    other cards as they were; in the card's own note the set of fields is
    the same and only the content of the configured audio field may have
    changed.  This holds for every outcome, a failure half-way included. *)
Theorem a_card_changes_its_audio_field_only
    (w : World) (skip : bool) (c : Card) (s : Machine) :
  let s' := iteration w skip c s in
  config (ps s') = config (ps s)
  ∧ (∀ k, k ≠ nid c → notes (ps s') k = notes (ps s) k)
  ∧ (notes (ps s') (nid c)).*1 = (notes (ps s) (nid c)).*1
  ∧ ∀ f,
      Config.get_note_type_specific_config_object
        (config (ps s)) "audioField" (note_type_id c) ≠ Some f →
      note_get (notes (ps s') (nid c)) f = note_get (notes (ps s) (nid c)) f.
Proof.
  pose proof (try_body_frame w skip c s) as (Hc & Ho & Hn & Hf).
  unfold iteration. rewrite loop_body_cases.
  destruct (try_body w skip c s) as [[e|[]] s1]; simpl in *; [|done..].
  rewrite handler_effect. simpl.
  by destruct (error_log_write w c e) as [e1|[]].
Qed.

(** *** After a successful download the audio field is not empty *)

Lemma audio_set_ps c a s s' : ps s' = ps s → audio_set c a s → audio_set c a s'.
Proof. unfold audio_set. by intros ->. Qed.

Lemma write_sound_sets c a name s :
  note_has (notes (ps s) (nid c)) a = true →
  ∃ s', write_sound c a name s = (inr tt, s') ∧ audio_set c a s'.
Proof.
  intros Hhas. unfold write_sound, bind, gets, modify, say. simpl.
  destruct (Config.appendAudio (config (ps s))); simpl;
    (eexists; split; [reflexivity|]); unfold audio_set;
    cbn [ps with_th with_ps]; rewrite notes_set_note, Z.eqb_refl;
    (split; [by rewrite (note_has_names _ _ a (note_set_names _ _ _))|]);
    rewrite note_get_set_eq by done; rewrite ?length_append; simpl; lia.
Qed.

Lemma flush_ps w c s r s' : flush w c s = (r, s') → ps s' = ps s.
Proof.
  unfold flush, bind, gets, call, say, modify. simpl.
  destruct (note_flush w (nid c) (notes (ps s) (nid c))) as [e|[]];
    by intros [= <- <-].
Qed.

Lemma write_then_flush w c a name s s' :
  note_has (notes (ps s) (nid c)) a = true →
  (write_sound c a name >> flush w c) s = (inr tt, s') →
  audio_set c a s'.
Proof.
  intros Hhas. unfold bind at 1.
  destruct (write_sound_sets c a name s Hhas) as (s1 & -> & Hset).
  intros Hf. apply flush_ps in Hf. by apply (audio_set_ps c a s1).
Qed.

Lemma japanesePod_success w c q l a s s' :
  note_has (notes (ps s) (nid c)) a = true →
  japanesePod w c q l a s = (inr tt, s') → audio_set c a s'.
Proof.
  intros Hhas. unfold japanesePod.
  destruct (String.eqb l "ja"); [|done].
  unfold bind at 1, say at 1, modify at 1.
  unfold bind at 1, call at 1.
  destruct (jisho_reading w q) as [e|kana]; [done|].
  unfold try_except.
  match goal with |- context [match ?m ?s0 with _ => _ end] =>
    destruct (m s0) as [[e|[]] s2] eqn:Hin end; [done|].
  intros [= <-]. revert Hin.
  unfold bind at 1, call at 1.
  destruct (japanesePod101 w q kana) as [e|digest]; [done|].
  destruct (String.eqb digest no_content_md5); [done|].
  unfold bind at 1, call at 1.
  destruct (media_add_file w _) as [e|media_name]; [done|].
  by apply write_then_flush.
Qed.

Lemma forvo_success w c q l a s s' :
  note_has (notes (ps s) (nid c)) a = true →
  forvo w c q l a s = (inr tt, s') → audio_set c a s'.
Proof.
  intros Hhas. unfold forvo.
  unfold bind at 1, call at 1.
  destruct (get_pronunciations w q l) as [e|results]; [done|].
  unfold bind at 1, call at 1.
  destruct (Forvo.select_top results) as [e|top]; [done|].
  unfold bind at 1, say at 1, modify at 1.
  unfold bind at 1, call at 1.
  destruct (download_pronunciation w top) as [e|audio]; [done|].
  unfold bind at 1, say at 1, modify at 1.
  by apply write_then_flush.
Qed.

Lemma acquire_success w c q l a s s' :
  note_has (notes (ps s) (nid c)) a = true →
  acquire w c q l a s = (inr tt, s') → audio_set c a s'.
Proof.
  intros Hhas. unfold acquire, try_except.
  pose proof (within_japanesePod w c q l a s) as (_ & _ & Hn & _).
  destruct (japanesePod w c q l a s) as [[e|[]] s1] eqn:Hj.
  - apply forvo_success. simpl in Hn.
    by rewrite (note_has_names _ _ a Hn).
  - intros [= <-]. by eapply japanesePod_success.
Qed.

Lemma success_sets_audio w skip c s s' :
  try_body w skip c s = (inr FellThrough, s') →
  ∃ qf a l,
    resolve c s
    = (inr (note_get (notes (ps s) (nid c)) qf, l, a),
       with_th (emit_log (LogNextCard (note_get (notes (ps s) (nid c)) qf) l)) s)
    ∧ Config.get_note_type_specific_config_object
        (config (ps s)) "searchField" (note_type_id c) = Some qf
    ∧ Config.get_note_type_specific_config_object
        (config (ps s)) "audioField" (note_type_id c) = Some a
    ∧ Config.get_deck_specific_config_object
        (config (ps s)) "language" (did c) = Some l
    ∧ note_has (notes (ps s) (nid c)) qf = true
    ∧ audio_set c a s'.
Proof.
  unfold try_body, bind at 1.
  destruct (resolve c s) as [[e|[[q l] a]] s0] eqn:Hres; [done|].
  pose proof Hres as Hinv.
  apply resolve_inv in Hinv as (qf & Hq & Ha & Hhq & Hha & -> & Hl & ->).
  unfold bind at 1, gets at 1.
  destruct (skip && _); [done|].
  unfold bind at 1, call at 1.
  destruct (Forvo_init w _ l) as [e|[]]; [done|].
  unfold bind at 1.
  match goal with |- context [acquire w c ?q l a ?s0] =>
    destruct (acquire w c q l a s0) as [[e|[]] s1] eqn:Hacq end; [done|].
  intros [= <-]. exists qf, a, l.
  repeat split; try done.
  - by apply acquire_success in Hacq as [? ?].
  - by apply acquire_success in Hacq as [? ?].
Qed.

(** X13.  A card whose download succeeded has a non-empty audio field
    afterwards, so a later pass over the same card with the skip option on
    skips it, whatever the providers would answer then. *)
Theorem a_successful_card_is_skipped_next_time
    (w w' : World) (skip : bool) (c : Card) (s : Machine) :
  outcome w skip c s = Succeeded →
  outcome w' true c (iteration w skip c s) = Skipped.
Proof.
  unfold outcome at 1. unfold iteration. rewrite loop_body_cases.
  pose proof (try_body_frame w skip c s) as (Hcfg & _ & Hnames & _).
  destruct (try_body w skip c s) as [[e|[]] s1] eqn:Hb; try done.
  intros _. simpl in Hcfg, Hnames. cbn [snd].
  apply success_sets_audio in Hb as (qf & a & l & _ & Hq & Ha & Hl & Hhq & Hhas & Hlen).
  unfold outcome, try_body, bind at 1.
  rewrite (resolve_ok c (tail c s1) qf a l); simpl;
    rewrite ?Hcfg; try done.
  - unfold bind at 1, gets at 1. simpl.
    rewrite bool_decide_eq_true_2 by done. done.
  - by rewrite (note_has_names _ _ qf Hnames).
Qed.

Lemma a_successful_card_is_skipped_next_time_witness :
  outcome Scenario.sample_world true Scenario.card1
    (iteration Scenario.sample_world false Scenario.card1
       {| th := __init__ [Scenario.card1]; ps := Scenario.sample_process false |})
  = Skipped.
Proof.
  apply (a_successful_card_is_skipped_next_time Scenario.sample_world
           Scenario.sample_world false Scenario.card1).
  reflexivity.
Defined.

End WriteFacts.

(** ** The review after the run *)

Module ReviewFacts.

Import Thread BulkAdd.

(** X14.  The review of a cancelled run in which nothing had failed: the
    dialog lists, in the order of the batch, exactly the cards that are not
    in [done_cards], each as a cancelled download, so that every card of the
    batch is either done or listed.  The dialog of failed downloads opens
    even when every card is done, with an empty list. *)
Theorem review_of_a_cancelled_run_without_failures (s : Machine) :
  failed (th s) = [] →
  is_cancelled (th s) = true →
  let s' := (review_downloads s).1 in
  (review_downloads s).2
  = FailedDownloadsDialog (failed (th s')) (skipped_cards (th s))
  ∧ card <$> failed (th s')
    = filter (λ c, c ∉ done_cards (ps s)) (cards (th s))
  ∧ (∀ fd, fd ∈ failed (th s') → reason fd = DownloadCancelledException)
  ∧ (∀ c, c ∈ cards (th s) →
       c ∈ done_cards (ps s) ∨ c ∈ card <$> failed (th s'))
  ∧ ((∀ c, c ∈ cards (th s) → c ∈ done_cards (ps s)) →
     (review_downloads s).2 = FailedDownloadsDialog [] (skipped_cards (th s))).
Proof.
  intros Hf Hc. unfold review_downloads. rewrite Hf, Hc. simpl. rewrite Hf. simpl.
  unfold cancelled_downloads.
  assert (Hcards : card <$> ((λ c, mkFailedDownload c DownloadCancelledException)
                     <$> filter (λ c, c ∉ done_cards (ps s)) (cards (th s)))
                   = filter (λ c, c ∉ done_cards (ps s)) (cards (th s))).
  { rewrite <- list_fmap_compose. apply list_fmap_id. }
  split; [done|]. split; [exact Hcards|]. split.
  { intros fd (c & -> & _)%list_elem_of_fmap. done. }
  split.
  - intros c Hin. destruct (decide (c ∈ done_cards (ps s))) as [|Hn]; [by left|].
    right. rewrite Hcards. by apply list_elem_of_filter.
  - intros Hall. do 2 f_equal.
    assert (filter (λ c, c ∉ done_cards (ps s)) (cards (th s)) = []) as ->; [|done].
    clear Hcards. induction (cards (th s)) as [|c l IH]; [done|].
    rewrite filter_cons.
    rewrite decide_False by (intros Hn; apply Hn, Hall, list_elem_of_here).
    apply IH. intros c' Hc'. apply Hall. by apply list_elem_of_further.
Qed.

Lemma review_of_a_cancelled_run_without_failures_witness :
  let r := exec Scenario.sample_world [Work; CancelClick; Work]
             (started [Scenario.card1; Scenario.card2]
                (Scenario.sample_process false)) in
  card <$> failed (th (review_downloads (machine r)).1)
  = [Scenario.card1; Scenario.card2].
Proof.
  intros r.
  destruct (review_of_a_cancelled_run_without_failures (machine r)
              eq_refl eq_refl) as (_ & H & _).
  rewrite H. vm_compute. reflexivity.
Defined.

End ReviewFacts.

(** ** More on the resolution of missing settings *)

Module ResolutionMore.

Import BulkAdd ResolutionFacts Stage.

Lemma missing_keys_nil key (get : Z → option string) cs :
  (∀ c, c ∈ cs → is_Some (get (key c))) → missing_keys key get cs = [].
Proof.
  intros Hall. unfold missing_keys.
  assert (filter (λ c, get (key c) = None) cs = []) as ->.
  { induction cs as [|c cs IH]; [done|]. rewrite filter_cons.
    destruct (Hall c (list_elem_of_here _ _)) as [v Hv].
    rewrite decide_False by congruence.
    apply IH. intros c' Hc'. apply Hall. by apply list_elem_of_further. }
  simpl. apply elements_empty.
Qed.

Lemma resolve_without_language c s :
  Config.get_deck_specific_config_object
    (Thread.config (Thread.ps s)) "language" (did c) = None →
  ∃ e, Thread.resolve c s = (inl e, s)
       ∧ (e = AttributeError ∨ ∃ f, e = FieldNotFoundException f).
Proof.
  intros Hl.
  unfold Thread.resolve, Thread.bind, Thread.gets, Thread.value, Thread.ret,
    Thread.raise. simpl.
  destruct (Config.get_note_type_specific_config_object _ "searchField" _)
    as [qf|]; simpl; [|eauto].
  destruct (Config.get_note_type_specific_config_object _ "audioField" _)
    as [a|]; simpl; [|eauto].
  destruct (note_has _ qf); simpl; [|eauto].
  destruct (note_has _ a); simpl; [|eauto].
  rewrite Hl. simpl. eauto.
Qed.

(** X15.  When every note type of the selection has its search field and
    its audio field, [ensure_fields] starts the downloads at once (line
    261): no dialog opens, not even for a deck without a language.  In the
    run every card of such a deck then fails before any provider is asked,
    with [AttributeError] or, if its note lacks a configured field, with
    [FieldNotFoundException]. *)
Theorem language_is_not_asked_when_the_fields_are_set
    (u : User) (cs : list Card) (st : Flow) :
  (∀ c, c ∈ cs →
     is_Some (Config.get_note_type_specific_config_object
                (cfg st) "searchField" (note_type_id c))
     ∧ is_Some (Config.get_note_type_specific_config_object
                  (cfg st) "audioField" (note_type_id c))) →
  ensure_fields u cs st = start_downloads st
  ∧ ∀ w skip c s,
      Thread.config (Thread.ps s) = cfg st →
      Config.get_deck_specific_config_object (cfg st) "language" (did c) = None →
      ∃ e, Thread.outcome w skip c s = Thread.Failed e
           ∧ (e = AttributeError ∨ ∃ f, e = FieldNotFoundException f)
           ∧ Thread.notes (Thread.ps (Thread.iteration w skip c s))
             = Thread.notes (Thread.ps s).
Proof.
  intros Hall. split.
  - unfold ensure_fields.
    rewrite !missing_keys_nil by (intros c Hc; by apply Hall). done.
  - intros w skip c s Hcfg Hl. rewrite <- Hcfg in Hl.
    destruct (resolve_without_language c s Hl) as (e & Hres & He).
    assert (Hb : Thread.try_body w skip c s = (inl e, s)).
    { unfold Thread.try_body, Thread.bind at 1. by rewrite Hres. }
    exists e. unfold Thread.outcome, Thread.iteration.
    rewrite ThreadFacts.loop_body_cases, Hb, ThreadFacts.handler_effect.
    simpl. by destruct (error_log_write w c e) as [e1|[]].
Qed.

Lemma language_is_not_asked_when_the_fields_are_set_witness :
  events (ensure_fields Scenario.eager_user [mkCard 7 107 5 10 7]
            (opened (Scenario.sample_config false)))
  = [StartDownloads]
  ∧ Thread.outcome Scenario.sample_world false (mkCard 7 107 5 10 7)
      {| Thread.th := Thread.__init__ [mkCard 7 107 5 10 7];
         Thread.ps := Scenario.sample_process false |}
    = Thread.Failed AttributeError.
Proof.
  destruct (language_is_not_asked_when_the_fields_are_set Scenario.eager_user
              [mkCard 7 107 5 10 7] (opened (Scenario.sample_config false)))
    as [H _].
  - intros c Hc. apply list_elem_of_singleton in Hc as ->.
    split; vm_compute; eauto.
  - rewrite H. split; reflexivity.
Defined.

(** *** The order of the dialogs *)

Lemma in_stages_prefix ds ds' :
  ds' `prefix_of` ds → in_stages ds → in_stages ds'.
Proof.
  intros [k ->] (A & B & C & Heq & HA & HB & HC).
  pose proof (take_app_length ds' k) as Ht. rewrite Heq in Ht.
  rewrite !take_app in Ht.
  eexists _, _, _. split; [symmetry; exact Ht|].
  repeat split; by apply Forall_take.
Qed.

Lemma plan_in_stages c cs : in_stages (plan c cs).
Proof.
  unfold plan. eexists _, _, _. split; [reflexivity|].
  repeat split; apply Forall_fmap, Forall_forall; by intros.
Qed.

Lemma requests_in_stages c cs : in_stages (requests c cs).
Proof.
  unfold requests. case_bool_decide; [|apply plan_in_stages].
  exists [], [], []. by repeat split.
Qed.

Lemma asked_of_ensure_fields u cs c0 :
  asked (events (ensure_fields u cs (opened c0))) `prefix_of` requests c0 cs.
Proof.
  rewrite ensure_fields_walk, walk_start_events. simpl.
  apply walk_events_asked_prefix.
Qed.

(** X16.  Whatever the user answers, the dialogs that [ensure_fields] opens
    come in three stages: first those for search fields, then those for
    audio fields, then those for languages; no dialog of an earlier stage
    follows one of a later stage. *)
Theorem dialogs_come_in_stages (u : User) (cs : list Card) (c0 : Config.Config) :
  in_stages (asked (events (ensure_fields u cs (opened c0)))).
Proof.
  eapply in_stages_prefix; [apply asked_of_ensure_fields|].
  apply requests_in_stages.
Qed.

(** *** What the answers are stored under *)

Lemma elem_of_missing_keys key (get : Z → option string) cs z :
  z ∈ missing_keys key get cs ↔ ∃ c, c ∈ cs ∧ key c = z ∧ get z = None.
Proof.
  unfold missing_keys.
  rewrite elem_of_elements, elem_of_list_to_set, list_elem_of_fmap. split.
  - intros (c & -> & [H Hin]%list_elem_of_filter). eauto.
  - intros (c & Hin & <- & H). exists c. split; [done|].
    by apply list_elem_of_filter.
Qed.

Lemma elem_of_rev_list {A} (x : A) (l : list A) : x ∈ rev l ↔ x ∈ l.
Proof. rewrite !list_elem_of_In. symmetry. apply List.in_rev. Qed.

Lemma elem_of_plan c cs d :
  d ∈ plan c cs ↔
  (∃ card ft, card ∈ cs ∧ d = FieldSelector (note_type_id card) ft
     ∧ (ft = "searchField" ∨ ft = "audioField")
     ∧ Config.get_note_type_specific_config_object c ft (note_type_id card) = None)
  ∨ (∃ card, card ∈ cs ∧ d = LanguageSelector (did card)
       ∧ Config.get_deck_specific_config_object c "language" (did card) = None).
Proof.
  unfold plan. rewrite !elem_of_app, !list_elem_of_fmap. split.
  - intros [(nt & -> & Hm)|[(nt & -> & Hm)|(deck & -> & Hm)]];
      rewrite elem_of_rev_list in Hm; apply elem_of_missing_keys in Hm;
      destruct Hm as (card & Hin & <- & Hg).
    + left. exists card, "searchField". auto.
    + left. exists card, "audioField". auto.
    + right. exists card. auto.
  - intros [(card & ft & Hin & -> & [-> | ->] & Hg)|(card & Hin & -> & Hg)].
    + left. exists (note_type_id card). split; [done|].
      rewrite elem_of_rev_list. apply elem_of_missing_keys. eauto.
    + right; left. exists (note_type_id card). split; [done|].
      rewrite elem_of_rev_list. apply elem_of_missing_keys. eauto.
    + right; right. exists (did card). split; [done|].
      rewrite elem_of_rev_list. apply elem_of_missing_keys. eauto.
Qed.

Lemma elem_of_requests c cs d : d ∈ requests c cs → d ∈ plan c cs.
Proof.
  unfold requests. case_bool_decide; [|done].
  intros Hin. by apply elem_of_nil in Hin.
Qed.

Lemma walk_untouched u gaps d0 : ∀ st,
  (∀ d, d ∈ gaps → d ≠ d0) →
  (match d0 with
   | FieldSelector nt ft =>
       Config.get_note_type_specific_config_object
         (cfg (walk u gaps start_downloads st)) ft nt
       = Config.get_note_type_specific_config_object (cfg st) ft nt
   | LanguageSelector deck =>
       Config.get_deck_specific_config_object
         (cfg (walk u gaps start_downloads st)) "language" deck
       = Config.get_deck_specific_config_object (cfg st) "language" deck
   end).
Proof.
  induction gaps as [|d gaps IH]; intros st Hne.
  { destruct d0; simpl; done. }
  assert (Hd : d ≠ d0) by (apply Hne, list_elem_of_here).
  assert (Hrest : ∀ d', d' ∈ gaps → d' ≠ d0)
    by (intros; apply Hne; by apply list_elem_of_further).
  simpl. destruct (selects u _ _) as [v|].
  - specialize (IH (configure (store d v) (happens (Shown d) st)) Hrest).
    destruct d0 as [nt ft|deck].
    + rewrite IH. simpl.
      destruct d as [nt' ft'|deck']; simpl; [|done].
      unfold Config.get_note_type_specific_config_object. simpl.
      apply lookup_insert_ne. congruence.
    + rewrite IH. simpl.
      destruct d as [nt' ft'|deck']; simpl; [done|].
      unfold Config.get_deck_specific_config_object. simpl.
      apply lookup_insert_ne. congruence.
  - destruct d0; simpl; done.
Qed.

Lemma walk_keeps_options u gaps : ∀ st,
  Config.skipExistingBulkAdd (cfg (walk u gaps start_downloads st))
  = Config.skipExistingBulkAdd (cfg st)
  ∧ Config.appendAudio (cfg (walk u gaps start_downloads st))
    = Config.appendAudio (cfg st)
  ∧ ∀ name other,
      (∀ d, d ∈ gaps → asks_for name d = false) →
      Config.get_note_type_specific_config_object
        (cfg (walk u gaps start_downloads st)) name other
      = Config.get_note_type_specific_config_object (cfg st) name other.
Proof.
  induction gaps as [|d gaps IH]; intros st; simpl; [done|].
  destruct (selects u _ _) as [v|]; [|done].
  destruct (IH (configure (store d v) (happens (Shown d) st))) as (H1 & H2 & H3).
  rewrite H1, H2. split; [by destruct d|]. split; [by destruct d|].
  intros name other Hno. rewrite H3
    by (intros; apply Hno; by apply list_elem_of_further).
  pose proof (Hno d (list_elem_of_here _ _)) as Hd.
  destruct d as [nt ft|deck]; simpl in *; [|done].
  unfold Config.get_note_type_specific_config_object. simpl.
  apply lookup_insert_ne. intros [= -> ->]. by rewrite String.eqb_refl in Hd.
Qed.

(** X17.  The resolution only fills gaps: a field setting or a language
    that the configuration holds before [ensure_fields] is the same
    afterwards, whatever the user selects in the dialogs, and the two
    global options are not touched. *)
Theorem existing_settings_are_kept (u : User) (cs : list Card) (c0 : Config.Config) :
  let st' := ensure_fields u cs (opened c0) in
  (∀ ft nt v,
     Config.get_note_type_specific_config_object c0 ft nt = Some v →
     Config.get_note_type_specific_config_object (cfg st') ft nt = Some v)
  ∧ (∀ deck v,
       Config.get_deck_specific_config_object c0 "language" deck = Some v →
       Config.get_deck_specific_config_object (cfg st') "language" deck = Some v)
  ∧ Config.skipExistingBulkAdd (cfg st') = Config.skipExistingBulkAdd c0
  ∧ Config.appendAudio (cfg st') = Config.appendAudio c0.
Proof.
  intros st'. subst st'. rewrite ensure_fields_walk. simpl.
  split; [|split].
  - intros ft nt v Hv.
    rewrite (walk_untouched u (requests c0 cs) (FieldSelector nt ft)); [done|].
    intros d Hd ->. apply elem_of_requests, elem_of_plan in Hd
      as [(card & ft' & _ & [= -> ->] & _ & Hn)|(card & _ & [=] & _)].
    simpl in Hv. congruence.
  - intros deck v Hv.
    rewrite (walk_untouched u (requests c0 cs) (LanguageSelector deck)); [done|].
    intros d Hd ->. apply elem_of_requests, elem_of_plan in Hd
      as [(card & ft' & _ & [=] & _)|(card & _ & [= ->] & Hn)].
    simpl in Hv. congruence.
  - destruct (walk_keeps_options u (requests c0 cs) (opened c0)) as (H1 & H2 & _).
    done.
Qed.

Lemma resolve_with_settings c s e s0 :
  is_Some (Config.get_note_type_specific_config_object
             (Thread.config (Thread.ps s)) "searchField" (note_type_id c)) →
  is_Some (Config.get_note_type_specific_config_object
             (Thread.config (Thread.ps s)) "audioField" (note_type_id c)) →
  is_Some (Config.get_deck_specific_config_object
             (Thread.config (Thread.ps s)) "language" (did c)) →
  Thread.resolve c s = (inl e, s0) →
  ∃ f, e = FieldNotFoundException f.
Proof.
  intros [qf Hq] [a Ha] [l Hl].
  unfold Thread.resolve, Thread.bind, Thread.gets, Thread.value, Thread.ret,
    Thread.raise, Thread.say, Thread.modify. simpl.
  rewrite Hq. simpl. rewrite Ha. simpl.
  destruct (note_has _ qf); simpl; [|intros [= <- _]; eauto].
  destruct (note_has _ a); simpl; [|intros [= <- _]; eauto].
  rewrite Hl. simpl. done.
Qed.

(** X18.  If some note type of the selection lacks a field setting and the
    user answers every dialog, the resolution ends with the start of the
    downloads, and by then every card has its search field, its audio field
    and the language of its deck stored: the lookups of lines 320-330 can
    then only fail because a note does not have a configured field. *)
Theorem answered_resolution_fills_every_gap
    (u : User) (cs : list Card) (c0 : Config.Config) :
  (∀ k d, is_Some (selects u k d)) →
  (∃ c ft, c ∈ cs ∧ (ft = "searchField" ∨ ft = "audioField")
           ∧ Config.get_note_type_specific_config_object
               c0 ft (note_type_id c) = None) →
  let st' := ensure_fields u cs (opened c0) in
  last (events st') = Some StartDownloads
  ∧ ∀ c, c ∈ cs →
      is_Some (Config.get_note_type_specific_config_object
                 (cfg st') "searchField" (note_type_id c))
      ∧ is_Some (Config.get_note_type_specific_config_object
                   (cfg st') "audioField" (note_type_id c))
      ∧ is_Some (Config.get_deck_specific_config_object
                   (cfg st') "language" (did c))
      ∧ ∀ s e s0,
          Thread.config (Thread.ps s) = cfg st' →
          Thread.resolve c s = (inl e, s0) →
          ∃ f, e = FieldNotFoundException f.
Proof.
  intros Hall (c1 & ft1 & Hc1 & Hft1 & Hn1) st'.
  assert (Hreq : requests c0 cs = plan c0 cs).
  { unfold requests. case_bool_decide as He; [|done]. exfalso.
    destruct He as [He1 He2].
    assert (Hin : note_type_id c1
              ∈ missing_keys note_type_id
                  (Config.get_note_type_specific_config_object c0 ft1) cs)
      by (apply elem_of_missing_keys; eauto).
    destruct Hft1 as [-> | ->]; rewrite ?He1, ?He2 in Hin;
      by apply elem_of_nil in Hin. }
  assert (Hst : ∀ d, stored d c0 ∨ d ∈ plan c0 cs → stored d (cfg st')).
  { intros d [Hd|Hd]; subst st'; rewrite ensure_fields_walk;
      change (cfg (opened c0)) with c0; rewrite Hreq.
    - by apply walk_keeps_stored.
    - by apply walk_stores_answers. }
  split.
  { subst st'. rewrite ensure_fields_walk, walk_start_events. simpl.
    rewrite walk_events_all_answered by done. apply last_snoc. }
  intros c Hc.
  assert (H1 : stored (FieldSelector (note_type_id c) "searchField") (cfg st')).
  { apply Hst.
    destruct (Config.get_note_type_specific_config_object
                c0 "searchField" (note_type_id c)) eqn:E.
    - left. simpl. by rewrite E.
    - right. apply elem_of_plan. left. exists c, "searchField". auto. }
  assert (H2 : stored (FieldSelector (note_type_id c) "audioField") (cfg st')).
  { apply Hst.
    destruct (Config.get_note_type_specific_config_object
                c0 "audioField" (note_type_id c)) eqn:E.
    - left. simpl. by rewrite E.
    - right. apply elem_of_plan. left. exists c, "audioField". auto. }
  assert (H3 : stored (LanguageSelector (did c)) (cfg st')).
  { apply Hst.
    destruct (Config.get_deck_specific_config_object
                c0 "language" (did c)) eqn:E.
    - left. simpl. by rewrite E.
    - right. apply elem_of_plan. right. exists c. auto. }
  simpl in H1, H2, H3. repeat split; try done.
  intros s e s0 Hcfg. apply resolve_with_settings; by rewrite Hcfg.
Qed.

Lemma answered_resolution_fills_every_gap_witness :
  last (events (ensure_fields Scenario.eager_user Scenario.five_cards
                  (opened Scenario.config_without_audio)))
  = Some StartDownloads.
Proof.
  refine (proj1 (answered_resolution_fills_every_gap Scenario.eager_user
            Scenario.five_cards Scenario.config_without_audio _ _)).
  - intros k d. exists "Audio". reflexivity.
  - exists (mkCard 0 100 1 10 0), "audioField".
    split; [apply list_elem_of_here|]. split; [by right|].
    vm_compute. reflexivity.
Defined.

End ResolutionMore.

(** ** One card per note *)

Module BrowserFacts.

Import Browser.

Lemma unique_loop_first_of_note cards : ∀ unique_cards addressed,
  unique_loop cards unique_cards addressed
  = unique_cards ++ first_of_note addressed cards.
Proof.
  induction cards as [|c cards IH]; intros u a; simpl.
  - by rewrite app_nil_r.
  - case_bool_decide; [apply IH|]. rewrite IH, <- app_assoc. done.
Qed.

Lemma first_of_note_sublist cards : ∀ seen,
  first_of_note seen cards `sublist_of` cards.
Proof.
  induction cards as [|c cards IH]; intros seen; simpl; [done|].
  case_bool_decide.
  - apply sublist_cons, IH.
  - apply sublist_skip, IH.
Qed.

Lemma first_of_note_unseen cards : ∀ seen c,
  c ∈ first_of_note seen cards → nid c ∉ seen.
Proof.
  induction cards as [|c0 cards IH]; intros seen c; simpl.
  { intros H. by apply elem_of_nil in H. }
  case_bool_decide as Hs; [apply IH|].
  intros [->|Hin]%elem_of_cons; [done|].
  apply IH in Hin. intros Hc. apply Hin, elem_of_app. by left.
Qed.

Lemma first_of_note_NoDup cards : ∀ seen,
  NoDup (nid <$> first_of_note seen cards).
Proof.
  induction cards as [|c cards IH]; intros seen; simpl; [constructor|].
  case_bool_decide as Hs; [apply IH|].
  rewrite fmap_cons. constructor; [|apply IH].
  intros (c' & Heq & Hin)%list_elem_of_fmap.
  apply first_of_note_unseen in Hin. apply Hin, elem_of_app. right.
  rewrite Heq. apply list_elem_of_here.
Qed.

Lemma first_of_note_covers cards : ∀ seen c,
  c ∈ cards → nid c ∈ seen ∨ nid c ∈ nid <$> first_of_note seen cards.
Proof.
  induction cards as [|c0 cards IH]; intros seen c; simpl.
  { intros H. by apply elem_of_nil in H. }
  intros [->|Hin]%elem_of_cons.
  - case_bool_decide as Hs; [by left|].
    right. rewrite fmap_cons. apply list_elem_of_here.
  - case_bool_decide as Hs; [by apply IH|].
    destruct (IH (seen ++ [nid c0]) c Hin) as [Hseen|Hres].
    + apply elem_of_app in Hseen as [Hseen|Hseen]; [by left|].
      apply list_elem_of_singleton in Hseen. right.
      rewrite fmap_cons, Hseen. apply list_elem_of_here.
    + right. rewrite fmap_cons. by apply list_elem_of_further.
Qed.

Lemma first_of_note_first cards : ∀ seen c,
  c ∈ first_of_note seen cards →
  ∃ l1 l2, cards = l1 ++ c :: l2 ∧ nid c ∉ nid <$> l1.
Proof.
  induction cards as [|c0 cards IH]; intros seen c; simpl.
  { intros H. by apply elem_of_nil in H. }
  case_bool_decide as Hs.
  - intros Hin. pose proof (first_of_note_unseen _ _ _ Hin) as Hun.
    destruct (IH seen c Hin) as (l1 & l2 & -> & Hn).
    exists (c0 :: l1), l2. split; [done|].
    rewrite fmap_cons. intros [Heq|Hl]%elem_of_cons; [|done].
    apply Hun. by rewrite Heq.
  - intros [->|Hin]%elem_of_cons.
    + exists [], cards. split; [done|]. apply not_elem_of_nil.
    + pose proof (first_of_note_unseen _ _ _ Hin) as Hun.
      destruct (IH _ c Hin) as (l1 & l2 & -> & Hn).
      exists (c0 :: l1), l2. split; [done|].
      rewrite fmap_cons. intros [Heq|Hl]%elem_of_cons; [|done].
      apply Hun, elem_of_app. right. rewrite Heq. apply list_elem_of_here.
Qed.

Lemma first_of_note_unique cards : ∀ seen,
  NoDup (nid <$> cards) →
  (∀ c, c ∈ cards → nid c ∉ seen) →
  first_of_note seen cards = cards.
Proof.
  induction cards as [|c cards IH]; intros seen Hnd Hun; simpl; [done|].
  rewrite fmap_cons in Hnd. apply NoDup_cons in Hnd as [Hc Hnd].
  rewrite bool_decide_eq_false_2 by (apply Hun, list_elem_of_here).
  f_equal. apply IH; [done|].
  intros c' Hc' [Hs|Hs]%elem_of_app.
  - by apply (Hun c'); [apply list_elem_of_further|].
  - apply list_elem_of_singleton in Hs. apply Hc.
    rewrite <- Hs. apply list_elem_of_fmap. eauto.
Qed.

(** X19.  The cards that [BulkAdd] is opened with: no two of them belong
    to the same note, they are a subsequence of the selected cards in the
    order of the selection, and every note of the selection is represented.
    The caption of the menu entry shows the two counts, the second never
    above the first. *)
Theorem one_card_per_note (cards : list Card) :
  let unique_cards := on_browser_ctx_menu_click cards in
  NoDup (nid <$> unique_cards)
  ∧ unique_cards `sublist_of` cards
  ∧ (∀ c, c ∈ cards → ∃ c', c' ∈ unique_cards ∧ nid c' = nid c)
  ∧ add_browser_context_menu_entry cards
    = (length cards, length unique_cards)
  ∧ (length unique_cards ≤ length cards)%nat.
Proof.
  unfold on_browser_ctx_menu_click, add_browser_context_menu_entry.
  rewrite unique_loop_first_of_note. simpl.
  split; [apply first_of_note_NoDup|].
  split; [apply first_of_note_sublist|].
  split.
  - intros c Hc. destruct (first_of_note_covers cards [] c Hc) as [H|H].
    + by apply elem_of_nil in H.
    + apply list_elem_of_fmap in H as (c' & Heq & Hin). eauto.
  - split; [done|]. apply sublist_length, first_of_note_sublist.
Qed.

(** X20.  Of the cards of one note the one selected first is kept: before
    each card that is kept, the selection holds no card of the same note. *)
Theorem the_first_card_of_a_note_is_kept (cards : list Card) (c : Card) :
  c ∈ on_browser_ctx_menu_click cards →
  ∃ before after, cards = before ++ c :: after ∧ nid c ∉ nid <$> before.
Proof.
  unfold on_browser_ctx_menu_click. rewrite unique_loop_first_of_note. simpl.
  apply first_of_note_first.
Qed.

Lemma the_first_card_of_a_note_is_kept_witness :
  ∃ before after,
    [mkCard 1 50 1 10 1; mkCard 2 51 1 10 2; mkCard 3 50 1 10 3]
    = before ++ mkCard 2 51 1 10 2 :: after
    ∧ nid (mkCard 2 51 1 10 2) ∉ nid <$> before.
Proof.
  apply (the_first_card_of_a_note_is_kept
           [mkCard 1 50 1 10 1; mkCard 2 51 1 10 2; mkCard 3 50 1 10 3]).
  vm_compute. apply list_elem_of_further, list_elem_of_here.
Defined.

(** X21.  A selection with one card per note is passed on unchanged, and
    so is the result of the loop itself: running it once more on its
    result returns the same cards. *)
Theorem unique_selection_is_unchanged (cards : list Card) :
  (NoDup (nid <$> cards) → on_browser_ctx_menu_click cards = cards)
  ∧ on_browser_ctx_menu_click (on_browser_ctx_menu_click cards)
    = on_browser_ctx_menu_click cards.
Proof.
  assert (H : ∀ l, NoDup (nid <$> l) → on_browser_ctx_menu_click l = l).
  { intros l Hnd. unfold on_browser_ctx_menu_click.
    rewrite unique_loop_first_of_note. simpl.
    apply first_of_note_unique; [done|]. intros; apply not_elem_of_nil. }
  split; [apply H|]. apply H.
  unfold on_browser_ctx_menu_click. rewrite unique_loop_first_of_note. simpl.
  apply first_of_note_NoDup.
Qed.

End BrowserFacts.

(** ** Reading a file in chunks (lines 22-27) *)

Module Md5Facts.

Import Md5.

Lemma chunks_concat content : concat (chunks content) = content.
Proof.
  funelim (chunks content); simp chunks; [done|].
  change (drop 4096 (b :: content)) with (drop 4095 content).
  cbn [concat].
  match goal with IH : concat (chunks _) = drop _ _ |- _ => rewrite IH end.
  change (drop 4095 content) with (drop 4096 (b :: content)).
  apply take_drop.
Qed.

Lemma chunks_sizes content :
  Forall (λ ch, (0 < length ch ≤ 4096)%nat) (chunks content).
Proof.
  funelim (chunks content); simp chunks; [constructor|].
  constructor.
  - rewrite length_take. cbn [length]. lia.
  - match goal with IH : Forall _ (chunks _) |- _ => exact IH end.
Qed.

(** X22.  The loop of [md5] feeds the whole file to the hash, in order and
    nothing twice: the chunks it reads are not empty, none is longer than
    4096 bytes, and joined together they are the content of the file.  For
    a hash whose [update] on two pieces one after the other is its [update]
    on the joined pieces, the digest is therefore that of the content
    hashed in one piece; for the empty file no [update] is called at all. *)
Theorem md5_reads_the_whole_file
    (state : Type) (new : state) (update : state → list Byte.byte → state)
    (hexdigest : state → string) (content : list Byte.byte) :
  (∀ h a b, update (update h a) b = update h (a ++ b)) →
  (∀ h, update h [] = h) →
  concat (chunks content) = content
  ∧ Forall (λ ch, (0 < length ch ≤ 4096)%nat) (chunks content)
  ∧ md5 state new update hexdigest content = hexdigest (update new content)
  ∧ chunks [] = [].
Proof.
  intros Happ Hnil.
  split; [apply chunks_concat|]. split; [apply chunks_sizes|].
  split; [|by simp chunks].
  unfold md5. f_equal.
  rewrite <- (chunks_concat content) at 2.
  generalize (chunks content) new. clear content.
  intros l. induction l as [|ch l IH]; intros h; simpl; [by rewrite Hnil|].
  rewrite IH, Happ. done.
Qed.

Lemma md5_reads_the_whole_file_witness :
  md5 (list Byte.byte) [] (λ h a, h ++ a) (λ _, "")
    [Byte.x01; Byte.x02; Byte.x03]
  = "".
Proof.
  refine (proj1 (proj2 (proj2 (md5_reads_the_whole_file (list Byte.byte) []
            (λ h a, h ++ a) (λ _, "") [Byte.x01; Byte.x02; Byte.x03] _ _)))).
  - intros h a b. symmetry. apply app_assoc.
  - intros h. apply app_nil_r.
Defined.

End Md5Facts.

(** ** The Forvo button of the editor *)

Module EditorFacts.

Import EditorButton.

Ltac click_cases :=
  cbn [on_editor_btn_click];
  repeat match goal with
         | |- context [match ?x with _ => _ end] => destruct x eqn:?
         end.

Ltac in_events H :=
  repeat (apply elem_of_cons in H as [H|H]; [try discriminate H|]);
  try (by apply elem_of_nil in H).

Lemma click_again_is_manual answers : ∀ shift config editor config' evs q l a auto,
  on_editor_btn_click answers shift config editor (Some false) = (config', evs) →
  Proceed q l a auto ∈ evs → auto = false.
Proof.
  induction answers as [|ans rest IH];
    intros shift config editor config' evs q l a auto.
  - click_cases; intros [= <- <-] Hin; in_events Hin; by injection Hin.
  - click_cases; intros [= <- <-] Hin; in_events Hin;
      try (by injection Hin); eauto.
Qed.

(** X23.  Shift-click asks for the most upvoted pronunciation to be added
    without a dialog.  That choice does not survive a field dialog: when
    the click had to ask for a field first, the download that follows the
    selection is never the automatic one, with the shift key down or not. *)
Theorem automatic_choice_is_lost_after_a_field_dialog
    (answers : list (option string)) (shift : bool) (config : Config.Config)
    (editor : Editor) (choose_automatically : option bool)
    (config' : Config.Config) (evs : list Event)
    (nt : Z) (ft q l a : string) (auto : bool) :
  on_editor_btn_click answers shift config editor choose_automatically
  = (config', evs) →
  FieldSelectorShown nt ft ∈ evs →
  Proceed q l a auto ∈ evs →
  auto = false.
Proof.
  destruct answers as [|ans rest].
  - click_cases; intros [= <- <-] Hf Hin; in_events Hin; in_events Hf.
  - click_cases; intros [= <- <-] Hf Hin; in_events Hin; in_events Hf;
      eauto using click_again_is_manual.
Qed.

Lemma automatic_choice_is_lost_after_a_field_dialog_witness :
  on_editor_btn_click [Some "Front"] true EditorScenario.config_without_search
    EditorScenario.sample_editor None
  = (Config.set_note_type_specific_config_object
       EditorScenario.config_without_search "searchField" "Front" 10,
     [FieldSelectorShown 10 "searchField"; Proceed "neko" "en" "Audio" false])
  ∧ false = false.
Proof.
  split; [reflexivity|].
  apply (automatic_choice_is_lost_after_a_field_dialog [Some "Front"] true
           EditorScenario.config_without_search EditorScenario.sample_editor None
           _ _ 10 "searchField" "neko" "en" "Audio" false eq_refl).
  - apply list_elem_of_here.
  - apply list_elem_of_further, list_elem_of_here.
Defined.

Lemma unusable_false field n :
  unusable field n = inr false →
  ∃ v nn, field = Some v ∧ n = Some nn ∧ note_has nn v = true.
Proof.
  unfold unusable. destruct field as [v|]; [|done].
  destruct n as [nn|]; [|done].
  destruct (note_has nn v) eqn:E; [|done]. eauto.
Qed.

Lemma length_zero s : String.length s = 0%nat → s = "".
Proof. by destruct s. Qed.

Lemma pick_query_some n sf current q :
  pick_query n sf current = inr (Some q) →
  q ≠ ""
  ∧ (q = note_get n sf
     ∨ (note_has n sf = false ∨ note_get n sf = "")
       ∧ ∃ i, current = Some i ∧ n.*2 !! i = Some q).
Proof.
  unfold pick_query.
  destruct (note_has n sf) eqn:Hh; simpl.
  - destruct (Nat.eqb_spec (String.length (note_get n sf)) 0) as [H0|H0]; simpl.
    + destruct current as [i|]; [|done].
      destruct (n.*2 !! i) as [content|] eqn:Hi; [|done].
      destruct (Nat.eqb_spec (String.length content) 0) as [Hc|Hc]; [done|].
      intros [= <-]. split; [by intros ->|].
      right. split; [right; by apply length_zero|]. eauto.
    + intros [= <-]. split; [|by left]. intros Hq. by rewrite Hq in H0.
  - destruct current as [i|]; [|done].
    destruct (n.*2 !! i) as [content|] eqn:Hi; [|done].
    destruct (Nat.eqb_spec (String.length content) 0) as [Hc|Hc]; [done|].
    intros [= <-]. split; [by intros ->|].
    right. split; [by left|]. eauto.
Qed.

Lemma ready_intro config config' editor sf a n q deck l :
  Config.get_note_type_specific_config_object
    config "searchField" (note_type_id_of editor) = Some sf →
  Config.get_note_type_specific_config_object
    config "audioField" (note_type_id_of editor) = Some a →
  note editor = Some n →
  unusable (Some sf) (Some n) = inr false →
  unusable (Some a) (Some n) = inr false →
  pick_query n sf (currentField editor) = inr (Some q) →
  deck_id_of editor = Some deck →
  Config.note_type_specific config' = Config.note_type_specific config →
  Config.get_deck_specific_config_object config' "language" deck = Some l →
  ready editor config' q l a.
Proof.
  intros Hs Ha Hn Hu1 Hu2 Hq Hd Hnts Hl.
  apply unusable_false in Hu1 as (v1 & n1 & [= <-] & [= <-] & Hh1).
  apply unusable_false in Hu2 as (v2 & n2 & [= <-] & [= <-] & Hh2).
  apply pick_query_some in Hq as (Hne & Hq).
  exists n, sf, deck.
  unfold Config.get_note_type_specific_config_object in *.
  rewrite Hnts. repeat split; try done.
  destruct Hq as [->|([Hno|He] & Hi)]; [by left|congruence|by right].
Qed.

Lemma proceed_is_ready answers :
  ∀ shift config editor choose config' evs q l a auto,
  on_editor_btn_click answers shift config editor choose = (config', evs) →
  Proceed q l a auto ∈ evs →
  ready editor config' q l a ∧ last evs = Some (Proceed q l a auto).
Proof.
  induction answers as [|ans rest IH];
    intros shift config editor choose config' evs q l a auto.
  - click_cases; intros [= <- <-] Hin; in_events Hin;
      injection Hin as -> -> -> ->;
      (split; [|done]); eapply ready_intro; eauto.
  - click_cases; intros [= <- <-] Hin; in_events Hin;
      first
        [ match goal with
          | Hrec : on_editor_btn_click rest _ _ _ _ = _ |- _ =>
              destruct (IH _ _ _ _ _ _ _ _ _ _ Hrec Hin) as [Hr Hl];
              split; [exact Hr|]; rewrite last_cons, Hl; done
          end
        | injection Hin as -> -> -> ->;
          (split; [|done]); eapply ready_intro; eauto;
          unfold Config.get_deck_specific_config_object; simpl;
          by rewrite lookup_insert_eq ].
Qed.

(** X24.  The download is reached only in a state in which it can work:
    the editor has a note, a deck is known, the search field and the audio
    field are configured for the note type and exist in the note, the
    language of the deck is stored, and the query is not empty: it is the
    content of the search field or, when that is empty, the content of the
    field the cursor is in.  The call of [proceed] is then the last thing
    the click does. *)
Theorem download_is_reached_in_a_ready_state
    (answers : list (option string)) (shift : bool) (config : Config.Config)
    (editor : Editor) (choose_automatically : option bool)
    (config' : Config.Config) (evs : list Event) (q l a : string) (auto : bool) :
  on_editor_btn_click answers shift config editor choose_automatically
  = (config', evs) →
  Proceed q l a auto ∈ evs →
  (∃ n sf deck,
     note editor = Some n
     ∧ deck_id_of editor = Some deck
     ∧ Config.get_note_type_specific_config_object
         config' "searchField" (note_type_id_of editor) = Some sf
     ∧ note_has n sf = true
     ∧ Config.get_note_type_specific_config_object
         config' "audioField" (note_type_id_of editor) = Some a
     ∧ note_has n a = true
     ∧ Config.get_deck_specific_config_object config' "language" deck = Some l
     ∧ q ≠ ""
     ∧ (q = note_get n sf
        ∨ note_get n sf = ""
          ∧ ∃ i, currentField editor = Some i ∧ n.*2 !! i = Some q))
  ∧ last evs = Some (Proceed q l a auto).
Proof. apply proceed_is_ready. Qed.

Lemma download_is_reached_in_a_ready_state_witness :
  last (on_editor_btn_click [Some "Front"] true
          EditorScenario.config_without_search
          EditorScenario.sample_editor None).2
  = Some (Proceed "neko" "en" "Audio" false).
Proof.
  refine (proj2 (download_is_reached_in_a_ready_state [Some "Front"] true
            EditorScenario.config_without_search EditorScenario.sample_editor
            None _ _ "neko" "en" "Audio" false eq_refl _)).
  apply list_elem_of_further, list_elem_of_here.
Defined.

Lemma no_note_no_message answers :
  ∀ shift config editor choose config' evs,
  note editor = None →
  on_editor_btn_click answers shift config editor choose = (config', evs) →
  (∀ sf, ShowInfo (please_enter sf) ∉ evs)
  ∧ (∀ q l a auto, Proceed q l a auto ∉ evs).
Proof.
  induction answers as [|ans rest IH];
    intros shift config editor choose config' evs Hnone.
  - click_cases; intros [= <- <-]; (split; [intros ? Hin|intros ? ? ? ? Hin]);
      in_events Hin;
      try match goal with H : unusable _ None = inr _ |- _ => discriminate H end;
      congruence.
  - click_cases; intros [= <- <-]; (split; [intros ? Hin|intros ? ? ? ? Hin]);
      in_events Hin;
      try match goal with H : unusable _ None = inr _ |- _ => discriminate H end;
      try congruence;
      match goal with
      | Hrec : on_editor_btn_click rest _ _ _ _ = _ |- _ =>
          destruct (IH _ _ _ _ _ _ Hnone Hrec) as [H1 H2]
      end; first [by eapply H1 | by eapply H2].
Qed.

(** X25.  With no note loaded in the editor the click never gets to the
    message asking for a search term (lines 77-79) and never to a download.
    If the search field of the note type is configured, the membership
    test of line 65 raises [AttributeError] and nothing else happens;
    otherwise the field dialog opens. *)
Theorem click_without_a_note
    (answers : list (option string)) (shift : bool) (config : Config.Config)
    (editor : Editor) (choose_automatically : option bool) :
  note editor = None →
  let r := on_editor_btn_click answers shift config editor choose_automatically in
  (∀ sf, ShowInfo (please_enter sf) ∉ r.2)
  ∧ (∀ q l a auto, Proceed q l a auto ∉ r.2)
  ∧ (is_Some (Config.get_note_type_specific_config_object
                config "searchField" (note_type_id_of editor)) →
     r = (config, [Uncaught AttributeError]))
  ∧ (Config.get_note_type_specific_config_object
       config "searchField" (note_type_id_of editor) = None →
     head r.2 = Some (FieldSelectorShown (note_type_id_of editor) "searchField")).
Proof.
  intros Hnone r.
  destruct (no_note_no_message answers shift config editor choose_automatically
              r.1 r.2 Hnone) as [H1 H2]; [subst r; apply surjective_pairing|].
  split; [exact H1|]. split; [exact H2|]. subst r. split.
  - intros [v Hv]. destruct answers; cbn [on_editor_btn_click];
      rewrite Hv, Hnone; done.
  - intros Hv. destruct answers as [|[f|] rest]; cbn [on_editor_btn_click];
      rewrite Hv; simpl; [done| |done].
    by destruct (on_editor_btn_click rest _ _ _ _).
Qed.

Lemma click_without_a_note_witness :
  on_editor_btn_click [] false (Scenario.sample_config false)
    (mkEditor None (Some 1) 10 None None) None
  = (Scenario.sample_config false, [Uncaught AttributeError]).
Proof.
  destruct (click_without_a_note [] false (Scenario.sample_config false)
              (mkEditor None (Some 1) 10 None None) None eq_refl)
    as (_ & _ & H & _).
  apply H. vm_compute. eauto.
Defined.

End EditorFacts.
